(** * text_extractor: a shallow embedding of [src/text_extractor.cpp]

    The development follows the class [TextExtractor]: the string and
    [size_t] primitives it relies on, the chunk splitter, the regular
    expressions of the pattern registry, the text cleaner, the per-file
    extraction engine, the aggregator and the translation worksheet. *)

From Stdlib Require Import ZArith Lia List Ascii String Bool DecimalString.
From Stdlib Require Import DecimalPos DecimalN.
From stdpp Require Import base option list gmap strings.

Local Open Scope Z_scope.

(** ** [size_t] and [std::string] *)

(** [size_t] is a 64-bit unsigned integer: values are kept in [Z] and every
    arithmetic operation of the source is followed by [wrap]. *)
Definition size_modulus : Z := 2 ^ 64.

Definition wrap (z : Z) : Z := z mod size_modulus.

(** [std::string::npos] is [size_t(-1)]. *)
Definition npos : Z := size_modulus - 1.

(** No [std::string] is longer than [max_size()], which is below [2^63] on
    every 64-bit implementation; [fits_string] records it for a value. *)
Definition string_size_bound : Z := 2 ^ 63.

(** A [std::string] is its sequence of [char]. *)
Abbreviation cstring := (list ascii).

Definition lit (s : string) : cstring := list_ascii_of_string s.

(** [s.length()] *)
Definition str_length (s : cstring) : Z := Z.of_nat (length s).

Definition fits_string (s : cstring) : Prop := str_length s < string_size_bound.

(** [s[i]]; reading at [i = s.length()] yields the terminating NUL. *)
Definition char_at (s : cstring) (i : Z) : ascii :=
  nth (Z.to_nat i) s "000"%char.

(** [s.substr(pos, n)]: at most [n] characters from [pos].  Every call of the
    source has [pos <= s.length()], so [std::out_of_range] is never thrown. *)
Definition substr (s : cstring) (pos n : Z) : cstring :=
  take (Z.to_nat n) (drop (Z.to_nat pos) s).

(** [s.substr(pos)] *)
Definition substr_from (s : cstring) (pos : Z) : cstring :=
  drop (Z.to_nat pos) s.

(** Backward search below index [n]: the greatest [i < n] with [s[i] = c]. *)
Fixpoint rfind_below (s : cstring) (c : ascii) (n : nat) : Z :=
  match n with
  | O => npos
  | S k => if Ascii.eqb (nth k s "000"%char) c then Z.of_nat k
           else rfind_below s c k
  end.

(** [s.rfind(c, pos)]: the last occurrence of [c] at an index [<= pos], or
    [npos]. *)
Definition rfind (s : cstring) (c : ascii) (pos : Z) : Z :=
  rfind_below s c (Z.to_nat (Z.min (pos + 1) (str_length s))).

(** [line.find(p) == 0]: [p] is a prefix of [line]. *)
Fixpoint starts_with (p line : cstring) : bool :=
  match p, line with
  | [], _ => true
  | _ :: _, [] => false
  | a :: p', b :: line' => Ascii.eqb a b && starts_with p' line'
  end.

(** [std::to_string] on a [size_t]. *)
Definition to_string (n : Z) : cstring :=
  lit (NilZero.string_of_uint (N.to_uint (Z.to_N n))).

(** [std::isspace] in the "C" locale: space and the controls 9 to 13. *)
Definition isspace (c : ascii) : bool :=
  let n := N_of_ascii c in
  (n =? 32)%N || ((9 <=? n)%N && (n <=? 13)%N).

(** ** The records of the class *)

Record TextChunk := mkTextChunk {
  text : cstring;
  file_path : cstring;
  line_number : Z;
  column_start : Z;
  column_end : Z;
  context : cstring;
  original_text : cstring
}.

(** The initial values of [min_text_length] and [max_chunk_size]. *)
Definition default_min_text_length : Z := 3.
Definition default_max_chunk_size : Z := 50000.

(** ** Chunk splitter: [split_into_chunks] *)

Module Splitter.
Section WithBound.

Variable max_chunk_size : Z.

(** The cut position of one iteration of the [while] loop: the hard
    boundary [min(start + max_chunk_size, length)], moved back to the last
    space at or before it when that space lies strictly after [start]. *)
Definition cut_end (txt : cstring) (start : Z) : Z :=
  let end_ := Z.min (wrap (start + max_chunk_size)) (str_length txt) in
  if end_ <? str_length txt then
    let last_space := rfind txt " "%char end_ in
    if negb (last_space =? npos) && (last_space >? start)
    then last_space else end_
  else end_.

(** Whether the loop skips a space after the cut. *)
Definition skips_space (txt : cstring) (end_ : Z) : bool :=
  (end_ <? str_length txt) && Ascii.eqb (char_at txt end_) " "%char.

(** The value of [start] at the end of the iteration. *)
Definition next_start (txt : cstring) (end_ : Z) : Z :=
  if skips_space txt end_ then wrap (end_ + 1) else end_.

(** [new_chunk]: a copy of [chunk] with [text] and [file_path] replaced. *)
Definition fragment (chunk : TextChunk) (start end_ chunk_id : Z) : TextChunk :=
  {| text := substr (text chunk) start (wrap (end_ - start));
     file_path := file_path chunk ++ lit "_chunk_" ++ to_string chunk_id;
     line_number := line_number chunk;
     column_start := column_start chunk;
     column_end := column_end chunk;
     context := context chunk;
     original_text := original_text chunk |}.

(** The [while (start < text.length())] loop.  It need not terminate, so
    it runs on fuel: [None] means that the fuel ran out. *)
Fixpoint split_loop (fuel : nat) (chunk : TextChunk) (start chunk_id : Z)
  : option (list TextChunk) :=
  match fuel with
  | O => None
  | S fuel' =>
      if start <? str_length (text chunk) then
        let end_ := cut_end (text chunk) start in
        rest ← split_loop fuel' chunk (next_start (text chunk) end_)
                          (wrap (chunk_id + 1));
        Some (fragment chunk start end_ chunk_id :: rest)
      else Some []
  end.

(** The [for] loop over the input chunks. *)
Fixpoint split_into_chunks (fuel : nat) (chunks : list TextChunk)
  : option (list TextChunk) :=
  match chunks with
  | [] => Some []
  | chunk :: chunks' =>
      if str_length (text chunk) <=? max_chunk_size then
        rest ← split_into_chunks fuel chunks';
        Some (chunk :: rest)
      else
        frags ← split_loop fuel chunk 0 0;
        rest ← split_into_chunks fuel chunks';
        Some (frags ++ rest)
  end.

(** The cuts of the loop, kept for stating where the boundaries fall: for
    each iteration the pair [(start, end)] and whether a space was skipped
    after [end]. *)
Fixpoint split_cuts (fuel : nat) (txt : cstring) (start : Z)
  : option (list (Z * Z * bool)) :=
  match fuel with
  | O => None
  | S fuel' =>
      if start <? str_length txt then
        let end_ := cut_end txt start in
        rest ← split_cuts fuel' txt (next_start txt end_);
        Some ((start, end_, skips_space txt end_) :: rest)
      else Some []
  end.

End WithBound.

(** The fragments that the loop pushes for a list of cuts, numbered from
    [chunk_id]. *)
Fixpoint fragments_of_cuts (chunk : TextChunk) (chunk_id : Z)
    (cuts : list (Z * Z * bool)) : list TextChunk :=
  match cuts with
  | [] => []
  | (start, end_, _) :: cuts' =>
      fragment chunk start end_ chunk_id
        :: fragments_of_cuts chunk (wrap (chunk_id + 1)) cuts'
  end.

(** Rejoining fragment texts: one space is put back after each fragment
    whose cut was made at a space, nothing after the others. *)
Definition rejoin (pieces : list (cstring * bool)) : cstring :=
  flat_map (fun p : cstring * bool =>
              fst p ++ (if snd p then [" "%char] else [])) pieces.

End Splitter.

(** ** [std::regex]: the ECMAScript constructs used by the source *)

Module Regex.

Inductive regex : Type :=
| Eps
| Chr (c : ascii)               (* an ordinary or escaped character *)
| Dot                           (* [.]: any character but LF and CR *)
| Space                         (* [\s] *)
| OneOf (cs : list ascii)       (* [[...]] *)
| NoneOf (cs : list ascii)      (* [[^...]] *)
| Seq (r1 r2 : regex)
| Star (r : regex)              (* greedy [*] *)
| Plus (r : regex)              (* greedy [+] *)
| Group (n : nat) (r : regex).  (* the [n]-th capturing group *)

(** A matcher state: the index reached in the line, the characters still
    to read, and the spans [(first, second)] of the groups closed so far
    (the most recent first). *)
Record mstate := mkState {
  m_pos : Z;
  m_rest : cstring;
  m_caps : list (nat * (Z * Z))
}.

Definition mem_char (c : ascii) (cs : list ascii) : bool :=
  existsb (Ascii.eqb c) cs.

Definition is_line_terminator (c : ascii) : bool :=
  Ascii.eqb c "010"%char || Ascii.eqb c "013"%char.

Definition step_char (p : ascii -> bool) (st : mstate) : list mstate :=
  match m_rest st with
  | c :: rest' =>
      if p c then [mkState (m_pos st + 1) rest' (m_caps st)] else []
  | [] => []
  end.

(** Greedy repetition: every way of matching once more (an iteration that
    consumes nothing is rejected), each followed by further repetitions,
    and last the way that stops here.  [fuel] bounds the iterations by the
    number of characters left. *)
Fixpoint star_iter (step : mstate -> list mstate) (fuel : nat) (st : mstate)
  : list mstate :=
  match fuel with
  | O => [st]
  | S fuel' =>
      flat_map (fun st' => if m_pos st <? m_pos st'
                           then star_iter step fuel' st' else [])
               (step st) ++ [st]
  end.

Definition close_group (n : nat) (first : Z) (st : mstate) : mstate :=
  mkState (m_pos st) (m_rest st) ((n, (first, m_pos st)) :: m_caps st).

(** All the ways [r] matches at [st], in the order in which the
    backtracking matcher tries them. *)
Fixpoint rmatch (r : regex) (st : mstate) : list mstate :=
  match r with
  | Eps => [st]
  | Chr c => step_char (Ascii.eqb c) st
  | Dot => step_char (fun x => negb (is_line_terminator x)) st
  | Space => step_char isspace st
  | OneOf cs => step_char (fun x => mem_char x cs) st
  | NoneOf cs => step_char (fun x => negb (mem_char x cs)) st
  | Seq r1 r2 => flat_map (rmatch r2) (rmatch r1 st)
  | Star r' => star_iter (rmatch r') (S (length (m_rest st))) st
  | Plus r' =>
      flat_map (fun st' => star_iter (rmatch r') (S (length (m_rest st'))) st')
               (rmatch r' st)
  | Group n r' => map (close_group n (m_pos st)) (rmatch r' st)
  end.

(** [std::match_results]: [prefix()], the span and text of the whole
    match, the groups, and [suffix()]. *)
Record match_result := mkMatch {
  mr_prefix : cstring;
  mr_first : Z;
  mr_second : Z;
  mr_str : cstring;
  mr_caps : list (nat * (Z * Z));
  mr_suffix : cstring
}.

(** A match of [r] starting exactly at [pos]; with [not_null] an empty
    match is not accepted ([match_not_null]). *)
Definition match_at (r : regex) (not_null : bool) (prefix : cstring)
    (pos : Z) (rest : cstring) : option match_result :=
  let ok st := negb not_null || (pos <? m_pos st) in
  match List.find ok (rmatch r (mkState pos rest [])) with
  | Some st =>
      Some (mkMatch prefix pos (m_pos st)
                    (take (Z.to_nat (m_pos st - pos)) rest)
                    (m_caps st) (m_rest st))
  | None => None
  end.

(** [regex_search]: the leftmost match at or after [pos]; [prefix] is what
    lies between the end of the previous match and [pos]. *)
Fixpoint search_from (r : regex) (prefix : cstring) (pos : Z) (rest : cstring)
  : option match_result :=
  match match_at r false prefix pos rest with
  | Some m => Some m
  | None =>
      match rest with
      | [] => None
      | c :: rest' => search_from r (prefix ++ [c]) (pos + 1) rest'
      end
  end.

(** [++iter] of [std::regex_iterator] after the match [m], and the matches
    that follow.  After an empty match, a non-empty match at the same place
    is tried first, and else the search resumes one character further. *)
Fixpoint iter_next (fuel : nat) (r : regex) (m : match_result)
  : list match_result :=
  match fuel with
  | O => []
  | S fuel' =>
      let continue (o : option match_result) :=
        match o with
        | Some m' => m' :: iter_next fuel' r m'
        | None => []
        end in
      if mr_first m =? mr_second m then
        match mr_suffix m with
        | [] => []
        | c :: rest' =>
            match match_at r true [] (mr_second m) (mr_suffix m) with
            | Some m' => m' :: iter_next fuel' r m'
            | None => continue (search_from r [c] (mr_second m + 1) rest')
            end
        end
      else continue (search_from r [] (mr_second m) (mr_suffix m))
  end.

(** The matches that [std::sregex_iterator(line.begin(), line.end(), r)]
    yields until it equals the end iterator.  Of two consecutive matches the
    second ends further right or is empty where the first, not empty, ended:
    there are at most [2 * length + 1] of them, which the fuel covers. *)
Definition regex_iterator (r : regex) (line : cstring) : list match_result :=
  match search_from r [] 0 line with
  | Some m => m :: iter_next (S (2 * length line)) r m
  | None => []
  end.

(** [std::regex_replace(s, r, fmt)] for a format string without [$]: each
    match is replaced by [fmt]; what lies between the matches is copied. *)
Definition regex_replace (s : cstring) (r : regex) (fmt : cstring) : cstring :=
  match regex_iterator r s with
  | [] => s
  | m :: ms =>
      flat_map (fun m' => mr_prefix m' ++ fmt) (m :: ms)
        ++ mr_suffix (List.last ms m)
  end.

(** The span of the [n]-th sub-match; group 0 is the whole match, and a
    group that took no part in the match is empty at the end of the line. *)
Fixpoint lookup_cap (n : nat) (caps : list (nat * (Z * Z))) : option (Z * Z) :=
  match caps with
  | [] => None
  | (k, span) :: caps' => if Nat.eqb k n then Some span else lookup_cap n caps'
  end.

Definition sub_span (line : cstring) (m : match_result) (n : nat) : Z * Z :=
  match n with
  | O => (mr_first m, mr_second m)
  | _ => match lookup_cap n (mr_caps m) with
         | Some span => span
         | None => (str_length line, str_length line)
         end
  end.

(** [match.position(n)], [match.length(n)], [match[n].str()] *)
Definition position (line : cstring) (m : match_result) (n : nat) : Z :=
  fst (sub_span line m n).

Definition length_of (line : cstring) (m : match_result) (n : nat) : Z :=
  snd (sub_span line m n) - fst (sub_span line m n).

Definition sub_str (line : cstring) (m : match_result) (n : nat) : cstring :=
  substr line (position line m n) (length_of line m n).

Definition seq_re (rs : list regex) : regex := fold_right Seq Eps rs.

(** A run of ordinary characters. *)
Definition str_re (s : string) : regex := seq_re (map Chr (lit s)).

End Regex.

Import Regex.

(** ** Characters named in the source *)

Definition LF : ascii := "010"%char.
Definition TAB : ascii := "009"%char.
Definition CR : ascii := "013"%char.
Definition dquote : ascii := "034"%char.
Definition squote : ascii := "039"%char.
Definition backslash : ascii := "092"%char.

(** ** Pattern registry: [text_patterns] *)

(** The quoted-literal rule of line 22, for the quote [q]: the quote; as
    group 1 a run of characters other than the quote and the backslash,
    followed by any number of blocks made of a backslash, any character and
    such a run (group 2); the quote. *)
Definition quoted_re (q : ascii) : regex :=
  seq_re [ Chr q;
           Group 1 (seq_re
             [ Star (NoneOf [q; backslash]);
               Star (Group 2 (seq_re [ Chr backslash; Dot;
                                       Star (NoneOf [q; backslash]) ])) ]);
           Chr q ].

(** The key/value rules: the key, blanks, a colon or an equals sign,
    blanks, either quote, as group 1 one or more characters that are not
    quotes, either quote. *)
Definition key_value_re (key : string) : regex :=
  seq_re [ str_re key; Star Space; OneOf [":"%char; "="%char]; Star Space;
           OneOf [dquote; squote];
           Group 1 (Plus (NoneOf [dquote; squote]));
           OneOf [dquote; squote] ].

(** The tag rules: the opening tag, as group 1 one or more characters other
    than [<], the closing tag. *)
Definition tag_re (tag : string) : regex :=
  seq_re [ str_re ("<" ++ tag ++ ">"); Group 1 (Plus (NoneOf ["<"%char]));
           str_re ("</" ++ tag ++ ">") ].

(** Line 21 of the source, the first initializer of [text_patterns], as
    the compiler reads it. A raw string literal with an empty delimiter
    ends at the first closing parenthesis that a double quote follows;
    [raw_string] takes the text after the opening of the literal and gives
    the content of the literal and the text that follows it, and nothing
    when the literal is never closed. *)
Fixpoint raw_string (s : cstring) : option (cstring * cstring) :=
  match s with
  | [] => None
  | c :: s' =>
      match s' with
      | [] => None
      | d :: rest =>
          if Ascii.eqb c ")" && Ascii.eqb d dquote then Some ([], rest)
          else match raw_string s' with
               | Some (content, rest') => Some (c :: content, rest')
               | None => None
               end
      end
  end.

(** The text of line 21 after the opening of its raw string literal. *)
Definition line21_after_open : cstring :=
  [dquote] ++ lit "([^" ++ [dquote] ++ lit "\\]*" ++ lit "(\\.[^" ++ [dquote]
  ++ lit "\\]*" ++ lit ")*" ++ lit ")" ++ [dquote] ++ lit ")" ++ [dquote]
  ++ lit "),  // Double quoted strings".

(** The pattern that line 21 hands to [std::regex]: the quote, the opening
    of group 1, the two runs; the group is not closed and the closing quote
    is missing, for the literal ends where the pattern wants both. *)
Definition line21_pattern : cstring :=
  [dquote] ++ lit "([^" ++ [dquote] ++ lit "\\]*" ++ lit "(\\.[^" ++ [dquote]
  ++ lit "\\]*" ++ lit ")*".

(** What line 21 holds after its raw string literal: the parenthesis that
    closes the constructor call, then a double quote, which opens an
    ordinary string literal that the line never closes. *)
Definition line21_rest : cstring :=
  lit ")" ++ [dquote] ++ lit "),  // Double quoted strings".

(** The groups that a pattern opens and does not close, parentheses inside
    a bracket expression and escaped characters left out. [std::regex]
    throws [regex_error] on a pattern where this is not zero. *)
Fixpoint unclosed_groups (in_class : bool) (s : cstring) : Z :=
  match s with
  | [] => 0
  | c :: s' =>
      if Ascii.eqb c backslash then
        match s' with
        | [] => 0
        | _ :: s'' => unclosed_groups in_class s''
        end
      else if in_class then unclosed_groups (negb (Ascii.eqb c "]")) s'
      else if Ascii.eqb c "[" then unclosed_groups true s'
      else if Ascii.eqb c "(" then unclosed_groups false s' + 1
      else if Ascii.eqb c ")" then unclosed_groups false s' - 1
      else unclosed_groups false s'
  end.

(** The rule that line 21 is meant to build, as its comment says: the
    pattern of line 22 with the double quote in the place of the single
    quote. The source as written does not build it. *)
Definition double_quoted_re : regex := quoted_re dquote.

(** The registry as the source builds it: the rules of lines 22 to 39.
    Line 21 contributes no rule, its pattern [line21_pattern] being one
    that [std::regex] refuses. *)
Definition default_text_patterns : list regex :=
  [ quoted_re squote ]
  ++ map key_value_re
       [ "text"; "label"; "message"; "title"; "description"; "name"; "value";
         "content" ]%string
  ++ map tag_re
       [ "text"; "string"; "message"; "label"; "title"; "description"; "name";
         "value"; "content" ]%string.

Definition default_supported_extensions : list cstring :=
  map lit
    [ ".csv"; ".erb"; ".erh"; ".py"; ".cpp"; ".c"; ".h"; ".hpp"; ".cs";
      ".java"; ".js"; ".ts"; ".jsx"; ".tsx"; ".xml"; ".json"; ".yaml"; ".yml";
      ".ini"; ".cfg"; ".txt"; ".lua"; ".rpy"; ".unity"; ".prefab"; ".asset";
      ".scene"; ".csproj"; ".sln" ]%string.

(** The data members of the class. *)
Record TextExtractor := mkTextExtractor {
  text_patterns : list regex;
  supported_extensions : list cstring;
  min_text_length : Z;
  max_chunk_size : Z
}.

Definition default_extractor : TextExtractor :=
  {| text_patterns := default_text_patterns;
     supported_extensions := default_supported_extensions;
     min_text_length := default_min_text_length;
     max_chunk_size := default_max_chunk_size |}.

(** ** Text cleaner: [clean_text] *)

(** The regex [\\c] of the source: a backslash followed by [c]. *)
Definition escape_re (c : ascii) : regex := Seq (Chr backslash) (Chr c).

Fixpoint drop_while (p : ascii -> bool) (s : cstring) : cstring :=
  match s with
  | [] => []
  | c :: s' => if p c then drop_while p s' else s
  end.

(** The two [erase] calls: leading, then trailing whitespace. *)
Definition trim (s : cstring) : cstring :=
  rev (drop_while isspace (rev (drop_while isspace s))).

Definition unescape (s : cstring) : cstring :=
  let cleaned := s in
  let cleaned := regex_replace cleaned (escape_re "n"%char) [LF] in
  let cleaned := regex_replace cleaned (escape_re "t"%char) [TAB] in
  let cleaned := regex_replace cleaned (escape_re "r"%char) [CR] in
  let cleaned := regex_replace cleaned (escape_re dquote) [dquote] in
  let cleaned := regex_replace cleaned (escape_re squote) [squote] in
  let cleaned := regex_replace cleaned (escape_re backslash) [backslash] in
  cleaned.

Definition clean_text (s : cstring) : cstring := trim (unescape s).

(** ** The file system and [std::cerr] *)

(** What [fs::recursive_directory_iterator] yields for an entry; the
    extension is the one [fs::path::extension] computes. *)
Record DirEntry := mkDirEntry {
  entry_path : cstring;
  entry_is_regular_file : bool;
  entry_extension : cstring
}.

(** [fs_walk d]: the entries the iterator yields under [d], and the message
    of the exception that ends the walk, if any.  [fs_open f]: the content
    of [f], or [None] when the stream fails to open. *)
Record FileSystem := mkFileSystem {
  fs_walk : cstring -> list DirEntry * option cstring;
  fs_open : cstring -> option cstring
}.

(** The lines that a [while (std::getline(file, line))] loop reads. *)
Fixpoint getlines (content : cstring) : list cstring :=
  match content with
  | [] => []
  | c :: rest =>
      if Ascii.eqb c LF then [] :: getlines rest
      else match getlines rest with
           | [] => [[c]]
           | l :: ls => (c :: l) :: ls
           end
  end.

Definition tolower (c : ascii) : ascii :=
  let n := N_of_ascii c in
  if ((65 <=? n) && (n <=? 90))%N then ascii_of_N (n + 32) else c.

(** ** File scanner: [scan_directory] *)

Definition scan_directory (self : TextExtractor) (fs : FileSystem)
    (directory_path : cstring) : list cstring * list cstring :=
  let (entries, failure) := fs_walk fs directory_path in
  let files :=
    flat_map (fun entry =>
      if entry_is_regular_file entry then
        let extension := map tolower (entry_extension entry) in
        if bool_decide (extension ∈ supported_extensions self)
        then [entry_path entry] else []
      else []) entries in
  (files,
   match failure with
   | Some what => [lit "Error scanning directory: " ++ what]
   | None => []
   end).

(** ** Extraction engine: [extract_from_file] *)

Section Extraction.

Variable self : TextExtractor.

(** The body of the innermost loop, for one match of one pattern. *)
Definition chunk_of_match (path : cstring) (line_no : Z) (line : cstring)
    (m : match_result) : list TextChunk :=
  let txt := clean_text (sub_str line m 1) in
  if min_text_length self <=? str_length txt then
    [ {| text := txt;
         file_path := path;
         line_number := line_no;
         column_start := wrap (position line m 1);
         column_end := wrap (position line m 1 + length_of line m 1);
         context := line;
         original_text := mr_str m |} ]
  else [].

Definition chunks_of_pattern (path : cstring) (line_no : Z) (line : cstring)
    (pattern : regex) : list TextChunk :=
  flat_map (chunk_of_match path line_no line) (regex_iterator pattern line).

Definition chunks_of_line (path : cstring) (line_no : Z) (line : cstring)
  : list TextChunk :=
  flat_map (chunks_of_pattern path line_no line) (text_patterns self).

(** The [while (std::getline(file, line))] loop; [line_no] is the value of
    [line_number] before the line is read. *)
Fixpoint read_lines (path : cstring) (line_no : Z) (lines : list cstring)
  : list TextChunk :=
  match lines with
  | [] => []
  | line :: lines' =>
      let line_no := wrap (line_no + 1) in
      chunks_of_line path line_no line ++ read_lines path line_no lines'
  end.

(** The chunks of a file and what the call writes to [std::cerr].  A
    stream that does not open returns at once; the [catch] clause is for
    exceptions, which this model does not raise. *)
Definition extract_from_file (fs : FileSystem) (path : cstring)
  : list TextChunk * list cstring :=
  match fs_open fs path with
  | None => ([], [])
  | Some content => (read_lines path 0 (getlines content), [])
  end.

End Extraction.

(** ** Result aggregator: [extract_texts] *)

(** [processing_time] is read off the clock and is left out. *)
Record ExtractionResult := mkExtractionResult {
  chunks : list TextChunk;
  total_files_processed : Z;
  total_texts_found : Z
}.

(** The loop over the scanned files: chunks and [std::cerr] lines. *)
Fixpoint extract_all (self : TextExtractor) (fs : FileSystem)
    (files : list cstring) : list TextChunk * list cstring :=
  match files with
  | [] => ([], [])
  | path :: files' =>
      let (file_chunks, log) := extract_from_file self fs path in
      let (rest, log') := extract_all self fs files' in
      (file_chunks ++ rest, log ++ log')
  end.

Definition extract_texts (fuel : nat) (self : TextExtractor) (fs : FileSystem)
    (directory_path : cstring) : option (ExtractionResult * list cstring) :=
  let (files, scan_log) := scan_directory self fs directory_path in
  let (all_chunks, log) := extract_all self fs files in
  split ← Splitter.split_into_chunks (max_chunk_size self) fuel all_chunks;
  Some ({| chunks := split;
           total_files_processed := Z.of_nat (length files);
           total_texts_found := Z.of_nat (length split) |},
        scan_log ++ log).

(** ** Translation store *)

(** *** [save_extracted_texts]: the master worksheet *)

(** One record of [master_translation.txt], as the source writes it, with
    the text that follows [Translation: ] as a parameter: the source writes
    none, the translator fills it in. *)
Definition record_text (id : Z) (file : cstring) (line : Z)
    (original translation : cstring) : cstring :=
  lit "ID: " ++ to_string id ++ [LF]
  ++ lit "File: " ++ file ++ [LF]
  ++ lit "Line: " ++ to_string line ++ [LF]
  ++ lit "Original: " ++ original ++ [LF]
  ++ lit "Translation: " ++ translation ++ [LF]
  ++ lit "---" ++ [LF; LF].

Definition master_header : cstring :=
  lit "=== MASTER TRANSLATION FILE ===" ++ [LF; LF].

(** The loop [for (size_t i = 0; i < chunks.size(); i++)]; [i] is the index
    of the first chunk of [cs]. *)
Fixpoint master_records (i : Z) (cs : list TextChunk) : cstring :=
  match cs with
  | [] => []
  | c :: cs' =>
      record_text (wrap (i + 1)) (file_path c) (line_number c) (text c) []
      ++ master_records (wrap (i + 1)) cs'
  end.

(** The content written to [master_translation.txt]. *)
Definition master_translation (cs : list TextChunk) : cstring :=
  master_header ++ master_records 0 cs.

(** *** [apply_translations] *)

(** The local variables of the parsing loop. *)
Record parse_state := mkParseState {
  current_id : cstring;
  current_original : cstring;
  current_translation : cstring;
  translations : gmap cstring cstring
}.

Definition initial_parse_state : parse_state :=
  mkParseState [] [] [] ∅.

(** The body of the [while (std::getline(file, line))] loop. *)
Definition parse_line (st : parse_state) (line : cstring) : parse_state :=
  if starts_with (lit "ID: ") line then
    mkParseState (substr_from line 4) (current_original st)
                 (current_translation st) (translations st)
  else if starts_with (lit "Original: ") line then
    mkParseState (current_id st) (substr_from line 10)
                 (current_translation st) (translations st)
  else if starts_with (lit "Translation: ") line then
    let tr := substr_from line 13 in
    if negb (bool_decide (tr = [])) && negb (bool_decide (tr = lit " ")) then
      mkParseState (current_id st) (current_original st) tr
                   (<[current_original st := tr]> (translations st))
    else
      mkParseState (current_id st) (current_original st) tr (translations st)
  else st.

Definition parse_lines (st : parse_state) (lines : list cstring) : parse_state :=
  fold_left parse_line lines st.

(** The mapping built from the worksheet (the source prints its entries to
    [std::cout], in the unspecified order of the hash map), and the lines
    written to [std::cerr]; no mapping when the file does not open. *)
Definition apply_translations (fs : FileSystem) (translation_file : cstring)
  : option (gmap cstring cstring) * list cstring :=
  match fs_open fs translation_file with
  | None => (None, [lit "Could not open translation file: " ++ translation_file])
  | Some content =>
      (Some (translations (parse_lines initial_parse_state (getlines content))),
       [])
  end.

(** *** Worksheets as the translator returns them *)

(** The derived record of the data model: the fields of one worksheet
    record, [translation] being empty until filled in. *)
Record TranslationRecord := mkTranslationRecord {
  tr_id : Z;
  tr_file : cstring;
  tr_line : Z;
  tr_original : cstring;
  tr_translation : cstring
}.

Definition render_record (r : TranslationRecord) : cstring :=
  record_text (tr_id r) (tr_file r) (tr_line r) (tr_original r)
              (tr_translation r).

Definition worksheet (rs : list TranslationRecord) : cstring :=
  master_header ++ flat_map render_record rs.

(** A record is well formed when each field stays on its own line. *)
Definition single_line (s : cstring) : Prop := LF ∉ s.

Definition well_formed (r : TranslationRecord) : Prop :=
  single_line (tr_file r) ∧ single_line (tr_original r)
  ∧ single_line (tr_translation r).

(** A translation is a placeholder when it is empty or one blank. *)
Definition is_placeholder (t : cstring) : bool :=
  bool_decide (t = []) || bool_decide (t = lit " ").

Definition translated (r : TranslationRecord) : bool :=
  negb (is_placeholder (tr_translation r)).


(** ** Cuts of the splitting loop *)

(** What holds of every cut the loop makes. *)
Definition cut_ok (max_chunk_size : Z) (txt : cstring) (cut : Z * Z * bool) : Prop :=
  let '(start, end_, skipped) := cut in
  0 <= start < str_length txt
  /\ end_ = Splitter.cut_end max_chunk_size txt start
  /\ skipped = Splitter.skips_space txt end_
  /\ start <= end_ <= str_length txt
  /\ end_ - start <= max_chunk_size.

(** The text of the fragment of a cut, with its flag. *)
Definition cut_piece (txt : cstring) (cut : Z * Z * bool) : cstring * bool :=
  let '(start, end_, skipped) := cut in
  (take (Z.to_nat (end_ - start)) (drop (Z.to_nat start) txt), skipped).

(** What one input chunk contributes to the output of [split_into_chunks]:
    itself when within the bound, its fragments otherwise. *)
Definition pieces_of (max_chunk_size : Z) (fuel : nat) (chunk : TextChunk)
  : option (list TextChunk) :=
  if str_length (text chunk) <=? max_chunk_size then Some [chunk]
  else Splitter.split_loop max_chunk_size fuel chunk 0 0.

(** Fuel that outlasts the longest text. *)
Definition enough_fuel (fuel : nat) (chunks : list TextChunk) : Prop :=
  Forall (fun c => (length (text c) < fuel)%nat) chunks.

(** ** Sample inputs *)

Definition sample_chunk (s : string) : TextChunk :=
  mkTextChunk (lit s) (lit "a.txt") 1 0 0 [] [].

Definition sample_chunks : list TextChunk :=
  [sample_chunk "hello brave new world"; sample_chunk "short"].

(** A chunk of 120000 characters without a space. *)
Definition big_chunk : TextChunk :=
  mkTextChunk (replicate (Z.to_nat 120000) "a"%char) (lit "big.txt") 1 0 0 [] [].

(** ** The cleaner's substitutions, character by character *)

(** Replacing every backslash followed by [c] with [rep], left to right and
    without overlap: what [regex_replace] does with the regex of [c]. *)
Fixpoint replace_escape (c : ascii) (rep : cstring) (s : cstring) : cstring :=
  match s with
  | a :: ((b :: s'') as s') =>
      if Ascii.eqb backslash a && Ascii.eqb c b
      then rep ++ replace_escape c rep s''
      else a :: replace_escape c rep s'
  | _ => s
  end.

(** The characters that a backslash turns into an escape token. *)
Definition escape_chars : list ascii :=
  ["n"%char; "t"%char; "r"%char; dquote; squote; backslash].

(** What the cleaner puts for the escape of [c]. *)
Definition decoded (c : ascii) : ascii :=
  if Ascii.eqb c "n"%char then LF
  else if Ascii.eqb c "t"%char then TAB
  else if Ascii.eqb c "r"%char then CR
  else c.

(** Whether [s] holds a backslash followed by one of [escape_chars]. *)
Fixpoint has_escape_token (s : cstring) : bool :=
  match s with
  | a :: ((b :: _) as s') =>
      (Ascii.eqb backslash a && mem_char b escape_chars) || has_escape_token s'
  | _ => false
  end.

(** The five characters whose escape is decoded before the backslash's. *)
Definition early_escape_chars : list ascii :=
  ["n"%char; "t"%char; "r"%char; dquote; squote].

(** [s] does not begin with a character of [escape_chars]. *)
Definition head_not_escape (s : cstring) : Prop :=
  match s with
  | [] => True
  | b :: _ => b ∉ escape_chars
  end.

(** [s] does not begin with whitespace. *)
Definition no_leading_space (s : cstring) : Prop :=
  match s with
  | [] => True
  | c :: _ => isspace c = false
  end.

(** The line of scenario A: [name: ] followed by [Hello World] in double
    quotes. *)
Definition hello_quoted : cstring := [dquote] ++ lit "Hello World" ++ [dquote].
Definition hello_line : cstring := lit "name: " ++ hello_quoted.

(** A small file system: [a.txt] holds a line [x] and the line of scenario
    A; [gone.txt] is listed by the scan and cannot be opened. *)
Definition sample_content : cstring := lit "x" ++ [LF] ++ hello_line ++ [LF].

Definition sample_fs : FileSystem :=
  mkFileSystem
    (fun _ => ([ mkDirEntry (lit "gone.txt") true (lit ".txt");
                 mkDirEntry (lit "sub") false [];
                 mkDirEntry (lit "a.txt") true (lit ".txt");
                 mkDirEntry (lit "a.bin") true (lit ".bin") ], None))
    (fun p => if bool_decide (p = lit "a.txt") then Some sample_content else None).

(** ** Invariants of the matcher *)

(** Every recorded group span lies in the line, up to [hi], and is not
    reversed. *)
Definition caps_ok (hi : Z) (caps : list (nat * (Z * Z))) : Prop :=
  Forall (fun cap : nat * (Z * Z) =>
            0 <= fst (snd cap) <= snd (snd cap) /\ snd (snd cap) <= hi) caps.

(** A matcher state within a line of [hi] characters. *)
Definition state_ok (hi : Z) (st : mstate) : Prop :=
  0 <= m_pos st
  /\ m_pos st + Z.of_nat (length (m_rest st)) = hi
  /\ caps_ok (m_pos st) (m_caps st).

(** A match within a line of [hi] characters. *)
Definition match_ok (hi : Z) (m : match_result) : Prop :=
  0 <= mr_first m <= mr_second m
  /\ mr_second m + Z.of_nat (length (mr_suffix m)) = hi
  /\ caps_ok hi (mr_caps m).

(** A matcher step keeps the state within the line and does not move back. *)
Definition step_ok (hi : Z) (step : mstate -> list mstate) : Prop :=
  forall st st', state_ok hi st -> In st' (step st) ->
                 state_ok hi st' /\ m_pos st <= m_pos st'.

(** ** Worksheets, record by record *)

(** The lines of a rendered record. *)
Definition record_lines (r : TranslationRecord) : list cstring :=
  [ lit "ID: " ++ to_string (tr_id r);
    lit "File: " ++ tr_file r;
    lit "Line: " ++ to_string (tr_line r);
    lit "Original: " ++ tr_original r;
    lit "Translation: " ++ tr_translation r;
    lit "---";
    [] ].

(** What one record does to the mapping: a translated record stores its
    translation under its original, replacing an earlier entry. *)
Definition store_record (m : gmap cstring cstring) (r : TranslationRecord)
  : gmap cstring cstring :=
  if translated r then <[tr_original r := tr_translation r]> m else m.

Definition store_records (rs : list TranslationRecord) : gmap cstring cstring :=
  fold_left store_record rs ∅.




Definition worksheet_fs (content : cstring) : FileSystem :=
  mkFileSystem (fun _ => ([], None)) (fun _ => Some content).

(** Two records with different originals; only the first is translated. *)
Definition sample_records : list TranslationRecord :=
  [ mkTranslationRecord 1 (lit "a.txt") 2 (lit "Hello World") (lit "Hallo Welt");
    mkTranslationRecord 2 (lit "a.txt") 5 (lit "Good night") [] ].

(** The records that [save_extracted_texts] writes for the chunks [cs],
    numbered after [i], each with an empty translation. *)
Fixpoint records_of_chunks (i : Z) (cs : list TextChunk) : list TranslationRecord :=
  match cs with
  | [] => []
  | c :: cs' =>
      mkTranslationRecord (wrap (i + 1)) (file_path c) (line_number c) (text c) []
        :: records_of_chunks (wrap (i + 1)) cs'
  end.

(** ** The extension list *)

(** [set_supported_extensions]: the extractor with its list replaced. *)
Definition set_supported_extensions (self : TextExtractor)
    (extensions : list cstring) : TextExtractor :=
  {| text_patterns := text_patterns self;
     supported_extensions := extensions;
     min_text_length := min_text_length self;
     max_chunk_size := max_chunk_size self |}.

(** [get_supported_extensions] *)
Definition get_supported_extensions (self : TextExtractor) : list cstring :=
  supported_extensions self.

(** An upper-case letter of ASCII. *)
Definition is_upper (c : ascii) : bool :=
  let n := N_of_ascii c in ((65 <=? n) && (n <=? 90))%N.

(** ** More on the worksheet parser *)

(** The lines that [apply_translations] reads a value from, apart from the
    identifiers. *)
Definition is_original_line (line : cstring) : bool :=
  starts_with (lit "Original: ") line.

Definition is_translation_line (line : cstring) : bool :=
  starts_with (lit "Translation: ") line.

Definition relevant_line (line : cstring) : bool :=
  is_original_line line || is_translation_line line.

(** Two parser states that differ at most in [current_id]. *)
Definition same_but_id (st1 st2 : parse_state) : Prop :=
  current_original st1 = current_original st2
  /\ current_translation st1 = current_translation st2
  /\ translations st1 = translations st2.

(** What the parsing loop keeps true of its state, for the lines [lines] of
    the file: the current original, when not empty, and every key come from
    an [Original: ] line, and every value is the non-placeholder value of a
    [Translation: ] line. *)
Definition original_seen (lines : list cstring) (o : cstring) : Prop :=
  o = [] \/ lit "Original: " ++ o ∈ lines.

Definition parse_invariant (lines : list cstring) (st : parse_state) : Prop :=
  original_seen lines (current_original st)
  /\ forall k v, translations st !! k = Some v ->
       original_seen lines k
       /\ is_placeholder v = false
       /\ lit "Translation: " ++ v ∈ lines.

(** ** [save_extracted_texts]: the groups *)

(** The loop [grouped_chunks[chunk.file_path].push_back(chunk)]. *)
Definition group_chunks (cs : list TextChunk) : gmap cstring (list TextChunk) :=
  fold_left (fun grouped chunk =>
               <[file_path chunk :=
                   default [] (grouped !! file_path chunk) ++ [chunk]]> grouped)
            cs ∅.

(** The content written for one group, to the file named after its path. *)
Definition extracted_block (chunk : TextChunk) : cstring :=
  lit "Line " ++ to_string (line_number chunk) ++ lit ":" ++ [LF]
  ++ lit "Context: " ++ context chunk ++ [LF]
  ++ lit "Text: " ++ text chunk ++ [LF]
  ++ lit "Original: " ++ original_text chunk ++ [LF]
  ++ lit "---" ++ [LF; LF].

Definition extracted_text (path : cstring) (cs : list TextChunk) : cstring :=
  lit "=== EXTRACTED TEXTS FROM: " ++ path ++ lit " ===" ++ [LF; LF]
  ++ flat_map extracted_block cs.

(** ** What a match reads *)

(** The matcher went from [st] to [st'] by reading characters of the
    line, as many as the index moved. *)
Definition consumes (st st' : mstate) : Prop :=
  exists consumed,
    m_rest st = consumed ++ m_rest st'
    /\ Z.of_nat (length consumed) = m_pos st' - m_pos st.

(** The text of the match, followed by its suffix, ends the line. *)
Definition infix_match (line : cstring) (m : match_result) : Prop :=
  exists pre, line = pre ++ mr_str m ++ mr_suffix m.

(** * Properties *)

(** ** Arithmetic on [size_t] *)

Lemma wrap_small z : 0 <= z < size_modulus -> wrap z = z.
Proof. intros H. unfold wrap. apply Z.mod_small. exact H. Qed.

Lemma str_length_nonneg (s : cstring) : 0 <= str_length s.
Proof. unfold str_length. lia. Qed.

Lemma string_bound_lt_modulus : string_size_bound < npos.
Proof. reflexivity. Qed.

(** Closes [x ∉ l] for a closed list [l] and a closed [x]. *)
Ltac solve_not_elem :=
  vm_compute; let H := fresh in
  intros H; repeat (apply elem_of_cons in H as [H|H]; [discriminate H|]);
  inversion H.

Ltac size_consts :=
  change size_modulus with 18446744073709551616 in *;
  change npos with 18446744073709551615 in *;
  change string_size_bound with 9223372036854775808 in *.

(** ** [rfind] *)

Lemma rfind_below_range s c n :
  rfind_below s c n = npos \/ 0 <= rfind_below s c n < Z.of_nat n.
Proof.
  induction n as [|k IH]; simpl.
  - left. reflexivity.
  - destruct (Ascii.eqb (nth k s "000"%char) c).
    + right. lia.
    + destruct IH as [IH|IH]; [left; exact IH | right; lia].
Qed.

Lemma rfind_below_found s c n :
  Z.of_nat n < npos ->
  rfind_below s c n <> npos ->
  0 <= rfind_below s c n < Z.of_nat n
  /\ nth (Z.to_nat (rfind_below s c n)) s "000"%char = c
  /\ forall k : nat, (Z.to_nat (rfind_below s c n) < k < n)%nat ->
                     nth k s "000"%char <> c.
Proof.
  induction n as [|k IH]; simpl; intros Hn Hr.
  - congruence.
  - destruct (Ascii.eqb (nth k s "000"%char) c) eqn:E.
    + apply Ascii.eqb_eq in E. rewrite Nat2Z.id.
      split; [lia|]. split; [exact E|]. intros j Hj. lia.
    + destruct IH as (Hb & Hc & Hl); [lia | exact Hr |].
      split; [lia|]. split; [exact Hc|].
      intros j Hj. destruct (Nat.eq_dec j k) as [->|Hne].
      * apply Ascii.eqb_neq. exact E.
      * apply Hl. lia.
Qed.

Lemma rfind_below_none s c n :
  rfind_below s c n = npos -> Z.of_nat n < npos ->
  forall k : nat, (k < n)%nat -> nth k s "000"%char <> c.
Proof.
  induction n as [|m IH]; simpl; intros Hr Hn k Hk; [lia|].
  destruct (Ascii.eqb (nth m s "000"%char) c) eqn:E.
  - lia.
  - destruct (Nat.eq_dec k m) as [->|Hne].
    + apply Ascii.eqb_neq. exact E.
    + apply IH; [exact Hr | lia | lia].
Qed.

(** [rfind] returns [npos] exactly when no index up to [pos] holds [c], and
    otherwise the greatest such index. *)
Lemma rfind_spec s c pos :
  fits_string s -> 0 <= pos ->
  let r := rfind s c pos in
  (r = npos /\ forall p, 0 <= p <= pos -> p < str_length s -> char_at s p <> c)
  \/ (0 <= r <= pos /\ r < str_length s /\ char_at s r = c
      /\ forall p, r < p <= pos -> p < str_length s -> char_at s p <> c).
Proof.
  unfold fits_string, rfind, char_at. intros Hfit Hpos.
  set (n := Z.to_nat (Z.min (pos + 1) (str_length s))).
  pose proof (str_length_nonneg s) as Hlen.
  assert (Hn : Z.of_nat n < npos) by (subst n; size_consts; lia).
  cbv zeta.
  destruct (Z.eq_dec (rfind_below s c n) npos) as [E|E].
  - left. split; [exact E|]. intros p Hp Hpl.
    apply (rfind_below_none s c n E Hn). subst n. lia.
  - right. destruct (rfind_below_found s c n Hn E) as (Hb & Hc & Hl).
    split; [subst n; lia|]. split; [subst n; lia|]. split; [exact Hc|].
    intros p Hp Hpl. apply Hl. subst n. lia.
Qed.

(** ** One iteration of the splitting loop *)

Section CutFacts.

Variables (max_chunk_size : Z) (txt : cstring) (start : Z).
Hypothesis Hfit : fits_string txt.
Hypothesis Hmax : 0 <= max_chunk_size < str_length txt.
Hypothesis Hstart : 0 <= start < str_length txt.

Local Abbreviation hard := (Z.min (start + max_chunk_size) (str_length txt)).

Lemma hard_boundary_no_wrap : wrap (start + max_chunk_size) = start + max_chunk_size.
Proof.
  apply wrap_small. unfold fits_string in Hfit. size_consts. lia.
Qed.

Lemma cut_end_cases :
  let e := Splitter.cut_end max_chunk_size txt start in
  (e = hard /\ (hard < str_length txt ->
                forall p, start < p <= hard -> char_at txt p <> " "%char))
  \/ (hard < str_length txt /\ start < e <= hard /\ char_at txt e = " "%char
      /\ forall p, e < p <= hard -> char_at txt p <> " "%char).
Proof.
  unfold Splitter.cut_end. rewrite hard_boundary_no_wrap. cbv zeta.
  destruct (hard <? str_length txt) eqn:Hlt.
  - apply Z.ltb_lt in Hlt.
    destruct (rfind_spec txt " "%char hard Hfit) as [(Hr & Hnone)|(Hr & Hrl & Hc & Hlast)];
      [lia | |].
    + rewrite Hr, Z.eqb_refl. simpl. left. split; [reflexivity|].
      intros _ p Hp. apply Hnone; lia.
    + assert (Hne : (rfind txt " "%char hard =? npos) = false).
      { apply Z.eqb_neq. unfold fits_string in Hfit. size_consts. lia. }
      rewrite Hne. simpl.
      destruct (rfind txt " "%char hard >? start) eqn:Hgt.
      * right. apply Z.gtb_lt in Hgt. repeat split; try lia; try exact Hc.
        intros p Hp. apply Hlast; lia.
      * left. split; [reflexivity|]. intros _ p Hp.
        assert (rfind txt " "%char hard <= start).
        { destruct (Z.gtb_spec (rfind txt " "%char hard) start); [discriminate | lia]. }
        apply Hlast; lia.
  - left. split; [reflexivity|]. apply Z.ltb_ge in Hlt. lia.
Qed.

Lemma cut_end_bounds :
  let e := Splitter.cut_end max_chunk_size txt start in
  start <= e <= str_length txt /\ e - start <= max_chunk_size
  /\ (1 <= max_chunk_size -> start < e).
Proof.
  cbv zeta. destruct cut_end_cases as [(He & _)|(Hh & He & _)];
    [rewrite He|]; lia.
Qed.

(** A cut before the end of the text lands on a space whenever the
    searched span, the indices after [start] up to the hard boundary,
    holds one. *)
Lemma cut_end_on_space p :
  Splitter.cut_end max_chunk_size txt start < str_length txt ->
  start < p <= start + max_chunk_size -> char_at txt p = " "%char ->
  char_at txt (Splitter.cut_end max_chunk_size txt start) = " "%char.
Proof.
  intros He Hp Hc.
  destruct cut_end_cases as [(Heq & Hnone)|(_ & _ & Hsp & _)]; [|exact Hsp].
  exfalso. rewrite Heq in He. apply (Hnone He p); [lia | exact Hc].
Qed.

Lemma next_start_bounds :
  let e := Splitter.cut_end max_chunk_size txt start in
  let s' := Splitter.next_start txt e in
  e <= s' <= str_length txt
  /\ s' = (if Splitter.skips_space txt e then e + 1 else e).
Proof.
  cbv zeta. pose proof cut_end_bounds as (Hb & _).
  unfold Splitter.next_start, Splitter.skips_space.
  destruct (Splitter.cut_end max_chunk_size txt start <? str_length txt) eqn:Hlt; simpl.
  - apply Z.ltb_lt in Hlt.
    destruct (Ascii.eqb _ _).
    + rewrite wrap_small; [lia|]. unfold fits_string in Hfit. size_consts. lia.
    + lia.
  - lia.
Qed.

Lemma fragment_text chunk chunk_id :
  text chunk = txt ->
  let e := Splitter.cut_end max_chunk_size txt start in
  text (Splitter.fragment chunk start e chunk_id)
  = take (Z.to_nat (e - start)) (drop (Z.to_nat start) txt).
Proof.
  intros Ht. cbv zeta. simpl. rewrite Ht. unfold substr.
  pose proof cut_end_bounds as (Hb & _).
  rewrite wrap_small; [reflexivity|]. unfold fits_string in Hfit. size_consts. lia.
Qed.

Lemma fragment_length chunk chunk_id :
  text chunk = txt ->
  let e := Splitter.cut_end max_chunk_size txt start in
  str_length (text (Splitter.fragment chunk start e chunk_id)) = e - start.
Proof.
  intros Ht. cbv zeta. rewrite (fragment_text chunk chunk_id Ht).
  pose proof cut_end_bounds as (Hb & _).
  unfold str_length in *. rewrite length_take, length_drop. lia.
Qed.

End CutFacts.

(** ** The splitting loop *)

Lemma split_loop_cuts max_chunk_size fuel chunk start chunk_id :
  Splitter.split_loop max_chunk_size fuel chunk start chunk_id
  = Splitter.fragments_of_cuts chunk chunk_id
      <$> Splitter.split_cuts max_chunk_size fuel (text chunk) start.
Proof.
  revert start chunk_id. induction fuel as [|fuel IH]; intros start chunk_id; simpl.
  - reflexivity.
  - destruct (start <? str_length (text chunk)); [|reflexivity].
    rewrite IH.
    destruct (Splitter.split_cuts max_chunk_size fuel (text chunk) _); reflexivity.
Qed.

Lemma fragments_of_cuts_length chunk chunk_id cuts :
  length (Splitter.fragments_of_cuts chunk chunk_id cuts) = length cuts.
Proof.
  revert chunk_id. induction cuts as [|[[s e] b] cuts IH]; intros chunk_id; simpl.
  - reflexivity.
  - rewrite IH. reflexivity.
Qed.

(** More fuel does not change a result. *)
Lemma split_cuts_fuel_mono max_chunk_size txt fuel fuel' start cuts :
  Splitter.split_cuts max_chunk_size fuel txt start = Some cuts ->
  (fuel <= fuel')%nat ->
  Splitter.split_cuts max_chunk_size fuel' txt start = Some cuts.
Proof.
  revert fuel' start cuts.
  induction fuel as [|fuel IH]; intros fuel' start cuts H Hle; simpl in H.
  - discriminate.
  - destruct fuel' as [|fuel']; [lia|]. simpl.
    destruct (start <? str_length txt); [|exact H].
    destruct (Splitter.split_cuts max_chunk_size fuel txt _) as [rest|] eqn:E;
      [|discriminate].
    rewrite (IH fuel' _ rest E); [exact H | lia].
Qed.

(** With a bound of at least one character every iteration moves [start]
    forward, so the loop ends within [length - start] iterations. *)
Lemma split_cuts_terminates max_chunk_size txt :
  fits_string txt -> 1 <= max_chunk_size < str_length txt ->
  forall (n : nat) fuel start,
    0 <= start <= str_length txt ->
    str_length txt - start <= Z.of_nat n -> (n < fuel)%nat ->
    exists cuts, Splitter.split_cuts max_chunk_size fuel txt start = Some cuts.
Proof.
  intros Hfit Hmax.
  induction n as [|n IH]; intros fuel start Hs Hn Hf;
    (destruct fuel as [|fuel]; [lia|]); simpl.
  - destruct (Z.ltb_spec start (str_length txt)); [lia|]. eexists; reflexivity.
  - destruct (Z.ltb_spec start (str_length txt)) as [Hlt|Hge];
      [|eexists; reflexivity].
    pose proof (cut_end_bounds max_chunk_size txt start Hfit ltac:(lia) ltac:(lia))
      as (Hb & _ & Hprog).
    pose proof (next_start_bounds max_chunk_size txt start Hfit ltac:(lia) ltac:(lia))
      as (Hnb & _).
    cbv zeta in *. specialize (Hprog ltac:(lia)).
    destruct (IH fuel (Splitter.next_start txt
                 (Splitter.cut_end max_chunk_size txt start)))
      as [rest Hrest]; [lia | lia | lia |].
    rewrite Hrest. eexists; reflexivity.
Qed.

Lemma split_cuts_ok max_chunk_size txt :
  fits_string txt -> 0 <= max_chunk_size < str_length txt ->
  forall fuel start cuts,
    0 <= start <= str_length txt ->
    Splitter.split_cuts max_chunk_size fuel txt start = Some cuts ->
    Forall (cut_ok max_chunk_size txt) cuts.
Proof.
  intros Hfit Hmax.
  induction fuel as [|fuel IH]; intros start cuts Hs H; simpl in H; [discriminate|].
  destruct (Z.ltb_spec start (str_length txt)) as [Hlt|Hge].
  - destruct (Splitter.split_cuts max_chunk_size fuel txt _) as [rest|] eqn:E;
      [|discriminate].
    injection H as <-.
    pose proof (cut_end_bounds max_chunk_size txt start Hfit Hmax ltac:(lia))
      as (Hb & Hsz & _).
    pose proof (next_start_bounds max_chunk_size txt start Hfit Hmax ltac:(lia))
      as (Hnb & _).
    cbv zeta in *. constructor.
    + unfold cut_ok. repeat split; try reflexivity; lia.
    + eapply IH; [|exact E]. lia.
  - injection H as <-. constructor.
Qed.

Lemma drop_char_at (s : cstring) i :
  0 <= i < str_length s ->
  drop (Z.to_nat i) s = char_at s i :: drop (Z.to_nat (i + 1)) s.
Proof.
  intros Hi. unfold char_at, str_length in *.
  replace (Z.to_nat (i + 1)) with (S (Z.to_nat i)) by lia.
  apply drop_S.
  destruct (nth_lookup_or_length s (Z.to_nat i) "000"%char) as [H|H];
    [exact H | lia].
Qed.

(** The fragments and the spaces skipped between them make up the text from
    [start] on. *)
Lemma split_cuts_rejoin max_chunk_size txt :
  fits_string txt -> 0 <= max_chunk_size < str_length txt ->
  forall fuel start cuts,
    0 <= start <= str_length txt ->
    Splitter.split_cuts max_chunk_size fuel txt start = Some cuts ->
    Splitter.rejoin (map (cut_piece txt) cuts) = drop (Z.to_nat start) txt.
Proof.
  intros Hfit Hmax.
  induction fuel as [|fuel IH]; intros start cuts Hs H; simpl in H; [discriminate|].
  destruct (Z.ltb_spec start (str_length txt)) as [Hlt|Hge].
  - destruct (Splitter.split_cuts max_chunk_size fuel txt _) as [rest|] eqn:E;
      [|discriminate].
    injection H as <-.
    pose proof (cut_end_bounds max_chunk_size txt start Hfit Hmax ltac:(lia))
      as (Hb & Hsz & _).
    pose proof (next_start_bounds max_chunk_size txt start Hfit Hmax ltac:(lia))
      as (Hnb & Hnext).
    cbv zeta in *.
    set (e := Splitter.cut_end max_chunk_size txt start) in *.
    simpl. unfold Splitter.rejoin in *. simpl.
    rewrite (IH (Splitter.next_start txt e) rest ltac:(lia) E), Hnext.
    rewrite <- (take_drop (Z.to_nat (e - start)) (drop (Z.to_nat start) txt)) at 2.
    rewrite <- app_assoc. f_equal. rewrite drop_drop.
    replace (Z.to_nat start + Z.to_nat (e - start))%nat with (Z.to_nat e) by lia.
    destruct (Splitter.skips_space txt e) eqn:Hsk; [|reflexivity].
    unfold Splitter.skips_space in Hsk. apply andb_true_iff in Hsk as [Hlt' Hsp].
    apply Z.ltb_lt in Hlt'. apply Ascii.eqb_eq in Hsp.
    rewrite (drop_char_at txt e ltac:(lia)), Hsp. reflexivity.
  - injection H as <-. simpl. unfold str_length in *.
    rewrite drop_ge; [reflexivity | lia].
Qed.


(** ** [split_into_chunks] *)

Lemma split_into_chunks_Some max_chunk_size fuel chunks result :
  Splitter.split_into_chunks max_chunk_size fuel chunks = Some result ->
  (forall c, c ∈ chunks ->
     exists piece, pieces_of max_chunk_size fuel c = Some piece
                   /\ forall f, f ∈ piece -> f ∈ result)
  /\ (forall f, f ∈ result ->
        exists c piece, c ∈ chunks /\ pieces_of max_chunk_size fuel c = Some piece
                        /\ f ∈ piece).
Proof.
  revert result. induction chunks as [|chunk chunks IH]; intros result H; simpl in H.
  - injection H as <-. split.
    + intros c Hc. inversion Hc.
    + intros f Hf. inversion Hf.
  - assert (Hsplit : exists piece rest,
               pieces_of max_chunk_size fuel chunk = Some piece
               /\ Splitter.split_into_chunks max_chunk_size fuel chunks = Some rest
               /\ result = piece ++ rest).
    { unfold pieces_of.
      destruct (str_length (text chunk) <=? max_chunk_size).
      - destruct (Splitter.split_into_chunks max_chunk_size fuel chunks) as [rest|];
          [|discriminate].
        injection H as <-. exists [chunk], rest. auto.
      - destruct (Splitter.split_loop max_chunk_size fuel chunk 0 0) as [frags|];
          [|discriminate].
        destruct (Splitter.split_into_chunks max_chunk_size fuel chunks) as [rest|];
          [|discriminate].
        injection H as <-. exists frags, rest. auto. }
    destruct Hsplit as (piece & rest & Hp & Hr & ->).
    destruct (IH rest Hr) as (IH1 & IH2). split.
    + intros c Hc. apply elem_of_cons in Hc as [->|Hc].
      * exists piece. split; [exact Hp|]. intros f Hf. apply elem_of_app. auto.
      * destruct (IH1 c Hc) as (pc & Hpc & Hin). exists pc. split; [exact Hpc|].
        intros f Hf. apply elem_of_app. auto.
    + intros f Hf. apply elem_of_app in Hf as [Hf|Hf].
      * exists chunk, piece. split; [apply list_elem_of_here|]. auto.
      * destruct (IH2 f Hf) as (c & pc & Hc & Hpc & Hin).
        exists c, pc. split; [apply list_elem_of_further; exact Hc|]. auto.
Qed.

Lemma split_into_chunks_terminates max_chunk_size chunks fuel :
  1 <= max_chunk_size ->
  Forall (fun c => fits_string (text c)) chunks ->
  enough_fuel fuel chunks ->
  exists result, Splitter.split_into_chunks max_chunk_size fuel chunks = Some result.
Proof.
  intros Hmax Hfit Hfuel. unfold enough_fuel in Hfuel.
  induction chunks as [|chunk chunks IH]; simpl.
  - eexists; reflexivity.
  - inversion Hfit as [|? ? Hf1 Hf2]; subst. inversion Hfuel as [|? ? Hn1 Hn2]; subst.
    destruct (IH Hf2 Hn2) as [rest Hrest]. rewrite Hrest.
    destruct (Z.leb_spec (str_length (text chunk)) max_chunk_size) as [Hle|Hgt].
    + eexists; reflexivity.
    + rewrite split_loop_cuts.
      destruct (split_cuts_terminates max_chunk_size (text chunk) Hf1 ltac:(lia)
                  (length (text chunk)) fuel 0) as [cuts Hcuts];
        [pose proof (str_length_nonneg (text chunk)); lia
        | unfold str_length; lia | exact Hn1 |].
      rewrite Hcuts. eexists; reflexivity.
Qed.

Lemma fragments_of_cuts_elem chunk chunk_id cuts f :
  f ∈ Splitter.fragments_of_cuts chunk chunk_id cuts ->
  exists start end_ skipped id,
    (start, end_, skipped) ∈ cuts /\ f = Splitter.fragment chunk start end_ id.
Proof.
  revert chunk_id. induction cuts as [|[[s e] b] cuts IH]; intros chunk_id Hf; simpl in Hf.
  - inversion Hf.
  - apply elem_of_cons in Hf as [->|Hf].
    + exists s, e, b, chunk_id. split; [apply list_elem_of_here | reflexivity].
    + destruct (IH _ Hf) as (s' & e' & b' & id & Hin & ->).
      exists s', e', b', id. split; [apply list_elem_of_further; exact Hin | reflexivity].
Qed.

(** C1. Every chunk that [split_into_chunks] returns has a text of at most
    [max_chunk_size] characters; an input chunk already within the bound is
    in the output as it is; and a cut made before the end of a text lands on
    a space whenever the span searched, the indices strictly after the
    start of the fragment up to the hard boundary, holds a space. *)
Theorem split_into_chunks_size_bound max_chunk_size chunks :
  0 <= max_chunk_size ->
  Forall (fun c => fits_string (text c)) chunks ->
  (1 <= max_chunk_size -> forall fuel, enough_fuel fuel chunks ->
     is_Some (Splitter.split_into_chunks max_chunk_size fuel chunks))
  /\ forall fuel result,
       Splitter.split_into_chunks max_chunk_size fuel chunks = Some result ->
       (forall f, f ∈ result -> str_length (text f) <= max_chunk_size)
       /\ (forall c, c ∈ chunks -> str_length (text c) <= max_chunk_size ->
             c ∈ result)
       /\ (forall c, c ∈ chunks -> max_chunk_size < str_length (text c) ->
             exists cuts,
               Splitter.split_cuts max_chunk_size fuel (text c) 0 = Some cuts
               /\ (forall f, f ∈ Splitter.fragments_of_cuts c 0 cuts -> f ∈ result)
               /\ forall start end_ skipped p,
                    (start, end_, skipped) ∈ cuts ->
                    end_ < str_length (text c) ->
                    start < p <= start + max_chunk_size ->
                    char_at (text c) p = " "%char ->
                    char_at (text c) end_ = " "%char).
Proof.
  intros Hmax Hfit. split.
  - intros H1 fuel Hfuel.
    destruct (split_into_chunks_terminates max_chunk_size chunks fuel H1 Hfit Hfuel)
      as [result ->]. eexists; reflexivity.
  - intros fuel result Hres.
    destruct (split_into_chunks_Some _ _ _ _ Hres) as (Hin & Hout).
    rewrite Forall_forall in Hfit. split; [|split].
    + intros f Hf. destruct (Hout f Hf) as (c & piece & Hc & Hp & Hfp).
      unfold pieces_of in Hp.
      destruct (Z.leb_spec (str_length (text c)) max_chunk_size) as [Hle|Hgt].
      * injection Hp as <-. apply list_elem_of_singleton in Hfp as ->. exact Hle.
      * rewrite split_loop_cuts in Hp.
        destruct (Splitter.split_cuts max_chunk_size fuel (text c) 0) as [cuts|] eqn:E;
          [|discriminate].
        injection Hp as <-.
        pose proof (split_cuts_ok max_chunk_size (text c) (Hfit c Hc) ltac:(lia)
                      fuel 0 cuts ltac:(lia) E) as Hok.
        rewrite Forall_forall in Hok.
        destruct (fragments_of_cuts_elem _ _ _ _ Hfp) as (s & e & b & id & Hcut & ->).
        destruct (Hok _ Hcut) as (Hs & He & _ & _ & Hsz). subst e.
        rewrite (fragment_length max_chunk_size (text c) s (Hfit c Hc)
                   ltac:(lia) Hs c id eq_refl).
        exact Hsz.
    + intros c Hc Hle. destruct (Hin c Hc) as (piece & Hp & Hsub).
      unfold pieces_of in Hp. apply Z.leb_le in Hle. rewrite Hle in Hp.
      injection Hp as <-. apply Hsub. apply list_elem_of_here.
    + intros c Hc Hgt. destruct (Hin c Hc) as (piece & Hp & Hsub).
      unfold pieces_of in Hp.
      destruct (Z.leb_spec (str_length (text c)) max_chunk_size) as [Hle|_]; [lia|].
      rewrite split_loop_cuts in Hp.
      destruct (Splitter.split_cuts max_chunk_size fuel (text c) 0) as [cuts|] eqn:E;
        [|discriminate].
      injection Hp as <-. exists cuts. split; [reflexivity|]. split; [exact Hsub|].
      intros s e b p Hcut He Hp Hsp.
      pose proof (split_cuts_ok max_chunk_size (text c) (Hfit c Hc) ltac:(lia)
                    fuel 0 cuts ltac:(lia) E) as Hok.
      rewrite Forall_forall in Hok.
      destruct (Hok _ Hcut) as (Hs & Heq & _). subst e.
      apply (cut_end_on_space max_chunk_size (text c) s (Hfit c Hc) ltac:(lia) Hs p);
        assumption.
Qed.

Lemma split_into_chunks_size_bound_witness :
  0 <= 10
  /\ Forall (fun c => fits_string (text c)) sample_chunks
  /\ Forall (fun f => str_length (text f) <= 10)
        (default [] (Splitter.split_into_chunks 10 22%nat sample_chunks)).
Proof.
  assert (H0 : 0 <= 10) by lia.
  assert (Hf : Forall (fun c => fits_string (text c)) sample_chunks)
    by (repeat constructor; vm_compute; reflexivity).
  split; [exact H0|]. split; [exact Hf|].
  destruct (Splitter.split_into_chunks 10 22%nat sample_chunks) as [result|] eqn:E;
    [|constructor].
  apply Forall_forall.
  exact (proj1 (proj2 (split_into_chunks_size_bound 10 sample_chunks H0 Hf)
                  22%nat result E)).
Defined.

(** ** Round trip of a split chunk *)

Lemma fragments_of_cuts_pieces max_chunk_size chunk cuts :
  fits_string (text chunk) ->
  0 <= max_chunk_size < str_length (text chunk) ->
  Forall (cut_ok max_chunk_size (text chunk)) cuts ->
  forall chunk_id,
    zip (map text (Splitter.fragments_of_cuts chunk chunk_id cuts))
        (map (fun cut : Z * Z * bool => snd cut) cuts)
    = map (cut_piece (text chunk)) cuts.
Proof.
  intros Hfit Hmax Hok.
  induction Hok as [|[[s e] b] cuts Hcut Hok IH]; intros chunk_id.
  - reflexivity.
  - destruct Hcut as (Hs & He & _). subst e.
    cbn [Splitter.fragments_of_cuts map zip zip_with cut_piece snd].
    rewrite (fragment_text max_chunk_size (text chunk) s Hfit Hmax Hs chunk chunk_id eq_refl).
    rewrite IH. reflexivity.
Qed.

(** C5. For a chunk that [split_into_chunks] splits, putting the texts of
    the fragments together in order, with one space after each fragment
    whose cut was made at a space and nothing at the other cuts, gives back
    the text of the chunk. *)
Theorem split_rejoin_round_trip max_chunk_size chunk :
  fits_string (text chunk) ->
  0 <= max_chunk_size < str_length (text chunk) ->
  (1 <= max_chunk_size -> forall fuel, (length (text chunk) < fuel)%nat ->
     is_Some (Splitter.split_loop max_chunk_size fuel chunk 0 0))
  /\ forall fuel frags,
       Splitter.split_loop max_chunk_size fuel chunk 0 0 = Some frags ->
       exists cuts,
         Splitter.split_cuts max_chunk_size fuel (text chunk) 0 = Some cuts
         /\ frags = Splitter.fragments_of_cuts chunk 0 cuts
         /\ (forall start end_ skipped, (start, end_, skipped) ∈ cuts ->
               (skipped = true <->
                end_ < str_length (text chunk)
                /\ char_at (text chunk) end_ = " "%char))
         /\ Splitter.rejoin
              (zip (map text frags) (map (fun cut : Z * Z * bool => snd cut) cuts))
            = text chunk.
Proof.
  intros Hfit Hmax. split.
  - intros H1 fuel Hfuel. rewrite split_loop_cuts.
    destruct (split_cuts_terminates max_chunk_size (text chunk) Hfit ltac:(lia)
                (length (text chunk)) fuel 0) as [cuts ->];
      [lia | unfold str_length; lia | exact Hfuel |].
    eexists; reflexivity.
  - intros fuel frags H. rewrite split_loop_cuts in H.
    destruct (Splitter.split_cuts max_chunk_size fuel (text chunk) 0) as [cuts|] eqn:E;
      [|discriminate].
    injection H as <-. exists cuts.
    pose proof (split_cuts_ok max_chunk_size (text chunk) Hfit Hmax fuel 0 cuts
                  ltac:(lia) E) as Hok.
    split; [reflexivity|]. split; [reflexivity|]. split.
    + intros s e b Hcut. rewrite Forall_forall in Hok.
      destruct (Hok _ Hcut) as (_ & _ & Hb & _). subst b.
      unfold Splitter.skips_space. rewrite andb_true_iff, Z.ltb_lt, Ascii.eqb_eq.
      reflexivity.
    + rewrite (fragments_of_cuts_pieces max_chunk_size chunk cuts Hfit Hmax Hok).
      rewrite (split_cuts_rejoin max_chunk_size (text chunk) Hfit Hmax fuel 0 cuts
                 ltac:(lia) E).
      reflexivity.
Qed.

Lemma split_rejoin_round_trip_witness :
  fits_string (text (sample_chunk "hello brave new world"))
  /\ 0 <= 10 < str_length (text (sample_chunk "hello brave new world"))
  /\ exists cuts,
       Splitter.split_cuts 10 22 (lit "hello brave new world") 0 = Some cuts
       /\ Splitter.rejoin
            (zip (map lit ["hello"; "brave new"; "world"]%string)
                 (map (fun cut : Z * Z * bool => snd cut) cuts))
          = lit "hello brave new world".
Proof.
  assert (Hf : fits_string (text (sample_chunk "hello brave new world")))
    by (vm_compute; reflexivity).
  assert (Hm : 0 <= 10 < str_length (text (sample_chunk "hello brave new world")))
    by (vm_compute; split; [discriminate | reflexivity]).
  split; [exact Hf|]. split; [exact Hm|].
  destruct (proj2 (split_rejoin_round_trip 10 _ Hf Hm) 22%nat
              (map (fun s => Splitter.fragment (sample_chunk "hello brave new world")
                               (fst (fst s)) (snd (fst s)) (snd s))
                   [(0, 5, 0); (6, 15, 1); (16, 21, 2)]))
    as (cuts & Hc & _ & _ & Hr).
  - vm_compute. reflexivity.
  - exists cuts. split; [exact Hc | exact Hr].
Defined.

(** ** A text without spaces *)

Lemma char_at_elem (s : cstring) i :
  0 <= i < str_length s -> char_at s i ∈ s.
Proof.
  intros Hi. unfold char_at, str_length in *.
  destruct (nth_lookup_or_length s (Z.to_nat i) "000"%char) as [H|H]; [|lia].
  apply list_elem_of_lookup. eauto.
Qed.

Lemma no_space_step max_chunk_size txt start :
  fits_string txt -> 0 <= max_chunk_size < str_length txt ->
  0 <= start < str_length txt -> " "%char ∉ txt ->
  Splitter.cut_end max_chunk_size txt start
  = Z.min (start + max_chunk_size) (str_length txt)
  /\ forall e, 0 <= e -> Splitter.next_start txt e = e.
Proof.
  intros Hfit Hmax Hs Hno. split.
  - destruct (cut_end_cases max_chunk_size txt start Hfit Hmax Hs)
      as [(He & _)|(Hh & He & Hsp & _)]; [exact He|].
    exfalso. apply Hno. rewrite <- Hsp. apply char_at_elem. lia.
  - intros e He. unfold Splitter.next_start, Splitter.skips_space.
    destruct (Z.ltb_spec e (str_length txt)) as [Hlt|Hge]; [|reflexivity].
    destruct (Ascii.eqb_spec (char_at txt e) " "%char) as [Hsp|Hns]; [|reflexivity].
    exfalso. apply Hno. rewrite <- Hsp. apply char_at_elem. lia.
Qed.

Lemma split_loop_step max_chunk_size fuel chunk start chunk_id :
  start < str_length (text chunk) ->
  Splitter.split_loop max_chunk_size (S fuel) chunk start chunk_id
  = (rest ← Splitter.split_loop max_chunk_size fuel chunk
              (Splitter.next_start (text chunk)
                 (Splitter.cut_end max_chunk_size (text chunk) start))
              (wrap (chunk_id + 1));
     Some (Splitter.fragment chunk start
             (Splitter.cut_end max_chunk_size (text chunk) start) chunk_id :: rest)).
Proof.
  intros H. apply Z.ltb_lt in H. cbn [Splitter.split_loop]. rewrite H. reflexivity.
Qed.

Lemma split_loop_done max_chunk_size fuel chunk start chunk_id :
  str_length (text chunk) <= start ->
  Splitter.split_loop max_chunk_size (S fuel) chunk start chunk_id = Some [].
Proof.
  intros H. apply Z.ltb_ge in H. cbn [Splitter.split_loop]. rewrite H. reflexivity.
Qed.

Lemma substr_length (s : cstring) pos n :
  0 <= pos -> 0 <= n -> pos + n <= str_length s ->
  str_length (substr s pos n) = n.
Proof.
  intros Hp Hn Hle. unfold substr, str_length in *.
  rewrite length_take, length_drop. lia.
Qed.

(** C6. A single chunk of 120000 characters without a space, split with
    [max_chunk_size = 50000], gives three fragments of 50000, 50000 and 20000
    characters, whose paths end in [_chunk_0], [_chunk_1] and [_chunk_2]. *)
Theorem split_scenario_b chunk fuel :
  str_length (text chunk) = 120000 ->
  " "%char ∉ text chunk ->
  (4 <= fuel)%nat ->
  exists f0 f1 f2,
    Splitter.split_into_chunks default_max_chunk_size fuel [chunk]
    = Some [f0; f1; f2]
    /\ map (fun f => str_length (text f)) [f0; f1; f2] = [50000; 50000; 20000]
    /\ map file_path [f0; f1; f2]
       = [ file_path chunk ++ lit "_chunk_0";
           file_path chunk ++ lit "_chunk_1";
           file_path chunk ++ lit "_chunk_2" ]
    /\ map text [f0; f1; f2]
       = [ substr (text chunk) 0 50000; substr (text chunk) 50000 50000;
           substr (text chunk) 100000 20000 ].
Proof.
  intros Hlen Hno Hfuel.
  assert (Hfit : fits_string (text chunk)) by (unfold fits_string; rewrite Hlen; reflexivity).
  assert (Hmax : 0 <= default_max_chunk_size < str_length (text chunk))
    by (rewrite Hlen; unfold default_max_chunk_size; lia).
  assert (Hcut : forall s, 0 <= s < 120000 ->
            Splitter.cut_end default_max_chunk_size (text chunk) s
            = Z.min (s + 50000) 120000).
  { intros s Hs.
    destruct (no_space_step default_max_chunk_size (text chunk) s Hfit Hmax
                ltac:(lia) Hno) as (-> & _).
    rewrite Hlen. reflexivity. }
  assert (Hnext : forall e, 0 <= e -> Splitter.next_start (text chunk) e = e).
  { intros e He.
    apply (no_space_step default_max_chunk_size (text chunk) 0 Hfit Hmax
             ltac:(lia) Hno); exact He. }
  destruct fuel as [|[|[|[|fuel]]]]; try lia.
  cbn [Splitter.split_into_chunks].
  replace (str_length (text chunk) <=? default_max_chunk_size) with false
    by (rewrite Hlen; reflexivity).
  rewrite split_loop_step by (rewrite Hlen; lia).
  rewrite (Hcut 0) by lia. rewrite Hnext by lia.
  change (Z.min (0 + 50000) 120000) with 50000. change (wrap (0 + 1)) with 1.
  rewrite split_loop_step by (rewrite Hlen; lia).
  rewrite (Hcut 50000) by lia. rewrite Hnext by lia.
  change (Z.min (50000 + 50000) 120000) with 100000. change (wrap (1 + 1)) with 2.
  rewrite split_loop_step by (rewrite Hlen; lia).
  rewrite (Hcut 100000) by lia. rewrite Hnext by lia.
  change (Z.min (100000 + 50000) 120000) with 120000.
  rewrite split_loop_done by (rewrite Hlen; lia).
  cbn [mbind option_bind app].
  do 3 eexists. split; [reflexivity|].
  cbn [map Splitter.fragment text file_path].
  change (wrap (50000 - 0)) with 50000. change (wrap (100000 - 50000)) with 50000.
  change (wrap (120000 - 100000)) with 20000.
  split; [|split; reflexivity].
  rewrite !substr_length by (rewrite ?Hlen; lia). reflexivity.
Qed.

Lemma split_scenario_b_witness :
  str_length (text big_chunk) = 120000
  /\ (" "%char ∉ text big_chunk)
  /\ exists f0 f1 f2,
       Splitter.split_into_chunks default_max_chunk_size 4 [big_chunk]
       = Some [f0; f1; f2]
       /\ map (fun f => str_length (text f)) [f0; f1; f2] = [50000; 50000; 20000]
       /\ map file_path [f0; f1; f2]
          = [ lit "big.txt_chunk_0"; lit "big.txt_chunk_1"; lit "big.txt_chunk_2" ].
Proof.
  assert (Hlen : str_length (text big_chunk) = 120000).
  { unfold str_length, big_chunk, text. rewrite length_replicate. lia. }
  assert (Hno : " "%char ∉ text big_chunk).
  { unfold big_chunk, text. intros [H _]%elem_of_replicate. discriminate H. }
  split; [exact Hlen|]. split; [exact Hno|].
  destruct (split_scenario_b big_chunk 4 Hlen Hno (le_n 4))
    as (f0 & f1 & f2 & H & Hl & Hp & _).
  exists f0, f1, f2. split; [exact H|]. split; [exact Hl|]. exact Hp.
Defined.

(** ** Termination of the splitting loop *)

Lemma split_into_chunks_None max_chunk_size fuel chunks c :
  c ∈ chunks -> pieces_of max_chunk_size fuel c = None ->
  Splitter.split_into_chunks max_chunk_size fuel chunks = None.
Proof.
  intros Hc Hp. induction chunks as [|chunk chunks IH]; [inversion Hc|].
  cbn [Splitter.split_into_chunks]. unfold pieces_of in Hp.
  apply elem_of_cons in Hc as [<-|Hc].
  - destruct (str_length (text c) <=? max_chunk_size); [discriminate|].
    rewrite Hp. reflexivity.
  - rewrite (IH Hc).
    destruct (str_length (text chunk) <=? max_chunk_size); [reflexivity|].
    destruct (Splitter.split_loop max_chunk_size fuel chunk 0 0); reflexivity.
Qed.

(** With a bound of zero the loop is stuck as soon as [start] reaches a
    character that is not a space. *)
Lemma split_cuts_zero_stuck txt i :
  fits_string txt -> 0 <= i < str_length txt -> char_at txt i <> " "%char ->
  forall fuel start, 0 <= start <= i ->
    Splitter.split_cuts 0 fuel txt start = None.
Proof.
  intros Hfit Hi Hc. induction fuel as [|fuel IH]; intros start Hs; [reflexivity|].
  cbn [Splitter.split_cuts].
  destruct (Z.ltb_spec start (str_length txt)) as [_|Hge]; [|lia].
  pose proof (cut_end_bounds 0 txt start Hfit ltac:(lia) ltac:(lia)) as (Hb & Hsz & _).
  pose proof (next_start_bounds 0 txt start Hfit ltac:(lia) ltac:(lia)) as (_ & Hn).
  cbv zeta in *.
  assert (He : Splitter.cut_end 0 txt start = start) by lia.
  rewrite He in *. rewrite IH; [reflexivity|].
  rewrite Hn. destruct (Splitter.skips_space txt start) eqn:Hsk; [|lia].
  destruct (Z.eq_dec start i) as [->|Hne]; [|lia].
  exfalso. apply Hc. unfold Splitter.skips_space in Hsk.
  apply andb_true_iff in Hsk as [_ Hsp]. apply Ascii.eqb_eq in Hsp. exact Hsp.
Qed.

(** With a bound of zero every cut is empty, and [start] moves on by one
    character over a space and not at all over anything else. *)
Lemma zero_bound_step txt start :
  fits_string txt -> 0 <= start < str_length txt ->
  Splitter.cut_end 0 txt start = start
  /\ (char_at txt start <> " "%char ->
      Splitter.next_start txt (Splitter.cut_end 0 txt start) = start)
  /\ (char_at txt start = " "%char ->
      Splitter.skips_space txt (Splitter.cut_end 0 txt start) = true
      /\ Splitter.next_start txt (Splitter.cut_end 0 txt start) = start + 1).
Proof.
  intros Hfit Hs.
  pose proof (cut_end_bounds 0 txt start Hfit ltac:(lia) Hs) as (Hb & Hsz & _).
  pose proof (next_start_bounds 0 txt start Hfit ltac:(lia) Hs) as (_ & Hn).
  cbv zeta in *.
  assert (He : Splitter.cut_end 0 txt start = start) by lia.
  rewrite He in *. split; [reflexivity|].
  unfold Splitter.skips_space in *.
  destruct (Z.ltb_spec start (str_length txt)) as [_|Hge]; [|lia].
  cbn [andb] in *.
  destruct (Ascii.eqb_spec (char_at txt start) " "%char) as [Heq|Hne].
  - split; [contradiction|]. intros _. split; [reflexivity | exact Hn].
  - split; [intros _; exact Hn | contradiction].
Qed.

(** With a bound of zero and a text of spaces only, each iteration cuts an
    empty fragment and skips one space, so the loop ends after one
    iteration for each space left. *)
Lemma split_cuts_zero_blank txt :
  fits_string txt -> Forall (fun ch => ch = " "%char) txt ->
  forall (n : nat) fuel start,
    0 <= start -> str_length txt - start = Z.of_nat n -> (n < fuel)%nat ->
    exists cuts,
      Splitter.split_cuts 0 fuel txt start = Some cuts
      /\ length cuts = n
      /\ Forall (fun cut : Z * Z * bool =>
                   snd (fst cut) = fst (fst cut) /\ snd cut = true) cuts.
Proof.
  intros Hfit Hsp. rewrite Forall_forall in Hsp.
  induction n as [|n IH]; intros fuel start Hs Hn Hf;
    (destruct fuel as [|fuel]; [lia|]); cbn [Splitter.split_cuts].
  - destruct (Z.ltb_spec start (str_length txt)); [lia|].
    exists []. split; [reflexivity|]. split; [reflexivity | constructor].
  - destruct (Z.ltb_spec start (str_length txt)) as [Hlt|Hge]; [|lia].
    destruct (zero_bound_step txt start Hfit ltac:(lia)) as (He & _ & Hskip).
    destruct (Hskip (Hsp _ (char_at_elem txt start ltac:(lia)))) as (Hsk & Hnext).
    rewrite Hnext, Hsk, He.
    destruct (IH fuel (start + 1)) as (rest & Hrest & Hlen & Hall); [lia..|].
    rewrite Hrest. cbn [mbind option_bind].
    exists ((start, start, true) :: rest).
    split; [reflexivity|]. split; [cbn [length]; lia|].
    constructor; [split; reflexivity | exact Hall].
Qed.

Lemma fragments_of_cuts_empty chunk cuts :
  Forall (fun cut : Z * Z * bool => snd (fst cut) = fst (fst cut) /\ snd cut = true)
    cuts ->
  forall chunk_id,
    Forall (fun f => text f = []) (Splitter.fragments_of_cuts chunk chunk_id cuts).
Proof.
  induction 1 as [|[[s e] b] cuts (He & _) _ IH]; intros chunk_id;
    cbn [Splitter.fragments_of_cuts]; constructor; [|apply IH].
  cbn [fst snd] in He. subst e. cbn [Splitter.fragment text]. unfold substr.
  rewrite Z.sub_diag. reflexivity.
Qed.

Lemma split_loop_zero_blank chunk fuel :
  fits_string (text chunk) -> Forall (fun ch => ch = " "%char) (text chunk) ->
  (length (text chunk) < fuel)%nat ->
  exists frags,
    Splitter.split_loop 0 fuel chunk 0 0 = Some frags
    /\ length frags = length (text chunk)
    /\ Forall (fun f => text f = []) frags.
Proof.
  intros Hfit Hsp Hfuel. rewrite split_loop_cuts.
  destruct (split_cuts_zero_blank (text chunk) Hfit Hsp (length (text chunk)) fuel 0)
    as (cuts & Hcuts & Hlen & Hall); [lia | unfold str_length; lia | exact Hfuel |].
  rewrite Hcuts. exists (Splitter.fragments_of_cuts chunk 0 cuts).
  split; [reflexivity|]. split.
  - rewrite fragments_of_cuts_length. exact Hlen.
  - apply fragments_of_cuts_empty. exact Hall.
Qed.

Lemma split_into_chunks_zero_blank chunks fuel :
  Forall (fun c => fits_string (text c)) chunks ->
  Forall (fun c => Forall (fun ch => ch = " "%char) (text c)) chunks ->
  enough_fuel fuel chunks ->
  is_Some (Splitter.split_into_chunks 0 fuel chunks).
Proof.
  intros Hfit Hsp Hfuel. unfold enough_fuel in Hfuel.
  induction chunks as [|chunk chunks IH]; cbn [Splitter.split_into_chunks].
  - eexists; reflexivity.
  - inversion Hfit as [|? ? Hf1 Hf2]; subst. inversion Hsp as [|? ? Hs1 Hs2]; subst.
    inversion Hfuel as [|? ? Hn1 Hn2]; subst.
    destruct (IH Hf2 Hs2 Hn2) as [rest Hrest]. rewrite Hrest.
    destruct (str_length (text chunk) <=? 0); [eexists; reflexivity|].
    destruct (split_loop_zero_blank chunk fuel Hf1 Hs1 Hn1) as (frags & -> & _).
    eexists; reflexivity.
Qed.

(** C10, as amended. With [max_chunk_size >= 1] the call returns for every
    input: each iteration of the loop moves [start] strictly forward, and a
    cut is only ever moved to a space strictly after [start]. With
    [max_chunk_size = 0] the call never returns once an input text holds a
    character that is not a space: every cut is empty, and [start] stays
    where it is on such a character and moves on by one over a space. So a
    text of spaces only is still split, into one empty fragment for each of
    its spaces, and the call returns when every input text is of that
    kind. *)
Theorem split_into_chunks_termination chunks :
  Forall (fun c => fits_string (text c)) chunks ->
  (forall max_chunk_size, 1 <= max_chunk_size ->
     (forall fuel, enough_fuel fuel chunks ->
        is_Some (Splitter.split_into_chunks max_chunk_size fuel chunks))
     /\ forall c start,
          c ∈ chunks -> max_chunk_size < str_length (text c) ->
          0 <= start < str_length (text c) ->
          let end_ := Splitter.cut_end max_chunk_size (text c) start in
          start < Splitter.next_start (text c) end_
          /\ (end_ <> Z.min (start + max_chunk_size) (str_length (text c)) ->
              start < end_ /\ char_at (text c) end_ = " "%char))
  /\ (forall c, c ∈ chunks ->
       (exists i, 0 <= i < str_length (text c) /\ char_at (text c) i <> " "%char) ->
       forall fuel, Splitter.split_into_chunks 0 fuel chunks = None)
  /\ (forall c start,
        c ∈ chunks -> 0 <= start < str_length (text c) ->
        let end_ := Splitter.cut_end 0 (text c) start in
        end_ = start
        /\ (char_at (text c) start <> " "%char ->
            Splitter.next_start (text c) end_ = start)
        /\ (char_at (text c) start = " "%char ->
            Splitter.next_start (text c) end_ = start + 1))
  /\ (forall c,
        c ∈ chunks -> Forall (fun ch => ch = " "%char) (text c) ->
        forall fuel, (length (text c) < fuel)%nat ->
          exists frags,
            Splitter.split_loop 0 fuel c 0 0 = Some frags
            /\ length frags = length (text c)
            /\ Forall (fun f => text f = []) frags)
  /\ (Forall (fun c => Forall (fun ch => ch = " "%char) (text c)) chunks ->
      forall fuel, enough_fuel fuel chunks ->
        is_Some (Splitter.split_into_chunks 0 fuel chunks)).
Proof.
  intros Hfit. split; [|split; [|split; [|split]]].
  - intros max_chunk_size Hmax. split.
    + intros fuel Hfuel.
      destruct (split_into_chunks_terminates max_chunk_size chunks fuel Hmax Hfit Hfuel)
        as [result ->]. eexists; reflexivity.
    + intros c start Hc Hlen Hs. rewrite Forall_forall in Hfit.
      pose proof (cut_end_bounds max_chunk_size (text c) start (Hfit c Hc)
                    ltac:(lia) Hs) as (Hb & _ & Hprog).
      pose proof (next_start_bounds max_chunk_size (text c) start (Hfit c Hc)
                    ltac:(lia) Hs) as (Hn & _).
      cbv zeta in *. split; [lia|]. intros Hne.
      destruct (cut_end_cases max_chunk_size (text c) start (Hfit c Hc)
                  ltac:(lia) Hs) as [(He & _)|(_ & He & Hsp & _)];
        [contradiction | split; [lia | exact Hsp]].
  - intros c Hc (i & Hi & Hch) fuel. rewrite Forall_forall in Hfit.
    apply (split_into_chunks_None 0 fuel chunks c Hc). unfold pieces_of.
    destruct (Z.leb_spec (str_length (text c)) 0) as [Hle|_]; [lia|].
    rewrite split_loop_cuts.
    rewrite (split_cuts_zero_stuck (text c) i (Hfit c Hc) Hi Hch fuel 0 ltac:(lia)).
    reflexivity.
  - intros c start Hc Hs. rewrite Forall_forall in Hfit. cbv zeta.
    destruct (zero_bound_step (text c) start (Hfit c Hc) Hs) as (He & Hstay & Hskip).
    split; [exact He|]. split; [exact Hstay|].
    intros Hsp. exact (proj2 (Hskip Hsp)).
  - intros c Hc Hsp fuel Hfuel. rewrite Forall_forall in Hfit.
    exact (split_loop_zero_blank c fuel (Hfit c Hc) Hsp Hfuel).
  - intros Hsp fuel Hfuel.
    exact (split_into_chunks_zero_blank chunks fuel Hfit Hsp Hfuel).
Qed.

Lemma split_into_chunks_termination_witness :
  (Forall (fun c => fits_string (text c)) sample_chunks
   /\ is_Some (Splitter.split_into_chunks 10 22 sample_chunks)
   /\ Splitter.split_into_chunks 0 22 sample_chunks = None)
  /\ (Forall (fun c => fits_string (text c)) [sample_chunk "   "; sample_chunk " "]
      /\ Forall (fun c => Forall (fun ch => ch = " "%char) (text c))
           [sample_chunk "   "; sample_chunk " "]
      /\ is_Some (Splitter.split_into_chunks 0 4 [sample_chunk "   "; sample_chunk " "])).
Proof.
  split.
  - assert (Hf : Forall (fun c => fits_string (text c)) sample_chunks)
      by (repeat constructor; vm_compute; reflexivity).
    split; [exact Hf|].
    destruct (split_into_chunks_termination sample_chunks Hf) as (Hterm & Hstuck & _).
    split.
    + apply (proj1 (Hterm 10 ltac:(lia))).
      repeat constructor; vm_compute; lia.
    + apply (Hstuck (sample_chunk "short")).
      * vm_compute. apply list_elem_of_further, list_elem_of_here.
      * exists 0. split; [vm_compute; split; [discriminate | reflexivity]|].
        vm_compute. discriminate.
  - assert (Hf : Forall (fun c => fits_string (text c))
                   [sample_chunk "   "; sample_chunk " "])
      by (repeat constructor; vm_compute; reflexivity).
    assert (Hs : Forall (fun c => Forall (fun ch => ch = " "%char) (text c))
                   [sample_chunk "   "; sample_chunk " "])
      by (repeat constructor).
    split; [exact Hf|]. split; [exact Hs|].
    destruct (split_into_chunks_termination _ Hf) as (_ & _ & _ & _ & Hblank).
    apply (Hblank Hs). repeat constructor; vm_compute; lia.
Defined.

(** C10, as stated, fails: with [max_chunk_size = 0] a text that is one
    space is not empty, and yet the loop moves on and returns. *)
Lemma split_zero_bound_blank_progresses :
  text (sample_chunk " ") <> []
  /\ Splitter.next_start (lit " ") (Splitter.cut_end 0 (lit " ") 0) = 1
  /\ Splitter.split_into_chunks 0 2 [sample_chunk " "]
     = Some [Splitter.fragment (sample_chunk " ") 0 0 0].
Proof.
  split; [discriminate|]. split; vm_compute; reflexivity.
Qed.

(** ** [regex_replace] on the cleaner's patterns *)

Lemma last_cons_default {A} (l : list A) (x d : A) :
  List.last (x :: l) d = List.last l x.
Proof.
  revert x d. induction l as [|y l IH]; intros x d; [reflexivity|].
  change (List.last (x :: y :: l) d) with (List.last (y :: l) d).
  rewrite !IH. reflexivity.
Qed.

Section EscapeReplace.

Variables (c : ascii) (rep : cstring).

Lemma match_at_escape not_null prefix pos rest :
  match_at (escape_re c) not_null prefix pos rest
  = match rest with
    | a :: b :: rest'' =>
        if Ascii.eqb backslash a && Ascii.eqb c b
        then Some (mkMatch prefix pos (pos + 1 + 1) [a; b] [] rest'')
        else None
    | _ => None
    end.
Proof.
  unfold match_at, escape_re. cbn [rmatch]. unfold step_char at 2. cbn [m_rest].
  destruct rest as [|a rest']; [reflexivity|].
  destruct (Ascii.eqb backslash a); [|destruct rest'; reflexivity].
  cbn [flat_map app]. unfold step_char. cbn [m_rest m_pos m_caps].
  destruct rest' as [|b rest'']; [reflexivity|].
  destruct (Ascii.eqb c b); [|reflexivity].
  cbn [List.find flat_map app m_pos m_rest m_caps andb].
  replace (negb not_null || (pos <? pos + 1 + 1)) with true.
  - cbn [m_pos m_rest m_caps].
    replace (Z.to_nat (pos + 1 + 1 - pos)) with 2%nat by lia. reflexivity.
  - destruct (Z.ltb_spec pos (pos + 1 + 1)); [|lia].
    destruct not_null; reflexivity.
Qed.

Lemma replace_escape_cons2 a b s :
  replace_escape c rep (a :: b :: s)
  = if Ascii.eqb backslash a && Ascii.eqb c b
    then rep ++ replace_escape c rep s
    else a :: replace_escape c rep (b :: s).
Proof. reflexivity. Qed.

Lemma search_from_escape rest :
  forall prefix pos,
    match search_from (escape_re c) prefix pos rest with
    | Some m =>
        mr_first m <> mr_second m
        /\ (length (mr_suffix m) < length rest)%nat
        /\ prefix ++ replace_escape c rep rest
           = mr_prefix m ++ rep ++ replace_escape c rep (mr_suffix m)
    | None => replace_escape c rep rest = rest
    end.
Proof.
  induction rest as [|a rest IH]; intros prefix pos.
  - reflexivity.
  - cbn [search_from]. rewrite match_at_escape.
    destruct rest as [|b rest''].
    + reflexivity.
    + rewrite replace_escape_cons2.
      destruct (Ascii.eqb backslash a && Ascii.eqb c b).
      * cbn [mr_first mr_second mr_suffix mr_prefix length].
        split; [lia|]. split; [lia | reflexivity].
      * specialize (IH (prefix ++ [a]) (pos + 1)).
        destruct (search_from (escape_re c) (prefix ++ [a]) (pos + 1) (b :: rest''))
          as [m|].
        -- destruct IH as (Hne & Hlen & Heq). split; [exact Hne|].
           split; [cbn [length] in *; lia|].
           rewrite <- Heq, <- app_assoc. reflexivity.
        -- rewrite IH. reflexivity.
Qed.

Lemma iter_next_escape fuel :
  forall m,
    mr_first m <> mr_second m ->
    (length (mr_suffix m) < fuel)%nat ->
    flat_map (fun m' => mr_prefix m' ++ rep) (iter_next fuel (escape_re c) m)
      ++ mr_suffix (List.last (iter_next fuel (escape_re c) m) m)
    = replace_escape c rep (mr_suffix m).
Proof.
  induction fuel as [|fuel IH]; intros m Hne Hlen; [lia|].
  cbn [iter_next]. apply Z.eqb_neq in Hne. rewrite Hne.
  pose proof (search_from_escape (mr_suffix m) [] (mr_second m)) as Hs.
  destruct (search_from (escape_re c) [] (mr_second m) (mr_suffix m)) as [m'|].
  - destruct Hs as (Hne' & Hlen' & Heq).
    rewrite last_cons_default. cbn [flat_map]. rewrite <- !app_assoc.
    rewrite (IH m' Hne' ltac:(lia)). exact (eq_sym Heq).
  - cbn [flat_map List.last app]. exact (eq_sym Hs).
Qed.

(** [regex_replace] with the regex of the escape [c] is the literal
    replacement of every backslash followed by [c]. *)
Lemma regex_replace_escape s :
  regex_replace s (escape_re c) rep = replace_escape c rep s.
Proof.
  unfold regex_replace, regex_iterator.
  pose proof (search_from_escape s [] 0) as Hs.
  destruct (search_from (escape_re c) [] 0 s) as [m|].
  - destruct Hs as (Hne & Hlen & Heq). cbn [flat_map]. rewrite <- !app_assoc.
    rewrite (iter_next_escape (S (2 * length s)) m Hne ltac:(lia)).
    exact (eq_sym Heq).
  - exact (eq_sym Hs).
Qed.

End EscapeReplace.

Lemma unescape_steps s :
  unescape s
  = replace_escape backslash [backslash]
      (replace_escape squote [squote]
         (replace_escape dquote [dquote]
            (replace_escape "r"%char [CR]
               (replace_escape "t"%char [TAB]
                  (replace_escape "n"%char [LF] s))))).
Proof. unfold unescape. rewrite !regex_replace_escape. reflexivity. Qed.

(** ** Literal replacement *)

Section ReplaceFacts.

Variables (c : ascii) (rep : cstring).

Lemma replace_escape_cons_free a s :
  a <> backslash ->
  replace_escape c rep (a :: s) = a :: replace_escape c rep s.
Proof.
  intros Ha. destruct s as [|b s]; [reflexivity|].
  rewrite replace_escape_cons2.
  destruct (Ascii.eqb_spec backslash a) as [E|_]; [congruence | reflexivity].
Qed.

Lemma replace_escape_free s :
  backslash ∉ s -> replace_escape c rep s = s.
Proof.
  induction s as [|a s IH]; intros Hs; [reflexivity|].
  apply not_elem_of_cons in Hs as [Ha Hs].
  rewrite replace_escape_cons_free by congruence. rewrite IH by exact Hs.
  reflexivity.
Qed.

Lemma replace_escape_app_free s1 s :
  backslash ∉ s1 ->
  replace_escape c rep (s1 ++ s) = s1 ++ replace_escape c rep s.
Proof.
  induction s1 as [|a s1 IH]; intros Hs; [reflexivity|].
  apply not_elem_of_cons in Hs as [Ha Hs].
  rewrite <- app_comm_cons, replace_escape_cons_free by congruence.
  rewrite IH by exact Hs. reflexivity.
Qed.

Lemma replace_escape_no_token s :
  has_escape_token s = false -> mem_char c escape_chars = true ->
  replace_escape c rep s = s.
Proof.
  intros Hs Hc. induction s as [|a s IH]; [reflexivity|].
  destruct s as [|b s]; [reflexivity|].
  rewrite replace_escape_cons2.
  cbn [has_escape_token] in Hs. apply orb_false_iff in Hs as [Hab Hs].
  destruct (Ascii.eqb backslash a) eqn:Ea; cbn [andb] in *.
  - destruct (Ascii.eqb_spec c b) as [->|_]; [congruence|].
    rewrite IH by exact Hs. reflexivity.
  - rewrite IH by exact Hs. reflexivity.
Qed.

(** A doubled backslash followed by [x], before a tail without
    backslashes. *)
Lemma replace_escape_double x s :
  backslash ∉ s -> x <> backslash ->
  replace_escape c rep (backslash :: backslash :: x :: s)
  = if Ascii.eqb c backslash then rep ++ x :: s
    else if Ascii.eqb c x then backslash :: rep ++ s
    else backslash :: backslash :: x :: s.
Proof.
  intros Hs Hx. rewrite replace_escape_cons2. cbn [Ascii.eqb andb].
  change (Ascii.eqb backslash backslash) with true. cbn [andb].
  destruct (Ascii.eqb c backslash).
  - rewrite replace_escape_cons_free, replace_escape_free by assumption.
    reflexivity.
  - rewrite replace_escape_cons2.
    change (Ascii.eqb backslash backslash) with true. cbn [andb].
    destruct (Ascii.eqb c x).
    + rewrite replace_escape_free by assumption. reflexivity.
    + rewrite replace_escape_cons_free, replace_escape_free by assumption.
      reflexivity.
Qed.

(** A single backslash followed by [x], before such a tail. *)
Lemma replace_escape_single x s :
  backslash ∉ s -> x <> backslash ->
  replace_escape c rep (backslash :: x :: s)
  = if Ascii.eqb c x then rep ++ s else backslash :: x :: s.
Proof.
  intros Hs Hx. rewrite replace_escape_cons2.
  change (Ascii.eqb backslash backslash) with true. cbn [andb].
  destruct (Ascii.eqb c x).
  - rewrite replace_escape_free by assumption. reflexivity.
  - rewrite replace_escape_cons_free, replace_escape_free by assumption.
    reflexivity.
Qed.

(** A doubled backslash before a tail that begins with no escape
    character. *)
Lemma replace_escape_double_plain s :
  backslash ∉ s -> head_not_escape s -> mem_char c escape_chars = true ->
  replace_escape c rep (backslash :: backslash :: s)
  = if Ascii.eqb c backslash then rep ++ s else backslash :: backslash :: s.
Proof.
  intros Hs Hh Hc. rewrite replace_escape_cons2.
  change (Ascii.eqb backslash backslash) with true. cbn [andb].
  destruct (Ascii.eqb c backslash).
  - rewrite replace_escape_free by assumption. reflexivity.
  - f_equal. destruct s as [|b s]; [reflexivity|].
    rewrite replace_escape_cons2.
    change (Ascii.eqb backslash backslash) with true. cbn [andb].
    destruct (Ascii.eqb_spec c b) as [->|_].
    + exfalso. apply Hh. unfold mem_char in Hc.
      apply existsb_exists in Hc as (y & Hy & Hyb).
      apply Ascii.eqb_eq in Hyb. subst y. apply list_elem_of_In. exact Hy.
    + apply not_elem_of_cons in Hs as [Hb Hs].
      rewrite replace_escape_cons_free, replace_escape_free by congruence.
      reflexivity.
Qed.

End ReplaceFacts.

Ltac eval_char_tests :=
  repeat match goal with
         | |- context [Ascii.eqb ?a ?b] =>
             let v := eval vm_compute in (Ascii.eqb a b) in
             change (Ascii.eqb a b) with v
         end;
  cbn beta iota; cbn [app].

Lemma unescape_double_escape s1 s2 c :
  backslash ∉ s1 -> backslash ∉ s2 -> c ∈ early_escape_chars ->
  unescape (s1 ++ [backslash; backslash; c] ++ s2)
  = s1 ++ [backslash; decoded c] ++ s2.
Proof.
  intros H1 H2 Hc. rewrite unescape_steps. cbn [app].
  unfold early_escape_chars in Hc.
  repeat (apply elem_of_cons in Hc as [->|Hc]); [..|inversion Hc];
    repeat (rewrite replace_escape_app_free by exact H1;
            first [ rewrite replace_escape_double by (exact H2 || discriminate)
                  | rewrite replace_escape_single by (exact H2 || discriminate) ];
            eval_char_tests);
    reflexivity.
Qed.

Lemma unescape_double_plain s1 s2 :
  backslash ∉ s1 -> backslash ∉ s2 -> head_not_escape s2 ->
  unescape (s1 ++ [backslash; backslash] ++ s2) = s1 ++ [backslash] ++ s2.
Proof.
  intros H1 H2 Hh. rewrite unescape_steps. cbn [app].
  repeat (rewrite replace_escape_app_free by exact H1;
          rewrite replace_escape_double_plain by (assumption || reflexivity);
          eval_char_tests).
  reflexivity.
Qed.

Lemma unescape_no_token s :
  has_escape_token s = false -> unescape s = s.
Proof.
  intros Hs. rewrite unescape_steps.
  rewrite (replace_escape_no_token "n"%char [LF] s Hs eq_refl).
  rewrite (replace_escape_no_token "t"%char [TAB] s Hs eq_refl).
  rewrite (replace_escape_no_token "r"%char [CR] s Hs eq_refl).
  rewrite (replace_escape_no_token dquote [dquote] s Hs eq_refl).
  rewrite (replace_escape_no_token squote [squote] s Hs eq_refl).
  apply (replace_escape_no_token backslash [backslash] s Hs eq_refl).
Qed.

(** ** Trimming *)

Lemma drop_while_no_leading s : no_leading_space (drop_while isspace s).
Proof.
  induction s as [|c s IH]; [exact I|]. cbn [drop_while].
  destruct (isspace c) eqn:E; [exact IH | exact E].
Qed.

Lemma drop_while_id s : no_leading_space s -> drop_while isspace s = s.
Proof.
  destruct s as [|c s]; [reflexivity|]. cbn. intros ->. reflexivity.
Qed.

Lemma drop_while_suffix s : exists sp, s = sp ++ drop_while isspace s.
Proof.
  induction s as [|c s (sp & IH)]; [exists []; reflexivity|]. cbn [drop_while].
  destruct (isspace c).
  - exists (c :: sp). cbn [app]. rewrite <- IH. reflexivity.
  - exists []. reflexivity.
Qed.

Lemma no_leading_space_prefix p q :
  no_leading_space (p ++ q) -> no_leading_space p.
Proof. destruct p as [|c p]; [intros _; exact I | intros H; exact H]. Qed.

Lemma trim_no_leading s : no_leading_space (trim s).
Proof.
  unfold trim.
  destruct (drop_while_suffix (rev (drop_while isspace s))) as (sp & Hsp).
  apply (no_leading_space_prefix _ (rev sp)).
  rewrite <- rev_app_distr, <- Hsp, rev_involutive.
  apply drop_while_no_leading.
Qed.

Lemma trim_idempotent s : trim (trim s) = trim s.
Proof.
  unfold trim at 1. rewrite (drop_while_id (trim s)) by apply trim_no_leading.
  unfold trim. rewrite rev_involutive.
  rewrite (drop_while_id (drop_while isspace _)) by apply drop_while_no_leading.
  reflexivity.
Qed.

(** ** The cleaner *)

(** C3, as amended. The six substitutions run in the order of the source,
    the backslash's last, each over the whole output of the one before. In a
    text with no other backslash, a doubled backslash followed by [n], [t]
    or [r] loses its second backslash to the earlier substitution, which
    decodes it with that character into a line feed, a tab or a carriage
    return; followed by any other character that is not a backslash, a
    quote included, it becomes one backslash and the character is kept; so
    it does when nothing follows. All this is before the final trimming.
    Backslash, backslash, [n] cleans to a single backslash. *)
Theorem clean_text_escape_order :
  (forall s,
     clean_text s
     = trim (replace_escape backslash [backslash]
              (replace_escape squote [squote]
                (replace_escape dquote [dquote]
                  (replace_escape "r"%char [CR]
                    (replace_escape "t"%char [TAB]
                      (replace_escape "n"%char [LF] s)))))))
  /\ (forall s1 s2 c,
        backslash ∉ s1 -> backslash ∉ s2 ->
        c ∈ ["n"%char; "t"%char; "r"%char] ->
        clean_text (s1 ++ [backslash; backslash; c] ++ s2)
        = trim (s1 ++ [backslash; decoded c] ++ s2)
        /\ decoded c ∈ [LF; TAB; CR] /\ decoded c <> c)
  /\ (forall s1 s2 c,
        backslash ∉ s1 -> backslash ∉ s2 ->
        c ∉ ["n"%char; "t"%char; "r"%char] -> c <> backslash ->
        clean_text (s1 ++ [backslash; backslash; c] ++ s2)
        = trim (s1 ++ [backslash; c] ++ s2))
  /\ (forall s1,
        backslash ∉ s1 ->
        clean_text (s1 ++ [backslash; backslash]) = trim (s1 ++ [backslash]))
  /\ clean_text [backslash; backslash; "n"%char] = [backslash].
Proof.
  split; [|split; [|split; [|split]]].
  - intros s. unfold clean_text. rewrite unescape_steps. reflexivity.
  - intros s1 s2 c H1 H2 Hc. unfold clean_text.
    rewrite unescape_double_escape;
      [|exact H1|exact H2|
       unfold early_escape_chars;
       repeat (apply elem_of_cons in Hc as [->|Hc]); [..|inversion Hc];
       solve [ apply list_elem_of_here
             | apply list_elem_of_further, list_elem_of_here
             | do 2 apply list_elem_of_further; apply list_elem_of_here ] ].
    split; [reflexivity|].
    repeat (apply elem_of_cons in Hc as [->|Hc]); [..|inversion Hc];
      (split; [vm_compute; repeat constructor | vm_compute; discriminate]).
  - intros s1 s2 c H1 H2 Hc Hb. unfold clean_text. f_equal.
    destruct (Ascii.eqb_spec c dquote) as [->|Hd];
      [apply (unescape_double_escape s1 s2 dquote H1 H2);
       do 3 apply list_elem_of_further; apply list_elem_of_here|].
    destruct (Ascii.eqb_spec c squote) as [->|Hs];
      [apply (unescape_double_escape s1 s2 squote H1 H2);
       do 4 apply list_elem_of_further; apply list_elem_of_here|].
    apply (unescape_double_plain s1 (c :: s2) H1).
    + intros Hin. apply elem_of_cons in Hin as [Hin|Hin]; [|exact (H2 Hin)].
      apply Hb. symmetry. exact Hin.
    + cbn [head_not_escape]. unfold escape_chars. intros Hin.
      apply Hc.
      repeat (apply elem_of_cons in Hin as [->|Hin];
              [first [ apply list_elem_of_here
                     | apply list_elem_of_further, list_elem_of_here
                     | do 2 apply list_elem_of_further; apply list_elem_of_here
                     | contradiction ]|]).
      inversion Hin.
  - intros s1 H1. unfold clean_text. f_equal.
    pose proof (unescape_double_plain s1 [] H1) as H.
    rewrite !app_nil_r in H. cbn [app] in H. cbn [app]. apply H.
    + intros Hin. inversion Hin.
    + exact I.
  - vm_compute. reflexivity.
Qed.

Lemma clean_text_escape_order_witness :
  clean_text (lit "a" ++ [backslash; backslash; "n"%char] ++ lit "b")
  = lit "a" ++ [backslash; LF] ++ lit "b"
  /\ clean_text (lit "a" ++ [backslash; backslash; dquote] ++ lit "b")
     = lit "a" ++ [backslash; dquote] ++ lit "b"
  /\ clean_text (lit "a" ++ [backslash; backslash; "x"%char] ++ lit "b")
     = lit "a" ++ [backslash; "x"%char] ++ lit "b"
  /\ clean_text (lit "a" ++ [backslash; backslash])
     = lit "a" ++ [backslash].
Proof.
  destruct clean_text_escape_order as (_ & Hesc & Hkept & Hend & _).
  split; [|split; [|split]].
  - rewrite (proj1 (Hesc (lit "a") (lit "b") "n"%char
                      ltac:(solve_not_elem) ltac:(solve_not_elem)
                      ltac:(apply list_elem_of_here))).
    vm_compute. reflexivity.
  - rewrite (Hkept (lit "a") (lit "b") dquote).
    + vm_compute. reflexivity.
    + solve_not_elem.
    + solve_not_elem.
    + solve_not_elem.
    + vm_compute. discriminate.
  - rewrite (Hkept (lit "a") (lit "b") "x"%char).
    + vm_compute. reflexivity.
    + solve_not_elem.
    + solve_not_elem.
    + solve_not_elem.
    + vm_compute. discriminate.
  - rewrite (Hend (lit "a")).
    + vm_compute. reflexivity.
    + solve_not_elem.
Defined.

(** C3, as stated, fails: backslash, backslash, [n] does not clean to a
    backslash followed by [n]. The first substitution turns its last two
    characters into a newline, which the trimming then removes. *)
Lemma clean_text_double_backslash_n :
  unescape [backslash; backslash; "n"%char] = [backslash; LF]
  /\ clean_text [backslash; backslash; "n"%char] = [backslash]
  /\ clean_text [backslash; backslash; "n"%char] <> [backslash; "n"%char].
Proof.
  split; [vm_compute; reflexivity|]. split; [vm_compute; reflexivity|].
  vm_compute. discriminate.
Qed.

(** C4, as amended. Cleaning a cleaned text changes nothing when the
    cleaned text holds no escape token, that is no backslash followed by
    [n], [t], [r], a quote or a backslash. *)
Theorem clean_text_idempotent_without_token x :
  has_escape_token (clean_text x) = false ->
  clean_text (clean_text x) = clean_text x.
Proof.
  intros H. unfold clean_text at 1. rewrite unescape_no_token by exact H.
  unfold clean_text. apply trim_idempotent.
Qed.

Lemma clean_text_idempotent_without_token_witness :
  has_escape_token (clean_text (lit "  line\tone\\  ")) = false
  /\ clean_text (clean_text (lit "  line\tone\\  "))
     = clean_text (lit "  line\tone\\  ").
Proof.
  assert (H : has_escape_token (clean_text (lit "  line\tone\\  ")) = false)
    by (vm_compute; reflexivity).
  split; [exact H|]. exact (clean_text_idempotent_without_token _ H).
Defined.

(** C4, as stated, fails: four backslashes clean to two, and two to one. *)
Lemma clean_text_not_idempotent :
  clean_text (replicate 4 backslash) = replicate 2 backslash
  /\ clean_text (clean_text (replicate 4 backslash)) = [backslash]
  /\ clean_text (clean_text (replicate 4 backslash))
     <> clean_text (replicate 4 backslash).
Proof.
  split; [vm_compute; reflexivity|]. split; [vm_compute; reflexivity|].
  vm_compute. discriminate.
Qed.

(** ** Reading a file line by line *)

Lemma wrap_succ_congr a b : wrap a = wrap b -> wrap (a + 1) = wrap (b + 1).
Proof.
  unfold wrap. intros H.
  rewrite (Zplus_mod a 1), (Zplus_mod b 1), H. reflexivity.
Qed.

Lemma read_lines_congr self path lines :
  forall a b, wrap a = wrap b ->
    read_lines self path a lines = read_lines self path b lines.
Proof.
  induction lines as [|line lines IH]; intros a b H; [reflexivity|].
  cbn [read_lines]. rewrite (wrap_succ_congr a b H).
  reflexivity.
Qed.

Lemma wrap_wrap a : wrap (wrap a) = wrap a.
Proof. unfold wrap. apply Zmod_mod. Qed.

(** The chunks of the line at index [length before] carry the line number
    [line_no + length before + 1], reduced as a [size_t]. *)
Lemma read_lines_app self path before :
  forall line_no lines,
    read_lines self path line_no (before ++ lines)
    = read_lines self path line_no before
      ++ read_lines self path (line_no + Z.of_nat (length before)) lines.
Proof.
  induction before as [|line before IH]; intros line_no lines.
  - cbn [app read_lines length]. rewrite Z.add_0_r. reflexivity.
  - cbn [app read_lines]. rewrite IH, <- app_assoc. do 2 f_equal.
    apply read_lines_congr. cbn [length].
    unfold wrap. rewrite Zplus_mod_idemp_l. f_equal. lia.
Qed.

Lemma read_lines_elem self path lines :
  forall line_no c,
    c ∈ read_lines self path line_no lines ->
    exists (k : nat) line,
      lines !! k = Some line
      /\ c ∈ chunks_of_line self path (wrap (line_no + Z.of_nat k + 1)) line.
Proof.
  induction lines as [|line lines IH]; intros line_no c Hc; [inversion Hc|].
  cbn [read_lines] in Hc. apply elem_of_app in Hc as [Hc|Hc].
  - exists 0%nat, line. split; [reflexivity|].
    replace (line_no + Z.of_nat 0 + 1) with (line_no + 1) by lia. exact Hc.
  - destruct (IH _ _ Hc) as (k & l & Hk & Hin). exists (S k), l.
    split; [exact Hk|].
    replace (wrap (line_no + Z.of_nat (S k) + 1))
      with (wrap (wrap (line_no + 1) + Z.of_nat k + 1)); [exact Hin|].
    unfold wrap. rewrite <- Z.add_assoc, Zplus_mod_idemp_l. f_equal. lia.
Qed.

(** ** Scenario A *)

Lemma chunks_of_line_hello path line_no :
  chunks_of_line default_extractor path line_no hello_line
  = [ mkTextChunk (lit "Hello World") path line_no 7 18 hello_line hello_line ].
Proof. vm_compute. reflexivity. Qed.

Lemma chunks_of_name_hello path line_no :
  chunks_of_pattern default_extractor path line_no hello_line (key_value_re "name")
  = [ mkTextChunk (lit "Hello World") path line_no 7 18 hello_line hello_line ].
Proof. vm_compute. reflexivity. Qed.

(** The rule that line 21 is meant to build would find the quoted literal
    of the line. *)
Lemma chunks_of_quote_hello path line_no :
  chunks_of_pattern default_extractor path line_no hello_line double_quoted_re
  = [ mkTextChunk (lit "Hello World") path line_no 7 18 hello_line hello_quoted ].
Proof. vm_compute. reflexivity. Qed.

(** The rules of the registry are applied one after the other to the whole
    line and do not exclude each other: the same value in single quotes is
    found twice, by the single-quoted rule and by the [name] rule. *)
Lemma chunks_of_line_single_quoted path line_no :
  chunks_of_line default_extractor path line_no (lit "name: 'Hello World'")
  = [ mkTextChunk (lit "Hello World") path line_no 7 18
        (lit "name: 'Hello World'") (lit "'Hello World'");
      mkTextChunk (lit "Hello World") path line_no 7 18
        (lit "name: 'Hello World'") (lit "name: 'Hello World'") ].
Proof. vm_compute. reflexivity. Qed.

Lemma chunks_of_line_context self path line_no line c :
  c ∈ chunks_of_line self path line_no line -> context c = line.
Proof.
  intros Hc. unfold chunks_of_line, chunks_of_pattern in Hc.
  apply list_elem_of_In, in_flat_map in Hc as (r & _ & Hc).
  apply in_flat_map in Hc as (m & _ & Hc). unfold chunk_of_match in Hc.
  destruct (min_text_length self <=? _); [|inversion Hc].
  destruct Hc as [<-|[]]. reflexivity.
Qed.

(** The raw string literal of line 21 ends before the parenthesis that is
    to close group 1: its content is [line21_pattern], and the line goes on
    with a parenthesis and a single double quote, so that the literal this
    quote opens is left unclosed. *)
Lemma line21_raw_string :
  raw_string line21_after_open = Some (line21_pattern, line21_rest)
  /\ length (List.filter (Ascii.eqb dquote) line21_rest) = 1%nat.
Proof. split; vm_compute; reflexivity. Qed.

(** The pattern of line 21 leaves one group unclosed; with the two
    characters that the literal loses, no group is. *)
Lemma line21_pattern_unbalanced :
  unclosed_groups false line21_pattern = 1
  /\ unclosed_groups false (line21_pattern ++ lit ")" ++ [dquote]) = 0.
Proof. split; vm_compute; reflexivity. Qed.

Lemma double_quoted_re_not_default :
  double_quoted_re ∉ text_patterns default_extractor.
Proof.
  intros H. vm_compute in H.
  repeat (apply elem_of_cons in H as [H|H]; [discriminate H|]).
  inversion H.
Qed.

(** C7. The source as written builds no double-quoted rule: the raw string
    literal of line 21 ends early, on a pattern with an unclosed group. In
    every file that opens and holds the line [name: ] followed by
    [Hello World] in double quotes, that line yields one chunk only, the one
    of the [name] rule, whose [original_text] is the whole line; no chunk
    found on such a line has the quoted literal as its [original_text]. *)
Theorem extract_scenario_a_as_written fs path content before after :
  fs_open fs path = Some content ->
  getlines content = before ++ hello_line :: after ->
  let found := fst (extract_from_file default_extractor fs path) in
  let line_no := wrap (Z.of_nat (length before) + 1) in
  let by_name :=
    mkTextChunk (lit "Hello World") path line_no 7 18 hello_line hello_line in
  raw_string line21_after_open = Some (line21_pattern, line21_rest)
  /\ unclosed_groups false line21_pattern = 1
  /\ (double_quoted_re ∉ text_patterns default_extractor)
  /\ key_value_re "name" ∈ text_patterns default_extractor
  /\ chunks_of_pattern default_extractor path line_no hello_line
       (key_value_re "name") = [by_name]
  /\ chunks_of_line default_extractor path line_no hello_line = [by_name]
  /\ by_name ∈ found
  /\ (forall c, c ∈ found -> context c = hello_line ->
        text c = lit "Hello World" /\ original_text c = hello_line)
  /\ hello_line <> hello_quoted.
Proof.
  intros Hopen Hlines found line_no by_name.
  split; [apply line21_raw_string|].
  split; [apply line21_pattern_unbalanced|].
  split; [apply double_quoted_re_not_default|].
  split; [do 6 apply list_elem_of_further; apply list_elem_of_here|].
  split; [apply chunks_of_name_hello|].
  split; [apply chunks_of_line_hello|].
  split; [|split; [|vm_compute; discriminate]].
  - subst found. unfold extract_from_file. rewrite Hopen, Hlines. cbn [fst].
    rewrite read_lines_app. apply elem_of_app. right.
    cbn [read_lines]. apply elem_of_app. left.
    replace (wrap (0 + Z.of_nat (length before) + 1)) with line_no
      by (subst line_no; f_equal; lia).
    clearbody line_no. rewrite chunks_of_line_hello. apply list_elem_of_here.
  - intros c Hc Hctx. subst found. unfold extract_from_file in Hc.
    rewrite Hopen in Hc. cbn [fst] in Hc.
    destruct (read_lines_elem _ _ _ _ _ Hc) as (k & line & _ & Hin).
    pose proof (chunks_of_line_context _ _ _ _ _ Hin) as Hline.
    rewrite Hctx in Hline. subst line.
    generalize dependent (wrap (0 + Z.of_nat k + 1)). intros n Hin.
    rewrite chunks_of_line_hello in Hin.
    apply list_elem_of_singleton in Hin as ->. split; reflexivity.
Qed.

Lemma extract_scenario_a_as_written_witness :
  fs_open sample_fs (lit "a.txt") = Some sample_content
  /\ getlines sample_content = [lit "x"] ++ hello_line :: []
  /\ fst (extract_from_file default_extractor sample_fs (lit "a.txt"))
     = [ mkTextChunk (lit "Hello World") (lit "a.txt") 2 7 18 hello_line
           hello_line ]
  /\ forall c,
       c ∈ fst (extract_from_file default_extractor sample_fs (lit "a.txt")) ->
       context c = hello_line -> original_text c = hello_line.
Proof.
  assert (Ho : fs_open sample_fs (lit "a.txt") = Some sample_content)
    by (vm_compute; reflexivity).
  assert (Hl : getlines sample_content = [lit "x"] ++ hello_line :: [])
    by (vm_compute; reflexivity).
  split; [exact Ho|]. split; [exact Hl|].
  split; [vm_compute; reflexivity|].
  destruct (extract_scenario_a_as_written sample_fs (lit "a.txt") sample_content
              [lit "x"] [] Ho Hl)
    as (_ & _ & _ & _ & _ & _ & _ & Hall & _).
  intros c Hc Hctx. exact (proj2 (Hall c Hc Hctx)).
Defined.

(** ** Invariants of the matcher *)

Lemma caps_ok_mono hi hi' caps : hi <= hi' -> caps_ok hi caps -> caps_ok hi' caps.
Proof.
  intros Hle H. unfold caps_ok in *. eapply Forall_impl; [exact H|].
  intros cap (Ha & Hb). cbv beta. lia.
Qed.

Section MatcherInvariant.

Variable hi : Z.

Lemma step_char_ok p : step_ok hi (step_char p).
Proof.
  intros st st' (Hp & Hr & Hc) Hin. unfold step_char in Hin.
  destruct (m_rest st) as [|c rest'] eqn:E; [inversion Hin|].
  destruct (p c); [|inversion Hin].
  destruct Hin as [<-|[]]. unfold state_ok.
  cbn [m_pos m_rest m_caps length] in *.
  split; [|lia]. split; [lia|]. split; [lia|].
  apply (caps_ok_mono (m_pos st)); [lia | exact Hc].
Qed.

Lemma star_iter_ok step :
  step_ok hi step -> forall fuel, step_ok hi (star_iter step fuel).
Proof.
  intros Hstep. induction fuel as [|fuel IH]; intros st st' Hst Hin.
  - destruct Hin as [<-|[]]. split; [exact Hst | lia].
  - cbn [star_iter] in Hin. apply in_app_or in Hin as [Hin|[<-|[]]].
    + apply in_flat_map in Hin as (st1 & H1 & Hin).
      destruct (Hstep st st1 Hst H1) as (Hok1 & Hle1).
      destruct (m_pos st <? m_pos st1); [|inversion Hin].
      destruct (IH st1 st' Hok1 Hin) as (Hok' & Hle'). split; [exact Hok' | lia].
    + split; [exact Hst | lia].
Qed.

Lemma rmatch_ok r : step_ok hi (rmatch r).
Proof.
  induction r as [|c| | |cs|cs|r1 IH1 r2 IH2|r IH|r IH|n r IH];
    try (cbn [rmatch]; apply step_char_ok).
  - intros st st' Hst [<-|[]]. split; [exact Hst | lia].
  - intros st st' Hst Hin. cbn [rmatch] in Hin.
    apply in_flat_map in Hin as (st1 & H1 & Hin).
    destruct (IH1 st st1 Hst H1) as (Hok1 & Hle1).
    destruct (IH2 st1 st' Hok1 Hin) as (Hok' & Hle'). split; [exact Hok' | lia].
  - intros st st' Hst Hin. cbn [rmatch] in Hin.
    exact (star_iter_ok (rmatch r) IH _ st st' Hst Hin).
  - intros st st' Hst Hin. cbn [rmatch] in Hin.
    apply in_flat_map in Hin as (st1 & H1 & Hin).
    destruct (IH st st1 Hst H1) as (Hok1 & Hle1).
    destruct (star_iter_ok (rmatch r) IH _ st1 st' Hok1 Hin) as (Hok' & Hle').
    split; [exact Hok' | lia].
  - intros st st' Hst Hin. cbn [rmatch] in Hin.
    apply in_map_iff in Hin as (st1 & <- & H1).
    destruct (IH st st1 Hst H1) as ((Hp & Hr & Hc) & Hle1).
    unfold close_group. cbn [m_pos m_rest m_caps].
    split; [|exact Hle1]. split; [exact Hp|]. split; [exact Hr|].
    constructor; [|exact Hc]. cbv beta. cbn [fst snd m_pos].
    destruct Hst as (Hp0 & _). lia.
Qed.

Lemma match_at_ok r not_null prefix pos rest m :
  0 <= pos -> pos + Z.of_nat (length rest) = hi ->
  match_at r not_null prefix pos rest = Some m ->
  match_ok hi m.
Proof.
  intros Hpos Hhi H. unfold match_at in H.
  destruct (List.find _ _) as [st|] eqn:E; [|discriminate].
  injection H as <-. apply find_some in E as [Hin _].
  destruct (rmatch_ok r (mkState pos rest []) st) as ((Hp & Hr & Hc) & Hle).
  - split; [exact Hpos|]. split; [exact Hhi | constructor].
  - exact Hin.
  - cbn [m_pos] in Hle. unfold match_ok. cbn [mr_first mr_second mr_suffix mr_caps].
    split; [lia|]. split; [exact Hr|].
    apply (caps_ok_mono (m_pos st)); [lia | exact Hc].
Qed.

Lemma search_from_ok r rest :
  forall prefix pos m,
    0 <= pos -> pos + Z.of_nat (length rest) = hi ->
    search_from r prefix pos rest = Some m ->
    match_ok hi m.
Proof.
  induction rest as [|c rest IH]; intros prefix pos m Hpos Hhi H;
    cbn [search_from] in H;
    destruct (match_at r false prefix pos _) as [m0|] eqn:E.
  - injection H as <-. exact (match_at_ok _ _ _ _ _ _ Hpos Hhi E).
  - discriminate.
  - injection H as <-. exact (match_at_ok _ _ _ _ _ _ Hpos Hhi E).
  - cbn [length] in Hhi. apply (IH (prefix ++ [c]) (pos + 1) m); [lia | lia | exact H].
Qed.

Lemma iter_next_ok r fuel :
  forall m m', match_ok hi m -> In m' (iter_next fuel r m) -> match_ok hi m'.
Proof.
  induction fuel as [|fuel IH]; intros m m' Hm Hin; [inversion Hin|].
  cbn [iter_next] in Hin. destruct Hm as (Hf & Hs & Hc).
  assert (Hcont : forall o,
             (forall m1, o = Some m1 -> match_ok hi m1) ->
             In m' (match o with
                    | Some m1 => m1 :: iter_next fuel r m1
                    | None => []
                    end) -> match_ok hi m').
  { intros [m1|] Ho Hin'; [|inversion Hin'].
    destruct Hin' as [<-|Hin']; [apply Ho; reflexivity|].
    apply (IH m1 m' (Ho m1 eq_refl) Hin'). }
  destruct (mr_first m =? mr_second m).
  - destruct (mr_suffix m) as [|c rest'] eqn:Esuf; [inversion Hin|].
    destruct (match_at r true [] (mr_second m) (c :: rest')) as [m1|] eqn:E.
    + apply (Hcont (Some m1)); [|exact Hin].
      intros m2 [= <-].
      apply (match_at_ok r true [] (mr_second m) (c :: rest') m1); [lia | exact Hs | exact E].
    + cbn [length] in Hs. eapply Hcont; [|exact Hin].
      intros m1 H1.
      apply (search_from_ok r rest' [c] (mr_second m + 1) m1); [lia | lia | exact H1].
  - eapply Hcont; [|exact Hin]. intros m1 H1.
    apply (search_from_ok r (mr_suffix m) [] (mr_second m) m1); [lia | exact Hs | exact H1].
Qed.

End MatcherInvariant.

Lemma regex_iterator_ok r line m :
  In m (regex_iterator r line) -> match_ok (str_length line) m.
Proof.
  unfold regex_iterator. intros Hin.
  destruct (search_from r [] 0 line) as [m0|] eqn:E; [|inversion Hin].
  assert (H0 : match_ok (str_length line) m0).
  { apply (search_from_ok _ r line [] 0 m0); [lia | unfold str_length; lia | exact E]. }
  destruct Hin as [<-|Hin]; [exact H0|].
  exact (iter_next_ok _ r _ m0 m H0 Hin).
Qed.

Lemma lookup_cap_in n caps span :
  lookup_cap n caps = Some span -> In (n, span) caps.
Proof.
  induction caps as [|[k sp] caps IH]; cbn [lookup_cap]; [discriminate|].
  destruct (Nat.eqb_spec k n) as [->|_].
  - intros [= ->]. left. reflexivity.
  - intros H. right. exact (IH H).
Qed.

Lemma sub_span_ok line m n :
  match_ok (str_length line) m ->
  0 <= fst (sub_span line m n) <= snd (sub_span line m n)
  /\ snd (sub_span line m n) <= str_length line.
Proof.
  intros (Hf & Hs & Hc). pose proof (str_length_nonneg line) as Hlen.
  unfold sub_span. destruct n as [|n]; cbn [fst snd]; [lia|].
  destruct (lookup_cap (S n) (mr_caps m)) as [span|] eqn:E; cbn [fst snd]; [|lia].
  apply lookup_cap_in in E. unfold caps_ok in Hc. rewrite Forall_forall in Hc.
  apply list_elem_of_In in E. exact (Hc _ E).
Qed.

(** ** Lengths *)

Lemma replace_escape_length c d s :
  (length (replace_escape c [d] s) <= length s)%nat.
Proof.
  assert (H : forall n s, (length s <= n)%nat ->
                          (length (replace_escape c [d] s) <= length s)%nat).
  { clear s. induction n as [|n IH]; intros s Hn.
    - destruct s; [reflexivity | cbn [length] in Hn; lia].
    - destruct s as [|a [|b s]]; [reflexivity | reflexivity |].
      rewrite replace_escape_cons2. cbn [length] in Hn.
      destruct (Ascii.eqb backslash a && Ascii.eqb c b).
      + cbn [app length]. specialize (IH s ltac:(lia)). lia.
      + cbn [length]. specialize (IH (b :: s) ltac:(cbn [length]; lia)).
        cbn [length] in IH. lia. }
  apply (H (length s)). reflexivity.
Qed.

Lemma unescape_length s : (length (unescape s) <= length s)%nat.
Proof.
  rewrite unescape_steps.
  repeat (etransitivity; [apply replace_escape_length|]). reflexivity.
Qed.

Lemma drop_while_length p s : (length (drop_while p s) <= length s)%nat.
Proof.
  induction s as [|c s IH]; [reflexivity|]. cbn [drop_while].
  destruct (p c); cbn [length]; lia.
Qed.

Lemma trim_length s : (length (trim s) <= length s)%nat.
Proof.
  unfold trim. rewrite length_rev.
  etransitivity; [apply drop_while_length|]. rewrite length_rev.
  apply drop_while_length.
Qed.

Lemma clean_text_length s : str_length (clean_text s) <= str_length s.
Proof.
  unfold clean_text, str_length.
  pose proof (trim_length (unescape s)). pose proof (unescape_length s). lia.
Qed.

Lemma substr_length_le (s : cstring) pos n : str_length (substr s pos n) <= str_length s.
Proof. unfold substr, str_length. rewrite length_take, length_drop. lia. Qed.

Lemma getlines_bounds content :
  (length (getlines content) <= length content)%nat
  /\ Forall (fun line => (length line <= length content)%nat) (getlines content).
Proof.
  induction content as [|c rest (IHn & IHl)]; [split; [reflexivity | constructor]|].
  cbn [getlines length].
  assert (Hweak : Forall (fun line => (length line <= S (length rest))%nat)
                         (getlines rest)).
  { eapply Forall_impl; [exact IHl|]. intros line H. cbv beta in *. lia. }
  destruct (Ascii.eqb c LF).
  - split; [cbn [length]; lia|]. constructor; [cbn [length]; lia | exact Hweak].
  - destruct (getlines rest) as [|l ls].
    + split; [cbn [length]; lia|]. constructor; [cbn [length]; lia | constructor].
    + cbn [length] in *. split; [lia|].
      inversion IHl as [|? ? Hl Hls]; subst. inversion Hweak; subst.
      constructor; [cbn [length]; lia | assumption].
Qed.

(** ** Invariants of the chunks of a file *)

Lemma chunk_of_match_inv self path line_no line m c :
  fits_string line -> match_ok (str_length line) m ->
  c ∈ chunk_of_match self path line_no line m ->
  line_number c = line_no
  /\ column_start c <= column_end c
  /\ min_text_length self <= str_length (text c)
  /\ str_length (text c) <= str_length line.
Proof.
  intros Hfit Hm Hc. unfold chunk_of_match in Hc.
  destruct (Z.leb_spec (min_text_length self)
              (str_length (clean_text (sub_str line m 1)))) as [Hmin|_];
    [|inversion Hc].
  apply list_elem_of_singleton in Hc as ->.
  cbn [line_number column_start column_end text].
  split; [reflexivity|].
  pose proof (sub_span_ok line m 1 Hm) as (Hspan & Hhi).
  unfold position, length_of. unfold fits_string in Hfit.
  split; [|split; [exact Hmin|]].
  - rewrite !wrap_small by (size_consts; lia). lia.
  - etransitivity; [apply clean_text_length|]. apply substr_length_le.
Qed.

Lemma chunks_of_line_inv self path line_no line c :
  fits_string line ->
  c ∈ chunks_of_line self path line_no line ->
  line_number c = line_no
  /\ column_start c <= column_end c
  /\ min_text_length self <= str_length (text c)
  /\ str_length (text c) <= str_length line.
Proof.
  intros Hfit Hc. unfold chunks_of_line, chunks_of_pattern in Hc.
  apply list_elem_of_In, in_flat_map in Hc as (r & _ & Hc).
  apply in_flat_map in Hc as (m & Hm & Hc).
  apply (chunk_of_match_inv self path line_no line m c Hfit).
  - apply (regex_iterator_ok r line m Hm).
  - apply list_elem_of_In. exact Hc.
Qed.

Lemma extract_from_file_inv self fs path c :
  (forall content, fs_open fs path = Some content -> fits_string content) ->
  c ∈ fst (extract_from_file self fs path) ->
  1 <= line_number c
  /\ column_start c <= column_end c
  /\ min_text_length self <= str_length (text c)
  /\ fits_string (text c).
Proof.
  intros Hfit Hc. unfold extract_from_file in Hc.
  destruct (fs_open fs path) as [content|]; [|inversion Hc].
  specialize (Hfit content eq_refl). cbn [fst] in Hc.
  destruct (read_lines_elem _ _ _ _ _ Hc) as (k & line & Hk & Hin).
  destruct (getlines_bounds content) as (Hn & Hl).
  rewrite Forall_forall in Hl.
  assert (Hline : (length line <= length content)%nat).
  { apply Hl. apply list_elem_of_lookup. eauto. }
  apply lookup_lt_Some in Hk.
  unfold fits_string, str_length in *.
  destruct (chunks_of_line_inv self path _ line c ltac:(unfold fits_string, str_length; lia) Hin)
    as (Hno & Hcol & Hmin & Hlen).
  rewrite Hno. unfold str_length in *.
  rewrite wrap_small by (size_consts; lia).
  repeat split; try assumption; lia.
Qed.

Lemma extract_all_elem self fs files c :
  c ∈ fst (extract_all self fs files) ->
  exists path, path ∈ files /\ c ∈ fst (extract_from_file self fs path).
Proof.
  induction files as [|path files IH]; cbn [extract_all]; [intros H; inversion H|].
  destruct (extract_from_file self fs path) as [file_chunks log] eqn:E.
  destruct (extract_all self fs files) as [rest log'].
  cbn [fst] in *. intros Hc. apply elem_of_app in Hc as [Hc|Hc].
  - exists path. split; [apply list_elem_of_here|]. rewrite E. exact Hc.
  - destruct (IH Hc) as (p & Hp & Hin). exists p.
    split; [apply list_elem_of_further; exact Hp | exact Hin].
Qed.

Lemma enough_fuel_exists chunks : exists fuel, enough_fuel fuel chunks.
Proof.
  unfold enough_fuel. induction chunks as [|c chunks (fuel & IH)].
  - exists 0%nat. constructor.
  - exists (S (length (text c)) + fuel)%nat. constructor; [lia|].
    eapply Forall_impl; [exact IH|]. intros x Hx. cbv beta in *. lia.
Qed.

(** What a piece of the output inherits from the chunk it comes from. *)
Lemma pieces_of_elem max_chunk_size fuel c piece f :
  0 <= max_chunk_size -> fits_string (text c) ->
  pieces_of max_chunk_size fuel c = Some piece -> f ∈ piece ->
  str_length (text f) <= max_chunk_size
  /\ line_number f = line_number c
  /\ column_start f = column_start c
  /\ column_end f = column_end c.
Proof.
  intros Hmax Hfit Hp Hf. unfold pieces_of in Hp.
  destruct (Z.leb_spec (str_length (text c)) max_chunk_size) as [Hle|Hgt].
  - injection Hp as <-. apply list_elem_of_singleton in Hf as ->. auto.
  - rewrite split_loop_cuts in Hp.
    destruct (Splitter.split_cuts max_chunk_size fuel (text c) 0) as [cuts|] eqn:E;
      [|discriminate].
    injection Hp as <-.
    pose proof (split_cuts_ok max_chunk_size (text c) Hfit ltac:(lia)
                  fuel 0 cuts ltac:(lia) E) as Hok.
    rewrite Forall_forall in Hok.
    destruct (fragments_of_cuts_elem _ _ _ _ Hf) as (s & e & b & id & Hcut & ->).
    destruct (Hok _ Hcut) as (Hs & He & _ & _ & Hsz). subst e.
    rewrite (fragment_length max_chunk_size (text c) s Hfit ltac:(lia) Hs c id eq_refl).
    auto.
Qed.

(** ** Invariants of the pipeline *)

(** C9. Every chunk of the pipeline has [line_number >= 1] and
    [column_start <= column_end]; when [extract_from_file] creates it, its
    cleaned text has at least [min_text_length] characters; and after
    [split_into_chunks] the text of every chunk has at most [max_chunk_size]
    characters. *)
Theorem pipeline_chunk_invariants self fs directory_path :
  (forall path content, fs_open fs path = Some content -> fits_string content) ->
  1 <= max_chunk_size self ->
  (forall path c,
     c ∈ fst (extract_from_file self fs path) ->
     1 <= line_number c
     /\ column_start c <= column_end c
     /\ min_text_length self <= str_length (text c))
  /\ (exists fuel out, extract_texts fuel self fs directory_path = Some out)
  /\ (forall fuel result log,
        extract_texts fuel self fs directory_path = Some (result, log) ->
        forall c, c ∈ chunks result ->
          1 <= line_number c
          /\ column_start c <= column_end c
          /\ str_length (text c) <= max_chunk_size self).
Proof.
  intros Hfs Hmax.
  assert (Hall : forall files c,
             c ∈ fst (extract_all self fs files) ->
             1 <= line_number c /\ column_start c <= column_end c
             /\ fits_string (text c)).
  { intros files c Hc. destruct (extract_all_elem _ _ _ _ Hc) as (path & _ & Hin).
    destruct (extract_from_file_inv self fs path c (Hfs path) Hin)
      as (H1 & H2 & _ & H4). auto. }
  split; [|split].
  - intros path c Hc.
    destruct (extract_from_file_inv self fs path c (Hfs path) Hc)
      as (H1 & H2 & H3 & _). auto.
  - unfold extract_texts.
    destruct (scan_directory self fs directory_path) as [files scan_log].
    destruct (extract_all self fs files) as [all_chunks log] eqn:E.
    destruct (enough_fuel_exists all_chunks) as [fuel Hfuel].
    destruct (split_into_chunks_terminates (max_chunk_size self) all_chunks fuel
                Hmax) as [result Hres].
    + apply Forall_forall. intros c Hc. apply (Hall files c). rewrite E. exact Hc.
    + exact Hfuel.
    + exists fuel. rewrite Hres. eexists. reflexivity.
  - intros fuel result log H c Hc. unfold extract_texts in H.
    destruct (scan_directory self fs directory_path) as [files scan_log].
    destruct (extract_all self fs files) as [all_chunks log0] eqn:E.
    destruct (Splitter.split_into_chunks (max_chunk_size self) fuel all_chunks)
      as [split|] eqn:Es; [|discriminate].
    injection H as <- _. cbn [chunks] in Hc.
    destruct (split_into_chunks_Some _ _ _ _ Es) as (_ & Hout).
    destruct (Hout c Hc) as (c0 & piece & Hc0 & Hp & Hin).
    assert (Hc0' : c0 ∈ fst (extract_all self fs files)) by (rewrite E; exact Hc0).
    destruct (Hall files c0 Hc0') as (H1 & H2 & H3).
    destruct (pieces_of_elem (max_chunk_size self) fuel c0 piece c) as (Hb & -> & -> & ->);
      [lia | exact H3 | exact Hp | exact Hin |].
    auto.
Qed.

Lemma pipeline_chunk_invariants_witness :
  (forall path content,
     fs_open sample_fs path = Some content -> fits_string content)
  /\ 1 <= max_chunk_size default_extractor
  /\ Forall (fun c => 1 <= line_number c /\ column_start c <= column_end c
                      /\ str_length (text c) <= max_chunk_size default_extractor)
       (default [] (chunks ∘ fst <$> extract_texts 12 default_extractor sample_fs [])).
Proof.
  assert (Hfs : forall path content,
             fs_open sample_fs path = Some content -> fits_string content).
  { intros path content. cbn [fs_open sample_fs].
    destruct (bool_decide (path = lit "a.txt")); [|discriminate].
    intros [= <-]. vm_compute. reflexivity. }
  assert (Hmax : 1 <= max_chunk_size default_extractor) by (vm_compute; discriminate).
  split; [exact Hfs|]. split; [exact Hmax|].
  destruct (extract_texts 12 default_extractor sample_fs []) as [[result log]|] eqn:E;
    [|constructor].
  apply Forall_forall.
  exact (proj2 (proj2 (pipeline_chunk_invariants default_extractor sample_fs []
                         Hfs Hmax)) 12%nat result log E).
Defined.

Example extract_texts_sample :
  extract_texts 12 default_extractor sample_fs []
  = Some ({| chunks :=
               [ mkTextChunk (lit "Hello World") (lit "a.txt") 2 7 18
                   hello_line hello_line ];
             total_files_processed := 2;
             total_texts_found := 1 |}, []).
Proof. vm_compute. reflexivity. Qed.

(** ** A file that cannot be opened *)

Lemma extract_all_log self fs files : snd (extract_all self fs files) = [].
Proof.
  induction files as [|path files IH]; [reflexivity|]. cbn [extract_all].
  unfold extract_from_file.
  destruct (fs_open fs path); destruct (extract_all self fs files);
    cbn [snd app] in *; exact IH.
Qed.

Lemma extract_all_app self fs files1 files2 :
  fst (extract_all self fs (files1 ++ files2))
  = fst (extract_all self fs files1) ++ fst (extract_all self fs files2).
Proof.
  induction files1 as [|path files1 IH]; [reflexivity|].
  cbn [app extract_all].
  destruct (extract_from_file self fs path) as [file_chunks log].
  destruct (extract_all self fs (files1 ++ files2)) as [rest log1].
  destruct (extract_all self fs files1) as [rest1 log2].
  cbn [fst] in *. rewrite IH, app_assoc. reflexivity.
Qed.

(** C8, what the code does. A scanned file that cannot be opened is counted
    in [total_files_processed], gives no chunk, and leaves the chunks of the
    other files as they are; but the call writes nothing about it: the only
    lines on [std::cerr] are those of the scan. *)
Theorem unopened_file_is_silent self fs directory_path path :
  path ∈ fst (scan_directory self fs directory_path) ->
  fs_open fs path = None ->
  extract_from_file self fs path = ([], [])
  /\ (forall before after,
        extract_all self fs (before ++ path :: after)
        = extract_all self fs (before ++ after))
  /\ (forall fuel result log,
        extract_texts fuel self fs directory_path = Some (result, log) ->
        total_files_processed result
        = Z.of_nat (length (fst (scan_directory self fs directory_path)))
        /\ 1 <= total_files_processed result
        /\ log = snd (scan_directory self fs directory_path)).
Proof.
  intros Hin Hopen.
  assert (Hfile : extract_from_file self fs path = ([], []))
    by (unfold extract_from_file; rewrite Hopen; reflexivity).
  split; [exact Hfile|]. split.
  - intros before after.
    rewrite (surjective_pairing (extract_all self fs (before ++ path :: after))).
    rewrite (surjective_pairing (extract_all self fs (before ++ after))).
    rewrite !extract_all_log, !extract_all_app. cbn [extract_all].
    rewrite Hfile. destruct (extract_all self fs after). reflexivity.
  - intros fuel result log H. unfold extract_texts in H.
    destruct (scan_directory self fs directory_path) as [files scan_log].
    cbn [fst snd] in *.
    pose proof (extract_all_log self fs files) as Hlog.
    destruct (extract_all self fs files) as [all_chunks log0]. cbn [snd] in Hlog.
    destruct (Splitter.split_into_chunks _ _ _) as [split|]; [|discriminate].
    injection H as <- <-. cbn [total_files_processed]. subst log0.
    split; [reflexivity|]. split; [|apply app_nil_r].
    destruct files; [inversion Hin | cbn [length]; lia].
Qed.

Lemma unopened_file_is_silent_witness :
  lit "gone.txt" ∈ fst (scan_directory default_extractor sample_fs [])
  /\ fs_open sample_fs (lit "gone.txt") = None
  /\ extract_from_file default_extractor sample_fs (lit "gone.txt") = ([], [])
  /\ exists result,
       extract_texts 12 default_extractor sample_fs [] = Some (result, [])
       /\ total_files_processed result = 2.
Proof.
  assert (Hin : lit "gone.txt" ∈ fst (scan_directory default_extractor sample_fs []))
    by (vm_compute; apply list_elem_of_here).
  assert (Hopen : fs_open sample_fs (lit "gone.txt") = None)
    by (vm_compute; reflexivity).
  destruct (unopened_file_is_silent default_extractor sample_fs []
              (lit "gone.txt") Hin Hopen) as (Hfile & _ & Hrun).
  split; [exact Hin|]. split; [exact Hopen|]. split; [exact Hfile|].
  destruct (extract_texts 12 default_extractor sample_fs []) as [[result log]|] eqn:E;
    [|vm_compute in E; discriminate E].
  destruct (Hrun 12%nat result log E) as (Hcount & _ & Hlog).
  exists result. split.
  - rewrite Hlog. reflexivity.
  - rewrite Hcount. vm_compute. reflexivity.
Defined.

(** ** Reading a worksheet *)

Lemma getlines_line l rest :
  LF ∉ l -> getlines (l ++ LF :: rest) = l :: getlines rest.
Proof.
  induction l as [|c l IH]; intros Hl.
  - reflexivity.
  - apply not_elem_of_cons in Hl as [Hc Hl]. cbn [app getlines].
    destruct (Ascii.eqb_spec c LF) as [->|_]; [congruence|].
    rewrite (IH Hl). reflexivity.
Qed.

Lemma getlines_line_app l rest :
  LF ∉ l -> getlines (l ++ [LF] ++ rest) = l :: getlines rest.
Proof. apply getlines_line. Qed.

Lemma digits_single_line d : LF ∉ lit (NilEmpty.string_of_uint d).
Proof.
  unfold lit.
  induction d; cbn [NilEmpty.string_of_uint list_ascii_of_string];
    [apply not_elem_of_nil | ..];
    (apply not_elem_of_cons; split; [discriminate | exact IHd]).
Qed.

Lemma to_string_single_line n : single_line (to_string n).
Proof.
  unfold single_line, to_string, NilZero.string_of_uint.
  destruct (N.to_uint (Z.to_N n)) eqn:E;
    try (rewrite <- E; apply digits_single_line).
  cbn. apply not_elem_of_cons. split; [discriminate | apply not_elem_of_nil].
Qed.

Lemma single_line_app a b : single_line a -> single_line b -> single_line (a ++ b).
Proof. unfold single_line. intros Ha Hb. apply not_elem_of_app. auto. Qed.

Lemma single_line_lit_ID : single_line (lit "ID: ").
Proof. unfold single_line. solve_not_elem. Qed.

Lemma single_line_lit_File : single_line (lit "File: ").
Proof. unfold single_line. solve_not_elem. Qed.

Lemma single_line_lit_Line : single_line (lit "Line: ").
Proof. unfold single_line. solve_not_elem. Qed.

Lemma single_line_lit_Original : single_line (lit "Original: ").
Proof. unfold single_line. solve_not_elem. Qed.

Lemma single_line_lit_Translation : single_line (lit "Translation: ").
Proof. unfold single_line. solve_not_elem. Qed.

Lemma getlines_record_text id file line original translation rest :
  single_line file -> single_line original -> single_line translation ->
  getlines (record_text id file line original translation ++ rest)
  = [ lit "ID: " ++ to_string id; lit "File: " ++ file;
      lit "Line: " ++ to_string line; lit "Original: " ++ original;
      lit "Translation: " ++ translation; lit "---"; [] ]
    ++ getlines rest.
Proof.
  intros Hf Ho Ht. unfold record_text.
  repeat rewrite <- app_assoc.
  rewrite (app_assoc (lit "ID: ")), getlines_line_app
    by (apply single_line_app; [apply single_line_lit_ID | apply to_string_single_line]).
  rewrite (app_assoc (lit "File: ")), getlines_line_app
    by (apply single_line_app; [apply single_line_lit_File | exact Hf]).
  rewrite (app_assoc (lit "Line: ")), getlines_line_app
    by (apply single_line_app; [apply single_line_lit_Line | apply to_string_single_line]).
  rewrite (app_assoc (lit "Original: ")), getlines_line_app
    by (apply single_line_app; [apply single_line_lit_Original | exact Ho]).
  rewrite (app_assoc (lit "Translation: ")), getlines_line_app
    by (apply single_line_app; [apply single_line_lit_Translation | exact Ht]).
  reflexivity.
Qed.

Lemma getlines_records rs rest :
  Forall well_formed rs ->
  getlines (flat_map render_record rs ++ rest)
  = flat_map record_lines rs ++ getlines rest.
Proof.
  induction 1 as [|r rs (Hf & Ho & Ht) _ IH]; [reflexivity|].
  cbn [flat_map]. unfold render_record at 1. rewrite <- !app_assoc.
  rewrite getlines_record_text by assumption. rewrite IH. reflexivity.
Qed.

Lemma getlines_worksheet rs rest :
  Forall well_formed rs ->
  getlines (worksheet rs ++ rest)
  = [lit "=== MASTER TRANSLATION FILE ==="; []]
    ++ flat_map record_lines rs ++ getlines rest.
Proof.
  intros Hwf. unfold worksheet, master_header. rewrite <- !app_assoc.
  change [LF; LF] with ([LF] ++ [LF]). rewrite <- !app_assoc.
  rewrite getlines_line_app.
  - change ([LF] ++ flat_map render_record rs ++ rest)
      with ([] ++ [LF] ++ flat_map render_record rs ++ rest).
    rewrite getlines_line_app by apply not_elem_of_nil.
    rewrite getlines_records by exact Hwf. reflexivity.
  - solve_not_elem.
Qed.

(** ** Parsing a worksheet *)

Lemma parse_line_id st s :
  parse_line st (lit "ID: " ++ s)
  = mkParseState s (current_original st) (current_translation st) (translations st).
Proof. reflexivity. Qed.

Lemma parse_line_file st s : parse_line st (lit "File: " ++ s) = st.
Proof. reflexivity. Qed.

Lemma parse_line_line st s : parse_line st (lit "Line: " ++ s) = st.
Proof. reflexivity. Qed.

Lemma parse_line_original st s :
  parse_line st (lit "Original: " ++ s)
  = mkParseState (current_id st) s (current_translation st) (translations st).
Proof. reflexivity. Qed.

Lemma parse_line_translation st s :
  parse_line st (lit "Translation: " ++ s)
  = mkParseState (current_id st) (current_original st) s
      (if is_placeholder s then translations st
       else <[current_original st := s]> (translations st)).
Proof.
  unfold is_placeholder.
  change (parse_line st (lit "Translation: " ++ s))
    with (if negb (bool_decide (s = [])) && negb (bool_decide (s = lit " "))
          then mkParseState (current_id st) (current_original st) s
                 (<[current_original st := s]> (translations st))
          else mkParseState (current_id st) (current_original st) s
                 (translations st)).
  destruct (bool_decide (s = [])), (bool_decide (s = lit " ")); reflexivity.
Qed.

Lemma parse_line_rule st : parse_line st (lit "---") = st.
Proof. reflexivity. Qed.

Lemma parse_line_blank st : parse_line st [] = st.
Proof. reflexivity. Qed.

Lemma parse_record st r rest :
  parse_lines st (record_lines r ++ rest)
  = parse_lines
      (mkParseState (to_string (tr_id r)) (tr_original r) (tr_translation r)
         (store_record (translations st) r))
      rest.
Proof.
  unfold parse_lines, record_lines. cbn [app fold_left].
  rewrite parse_line_id, parse_line_file, parse_line_line, parse_line_original,
    parse_line_translation, parse_line_rule, parse_line_blank.
  cbn [current_id current_original current_translation translations].
  unfold store_record, translated.
  destruct (is_placeholder (tr_translation r)); reflexivity.
Qed.

Lemma parse_records rs :
  forall st rest,
    exists id tr,
      parse_lines st (flat_map record_lines rs ++ rest)
      = parse_lines
          (mkParseState id (List.last (map tr_original rs) (current_original st)) tr
             (fold_left store_record rs (translations st)))
          rest.
Proof.
  induction rs as [|r rs IH]; intros st rest.
  - exists (current_id st), (current_translation st). destruct st. reflexivity.
  - cbn [flat_map]. rewrite <- app_assoc, parse_record.
    destruct (IH (mkParseState (to_string (tr_id r)) (tr_original r)
                    (tr_translation r) (store_record (translations st) r)) rest)
      as (id & tr & ->).
    exists id, tr. cbn [current_original translations map fold_left].
    rewrite last_cons_default. reflexivity.
Qed.

(** ** The mapping of a list of records *)








(** The master file that the source writes is the worksheet of these
    records. *)
Lemma master_translation_worksheet cs :
  master_translation cs = worksheet (records_of_chunks 0 cs).
Proof.
  unfold master_translation, worksheet. f_equal. generalize 0.
  induction cs as [|c cs IH]; intros i; [reflexivity|].
  cbn [master_records records_of_chunks flat_map]. rewrite IH. reflexivity.
Qed.

(** * Further properties *)

(** ** The splitter *)

Lemma split_within_bound max_chunk_size fuel chunks :
  Forall (fun c => str_length (text c) <= max_chunk_size) chunks ->
  Splitter.split_into_chunks max_chunk_size fuel chunks = Some chunks.
Proof.
  induction 1 as [|c chunks Hc _ IH]; [reflexivity|].
  cbn [Splitter.split_into_chunks]. apply Z.leb_le in Hc. rewrite Hc, IH.
  reflexivity.
Qed.

(** The output is the concatenation of what each input chunk contributes. *)
Lemma split_into_chunks_pieces max_chunk_size fuel chunks result :
  Splitter.split_into_chunks max_chunk_size fuel chunks = Some result ->
  exists pieces,
    Forall2 (fun c piece => pieces_of max_chunk_size fuel c = Some piece)
            chunks pieces
    /\ result = concat pieces.
Proof.
  revert result. induction chunks as [|chunk chunks IH]; intros result H;
    cbn [Splitter.split_into_chunks] in H.
  - injection H as <-. exists []. split; [constructor | reflexivity].
  - destruct (str_length (text chunk) <=? max_chunk_size) eqn:Hle.
    + destruct (Splitter.split_into_chunks max_chunk_size fuel chunks) as [rest|];
        [|discriminate].
      injection H as <-. destruct (IH rest eq_refl) as (pieces & Hp & ->).
      exists ([chunk] :: pieces). split; [|reflexivity].
      constructor; [|exact Hp]. unfold pieces_of. rewrite Hle. reflexivity.
    + destruct (Splitter.split_loop max_chunk_size fuel chunk 0 0) as [frags|] eqn:Hl;
        [|discriminate].
      destruct (Splitter.split_into_chunks max_chunk_size fuel chunks) as [rest|];
        [|discriminate].
      injection H as <-. destruct (IH rest eq_refl) as (pieces & Hp & ->).
      exists (frags :: pieces). split; [|reflexivity].
      constructor; [|exact Hp]. unfold pieces_of. rewrite Hle. exact Hl.
Qed.

Lemma pieces_of_nonempty max_chunk_size fuel c piece :
  0 <= max_chunk_size ->
  pieces_of max_chunk_size fuel c = Some piece -> piece <> [].
Proof.
  intros Hmax. unfold pieces_of.
  destruct (Z.leb_spec (str_length (text c)) max_chunk_size) as [_|Hgt].
  - intros [= <-]. discriminate.
  - destruct fuel as [|fuel]; [discriminate|]. cbn [Splitter.split_loop].
    destruct (Z.ltb_spec 0 (str_length (text c))) as [_|Hge]; [|lia].
    destruct (Splitter.split_loop max_chunk_size fuel c _ _); [|discriminate].
    intros [= <-]. discriminate.
Qed.

(** X1. [split_into_chunks] loses no chunk: its output has at least as many
    chunks as its input, and it is its input when every text is within the
    bound, whatever the fuel. *)
Theorem split_into_chunks_keeps_every_chunk max_chunk_size chunks :
  0 <= max_chunk_size ->
  (forall fuel result,
     Splitter.split_into_chunks max_chunk_size fuel chunks = Some result ->
     (length chunks <= length result)%nat)
  /\ (Forall (fun c => str_length (text c) <= max_chunk_size) chunks ->
      forall fuel,
        Splitter.split_into_chunks max_chunk_size fuel chunks = Some chunks).
Proof.
  intros Hmax. split.
  - intros fuel result H.
    destruct (split_into_chunks_pieces _ _ _ _ H) as (pieces & Hp & ->).
    clear H. induction Hp as [|c piece chunks pieces Hc _ IH]; [reflexivity|].
    cbn [concat length]. rewrite length_app.
    pose proof (pieces_of_nonempty _ _ _ _ Hmax Hc) as Hne.
    destruct piece; [congruence | cbn [length]; lia].
  - intros Hall fuel. apply split_within_bound. exact Hall.
Qed.

Lemma split_into_chunks_keeps_every_chunk_witness :
  0 <= 10
  /\ (length sample_chunks
      <= length (default [] (Splitter.split_into_chunks 10 22 sample_chunks)))%nat
  /\ Splitter.split_into_chunks 10 0 [sample_chunk "short"]
     = Some [sample_chunk "short"].
Proof.
  assert (H0 : 0 <= 10) by lia.
  destruct (split_into_chunks_keeps_every_chunk 10 sample_chunks H0) as (Hlen & _).
  destruct (split_into_chunks_keeps_every_chunk 10 [sample_chunk "short"] H0)
    as (_ & Hid).
  split; [exact H0|]. split.
  - destruct (Splitter.split_into_chunks 10 22 sample_chunks) as [result|] eqn:E.
    + exact (Hlen 22%nat result E).
    + vm_compute in E. discriminate E.
  - apply Hid. repeat constructor. vm_compute. discriminate.
Defined.

(** X2. Splitting is idempotent: what [split_into_chunks] returns is within
    the bound, so a second pass, with any fuel, returns it unchanged. *)
Theorem split_into_chunks_idempotent max_chunk_size chunks fuel result :
  0 <= max_chunk_size ->
  Forall (fun c => fits_string (text c)) chunks ->
  Splitter.split_into_chunks max_chunk_size fuel chunks = Some result ->
  forall fuel', Splitter.split_into_chunks max_chunk_size fuel' result = Some result.
Proof.
  intros Hmax Hfit H fuel'. apply split_within_bound. apply Forall_forall.
  intros f Hf. destruct (split_into_chunks_Some _ _ _ _ H) as (_ & Hout).
  destruct (Hout f Hf) as (c & piece & Hc & Hp & Hin).
  rewrite Forall_forall in Hfit.
  exact (proj1 (pieces_of_elem _ _ _ _ _ Hmax (Hfit c Hc) Hp Hin)).
Qed.

Lemma split_into_chunks_idempotent_witness :
  0 <= 10
  /\ Forall (fun c => fits_string (text c)) sample_chunks
  /\ exists result,
       Splitter.split_into_chunks 10 22 sample_chunks = Some result
       /\ Splitter.split_into_chunks 10 0 result = Some result.
Proof.
  assert (H0 : 0 <= 10) by lia.
  assert (Hf : Forall (fun c => fits_string (text c)) sample_chunks)
    by (repeat constructor; vm_compute; reflexivity).
  split; [exact H0|]. split; [exact Hf|].
  destruct (Splitter.split_into_chunks 10 22 sample_chunks) as [result|] eqn:E;
    [|vm_compute in E; discriminate E].
  exists result. split; [reflexivity|].
  exact (split_into_chunks_idempotent 10 sample_chunks 22 result H0 Hf E 0%nat).
Defined.

Lemma split_cuts_count max_chunk_size txt :
  fits_string txt -> 1 <= max_chunk_size < str_length txt ->
  forall fuel start cuts,
    0 <= start <= str_length txt ->
    Splitter.split_cuts max_chunk_size fuel txt start = Some cuts ->
    Z.of_nat (length cuts) <= str_length txt - start.
Proof.
  intros Hfit Hmax.
  induction fuel as [|fuel IH]; intros start cuts Hs H; [discriminate|].
  cbn [Splitter.split_cuts] in H.
  destruct (Z.ltb_spec start (str_length txt)) as [Hlt|Hge].
  - destruct (Splitter.split_cuts max_chunk_size fuel txt _) as [rest|] eqn:E;
      [|discriminate].
    injection H as <-.
    pose proof (cut_end_bounds max_chunk_size txt start Hfit ltac:(lia) ltac:(lia))
      as (Hb & _ & Hprog).
    pose proof (next_start_bounds max_chunk_size txt start Hfit ltac:(lia) ltac:(lia))
      as (Hnb & _).
    cbv zeta in *. specialize (Hprog ltac:(lia)).
    assert (Hrest : Z.of_nat (length rest)
                    <= str_length txt
                       - Splitter.next_start txt
                           (Splitter.cut_end max_chunk_size txt start)).
    { eapply IH; [|exact E]. lia. }
    cbn [length]. lia.
  - injection H as <-. cbn [length]. lia.
Qed.

(** X3. With a bound of at least one character, an oversized chunk is split
    into at least one and at most as many fragments as its text has
    characters, and no fragment is empty. *)
Theorem split_loop_fragments_nonempty max_chunk_size chunk fuel frags :
  fits_string (text chunk) ->
  1 <= max_chunk_size < str_length (text chunk) ->
  Splitter.split_loop max_chunk_size fuel chunk 0 0 = Some frags ->
  (1 <= length frags)%nat
  /\ Z.of_nat (length frags) <= str_length (text chunk)
  /\ forall f, f ∈ frags -> 1 <= str_length (text f).
Proof.
  intros Hfit Hmax H.
  assert (Hp : pieces_of max_chunk_size fuel chunk = Some frags).
  { unfold pieces_of.
    destruct (Z.leb_spec (str_length (text chunk)) max_chunk_size); [lia | exact H]. }
  rewrite split_loop_cuts in H.
  destruct (Splitter.split_cuts max_chunk_size fuel (text chunk) 0) as [cuts|] eqn:E;
    [|discriminate].
  injection H as <-. split; [|split].
  - assert (Hne : Splitter.fragments_of_cuts chunk 0 cuts <> []).
    { apply (pieces_of_nonempty max_chunk_size fuel chunk); [lia | exact Hp]. }
    destruct (Splitter.fragments_of_cuts chunk 0 cuts); [congruence | cbn [length]; lia].
  - rewrite fragments_of_cuts_length.
    pose proof (split_cuts_count max_chunk_size (text chunk) Hfit Hmax fuel 0 cuts
                  ltac:(lia) E). lia.
  - intros f Hf.
    pose proof (split_cuts_ok max_chunk_size (text chunk) Hfit ltac:(lia)
                  fuel 0 cuts ltac:(lia) E) as Hok.
    rewrite Forall_forall in Hok.
    destruct (fragments_of_cuts_elem _ _ _ _ Hf) as (s & e & b & id & Hcut & ->).
    destruct (Hok _ Hcut) as (Hs & He & _). subst e.
    rewrite (fragment_length max_chunk_size (text chunk) s Hfit ltac:(lia) Hs
               chunk id eq_refl).
    pose proof (cut_end_bounds max_chunk_size (text chunk) s Hfit ltac:(lia) Hs)
      as (_ & _ & Hprog).
    cbv zeta in Hprog. specialize (Hprog ltac:(lia)). lia.
Qed.

Lemma split_loop_fragments_nonempty_witness :
  fits_string (text (sample_chunk "hello brave new world"))
  /\ 1 <= 10 < str_length (text (sample_chunk "hello brave new world"))
  /\ Forall (fun f => 1 <= str_length (text f))
       (default [] (Splitter.split_loop 10 22
                      (sample_chunk "hello brave new world") 0 0)).
Proof.
  assert (Hf : fits_string (text (sample_chunk "hello brave new world")))
    by (vm_compute; reflexivity).
  assert (Hm : 1 <= 10 < str_length (text (sample_chunk "hello brave new world")))
    by (vm_compute; split; [discriminate | reflexivity]).
  split; [exact Hf|]. split; [exact Hm|].
  destruct (Splitter.split_loop 10 22 (sample_chunk "hello brave new world") 0 0)
    as [frags|] eqn:E; [|constructor].
  apply Forall_forall.
  exact (proj2 (proj2 (split_loop_fragments_nonempty 10 _ 22 frags Hf Hm E))).
Defined.

Lemma fragments_of_cuts_lookup chunk cuts :
  forall chunk_id (k : nat) f,
    Splitter.fragments_of_cuts chunk chunk_id cuts !! k = Some f ->
    exists start end_,
      f = Splitter.fragment chunk start end_
            (match k with
             | O => chunk_id
             | S _ => wrap (chunk_id + Z.of_nat k)
             end).
Proof.
  induction cuts as [|[[s e] b] cuts IH]; intros chunk_id k f H;
    cbn [Splitter.fragments_of_cuts] in H; [discriminate|].
  destruct k as [|k].
  - injection H as <-. exists s, e. reflexivity.
  - cbn [lookup list_lookup] in H.
    destruct (IH _ _ _ H) as (s' & e' & ->). exists s', e'. f_equal.
    destruct k as [|k]; [f_equal; lia|].
    unfold wrap. rewrite Zplus_mod_idemp_l. f_equal. lia.
Qed.

(** X4. The fragments of a chunk are numbered from zero in the order of the
    text: the fragment at index [k] has the path of the chunk followed by
    [_chunk_] and the decimal figures of [k], and the line number, columns,
    context and original text of the chunk. *)
Theorem split_loop_fragment_fields max_chunk_size chunk fuel frags :
  fits_string (text chunk) ->
  1 <= max_chunk_size < str_length (text chunk) ->
  Splitter.split_loop max_chunk_size fuel chunk 0 0 = Some frags ->
  forall (k : nat) f,
    frags !! k = Some f ->
    file_path f = file_path chunk ++ lit "_chunk_" ++ to_string (Z.of_nat k)
    /\ line_number f = line_number chunk
    /\ column_start f = column_start chunk
    /\ column_end f = column_end chunk
    /\ context f = context chunk
    /\ original_text f = original_text chunk.
Proof.
  intros Hfit Hmax H k f Hk.
  pose proof (split_loop_cuts max_chunk_size fuel chunk 0 0) as Hc. rewrite H in Hc.
  destruct (Splitter.split_cuts max_chunk_size fuel (text chunk) 0) as [cuts|] eqn:E;
    [|discriminate].
  injection Hc as ->.
  pose proof (split_cuts_count max_chunk_size (text chunk) Hfit Hmax fuel 0 cuts
                ltac:(lia) E) as Hcount.
  pose proof (lookup_lt_Some _ _ _ Hk) as Hlt. rewrite fragments_of_cuts_length in Hlt.
  destruct (fragments_of_cuts_lookup chunk cuts 0 k f Hk) as (s & e & ->).
  assert (Hid : match k with
                | O => 0
                | S _ => wrap (0 + Z.of_nat k)
                end = Z.of_nat k).
  { destruct k as [|k]; [reflexivity|]. unfold fits_string in Hfit.
    rewrite wrap_small by (size_consts; lia). lia. }
  rewrite Hid. repeat split; reflexivity.
Qed.

Lemma split_loop_fragment_fields_witness :
  fits_string (text (sample_chunk "hello brave new world"))
  /\ 1 <= 10 < str_length (text (sample_chunk "hello brave new world"))
  /\ map file_path
       (default [] (Splitter.split_loop 10 22
                      (sample_chunk "hello brave new world") 0 0))
     = [lit "a.txt_chunk_0"; lit "a.txt_chunk_1"; lit "a.txt_chunk_2"]
  /\ forall f,
       default [] (Splitter.split_loop 10 22
                     (sample_chunk "hello brave new world") 0 0) !! 2%nat = Some f ->
       file_path f = lit "a.txt_chunk_2".
Proof.
  assert (Hf : fits_string (text (sample_chunk "hello brave new world")))
    by (vm_compute; reflexivity).
  assert (Hm : 1 <= 10 < str_length (text (sample_chunk "hello brave new world")))
    by (vm_compute; split; [discriminate | reflexivity]).
  split; [exact Hf|]. split; [exact Hm|]. split; [vm_compute; reflexivity|].
  intros f Hk.
  destruct (Splitter.split_loop 10 22 (sample_chunk "hello brave new world") 0 0)
    as [frags|] eqn:E; [|discriminate Hk].
  exact (proj1 (split_loop_fragment_fields 10 _ 22 frags Hf Hm E 2%nat f Hk)).
Defined.

(** ** The cleaner *)

(** X5. A cleaned text neither begins nor ends with whitespace. *)
Theorem clean_text_trimmed s :
  (forall c rest, clean_text s = c :: rest -> isspace c = false)
  /\ (forall front c, clean_text s = front ++ [c] -> isspace c = false).
Proof.
  split.
  - intros c rest H. pose proof (trim_no_leading (unescape s)) as Hl.
    unfold clean_text in H. rewrite H in Hl. exact Hl.
  - intros front c H. unfold clean_text, trim in H.
    pose proof (drop_while_no_leading
                  (rev (drop_while isspace (unescape s)))) as Hl.
    apply (f_equal (@rev ascii)) in H.
    rewrite rev_involutive, rev_app_distr in H. cbn [rev app] in H.
    rewrite H in Hl. exact Hl.
Qed.

(** X6. Cleaning never lengthens a text; a text without a backslash is only
    trimmed; and a text without a backslash that neither begins nor ends
    with whitespace is left as it is. *)
Theorem clean_text_plain s :
  str_length (clean_text s) <= str_length s
  /\ (backslash ∉ s -> clean_text s = trim s)
  /\ (backslash ∉ s -> no_leading_space s -> no_leading_space (rev s) ->
      clean_text s = s).
Proof.
  assert (Hplain : backslash ∉ s -> unescape s = s).
  { intros Hs. rewrite unescape_steps.
    rewrite (replace_escape_free "n"%char [LF] s Hs).
    rewrite (replace_escape_free "t"%char [TAB] s Hs).
    rewrite (replace_escape_free "r"%char [CR] s Hs).
    rewrite (replace_escape_free dquote [dquote] s Hs).
    rewrite (replace_escape_free squote [squote] s Hs).
    apply (replace_escape_free backslash [backslash] s Hs). }
  split; [apply clean_text_length|]. split.
  - intros Hs. unfold clean_text. rewrite Hplain by exact Hs. reflexivity.
  - intros Hs Hl Ht. unfold clean_text. rewrite Hplain by exact Hs.
    unfold trim. rewrite (drop_while_id s Hl), (drop_while_id (rev s) Ht).
    apply rev_involutive.
Qed.

Lemma clean_text_plain_witness :
  (backslash ∉ lit " padded text ")
  /\ clean_text (lit " padded text ") = lit "padded text"
  /\ clean_text (lit "padded text") = lit "padded text".
Proof.
  assert (H1 : backslash ∉ lit " padded text ") by solve_not_elem.
  assert (H2 : backslash ∉ lit "padded text") by solve_not_elem.
  split; [exact H1|]. split.
  - rewrite (proj1 (proj2 (clean_text_plain (lit " padded text "))) H1).
    vm_compute. reflexivity.
  - apply (proj2 (proj2 (clean_text_plain (lit "padded text"))) H2);
      vm_compute; reflexivity.
Defined.

Lemma replace_escape_single_miss c rep x s :
  backslash ∉ s -> x <> backslash -> c <> x ->
  replace_escape c rep (backslash :: x :: s) = backslash :: x :: s.
Proof.
  intros Hs Hx Hc. rewrite replace_escape_single by assumption.
  destruct (Ascii.eqb_spec c x); [contradiction | reflexivity].
Qed.

(** X7. In a text with a single backslash, the backslash and the character
    after it are decoded together when that character is [n], [t], [r] or a
    quote, and both are kept when it is any other character but a
    backslash. *)
Theorem unescape_single_escape s1 s2 c :
  backslash ∉ s1 -> backslash ∉ s2 ->
  (c ∈ early_escape_chars ->
   unescape (s1 ++ [backslash; c] ++ s2) = s1 ++ [decoded c] ++ s2)
  /\ (c ∉ escape_chars ->
      unescape (s1 ++ [backslash; c] ++ s2) = s1 ++ [backslash; c] ++ s2).
Proof.
  intros H1 H2. split.
  - intros Hc. rewrite unescape_steps. cbn [app].
    unfold early_escape_chars in Hc.
    repeat (apply elem_of_cons in Hc as [->|Hc]); [..|inversion Hc];
      repeat (rewrite replace_escape_app_free by exact H1;
              first [ rewrite replace_escape_single by (exact H2 || discriminate)
                    | rewrite (replace_escape_free _ _ (_ :: s2))
                        by (apply not_elem_of_cons; split; [discriminate | exact H2]) ];
              eval_char_tests);
      reflexivity.
  - intros Hc. rewrite unescape_steps. cbn [app].
    unfold escape_chars in Hc. repeat (apply not_elem_of_cons in Hc as [? Hc]).
    repeat (rewrite replace_escape_app_free by exact H1;
            rewrite replace_escape_single_miss by (assumption || congruence)).
    reflexivity.
Qed.

Lemma unescape_single_escape_witness :
  (backslash ∉ lit "one") /\ (backslash ∉ lit "two")
  /\ unescape (lit "one\ntwo") = lit "one" ++ [LF] ++ lit "two"
  /\ unescape (lit "one\xtwo") = lit "one\xtwo".
Proof.
  assert (H1 : backslash ∉ lit "one") by solve_not_elem.
  assert (H2 : backslash ∉ lit "two") by solve_not_elem.
  split; [exact H1|]. split; [exact H2|]. split.
  - apply (proj1 (unescape_single_escape (lit "one") (lit "two") "n"%char H1 H2)).
    apply list_elem_of_here.
  - apply (proj2 (unescape_single_escape (lit "one") (lit "two") "x"%char H1 H2)).
    solve_not_elem.
Defined.

(** ** The file scanner *)

Lemma tolower_not_upper c : is_upper (tolower c) = false.
Proof. destruct c as [[] [] [] [] [] [] [] []]; vm_compute; reflexivity. Qed.

(** X9. The entries of the extension list are compared as they are, with
    the lower-cased extension of the file: an entry that holds an upper-case
    letter selects no file, and after [set_supported_extensions] with
    nothing but such entries the scan selects no file at all. *)
Theorem scan_directory_upper_case_entries self fs directory_path extensions :
  Forall (fun ext => Exists (fun c => is_upper c = true) ext) extensions ->
  get_supported_extensions (set_supported_extensions self extensions) = extensions
  /\ fst (scan_directory (set_supported_extensions self extensions) fs
            directory_path) = [].
Proof.
  intros Hup. split; [reflexivity|].
  unfold scan_directory. destruct (fs_walk fs directory_path) as [entries failure].
  cbn [fst]. induction entries as [|entry entries IH]; [reflexivity|].
  cbn [flat_map]. rewrite IH. destruct (entry_is_regular_file entry); [|reflexivity].
  cbn [supported_extensions set_supported_extensions].
  rewrite bool_decide_eq_false_2; [reflexivity|].
  intros Hin. rewrite Forall_forall in Hup. specialize (Hup _ Hin).
  apply Exists_exists in Hup as (c & Hc & Hupper).
  apply list_elem_of_In, in_map_iff in Hc as (c0 & <- & _).
  rewrite tolower_not_upper in Hupper. discriminate.
Qed.

Lemma scan_directory_upper_case_entries_witness :
  Forall (fun ext => Exists (fun c => is_upper c = true) ext) [lit ".TXT"]
  /\ fst (scan_directory (set_supported_extensions default_extractor [lit ".TXT"])
            sample_fs []) = [].
Proof.
  assert (H : Forall (fun ext => Exists (fun c => is_upper c = true) ext)
                     [lit ".TXT"]).
  { constructor; [|constructor]. apply Exists_cons_tl, Exists_cons_hd. reflexivity. }
  split; [exact H|].
  exact (proj2 (scan_directory_upper_case_entries default_extractor sample_fs []
                  [lit ".TXT"] H)).
Defined.

(** ** The aggregator *)

(** X10. When the scan selects no file, as for an empty directory,
    [extract_texts] returns at once, with any fuel: no chunk, both counts
    zero, and on [std::cerr] what the scan wrote. *)
Theorem extract_texts_no_file self fs directory_path fuel :
  fst (scan_directory self fs directory_path) = [] ->
  extract_texts fuel self fs directory_path
  = Some ({| chunks := []; total_files_processed := 0; total_texts_found := 0 |},
          snd (scan_directory self fs directory_path)).
Proof.
  unfold extract_texts.
  destruct (scan_directory self fs directory_path) as [files scan_log].
  cbn [fst snd]. intros ->. cbn. rewrite app_nil_r. reflexivity.
Qed.

Lemma extract_texts_no_file_witness :
  fst (scan_directory default_extractor
         (mkFileSystem (fun _ => ([], None)) (fun _ => None)) []) = []
  /\ extract_texts 0 default_extractor
       (mkFileSystem (fun _ => ([], None)) (fun _ => None)) []
     = Some ({| chunks := []; total_files_processed := 0;
                total_texts_found := 0 |}, []).
Proof.
  assert (H : fst (scan_directory default_extractor
                     (mkFileSystem (fun _ => ([], None)) (fun _ => None)) []) = [])
    by reflexivity.
  split; [exact H|].
  exact (extract_texts_no_file default_extractor _ [] 0 H).
Defined.

(** ** The extraction engine *)

Lemma chunk_of_match_provenance self path line_no line m c :
  fits_string line -> match_ok (str_length line) m ->
  c ∈ chunk_of_match self path line_no line m ->
  file_path c = path /\ context c = line
  /\ column_end c <= str_length line
  /\ text c = clean_text (substr line (column_start c)
                            (column_end c - column_start c)).
Proof.
  intros Hfit Hm Hc. unfold chunk_of_match in Hc.
  destruct (min_text_length self <=? _); [|inversion Hc].
  apply list_elem_of_singleton in Hc as ->.
  cbn [file_path context column_start column_end text].
  pose proof (sub_span_ok line m 1 Hm) as (Hspan & Hhi).
  unfold sub_str, position, length_of in *. unfold fits_string in Hfit.
  rewrite !wrap_small by (size_consts; lia).
  repeat split; try reflexivity; [lia|]. do 2 f_equal. lia.
Qed.

(** X11. A chunk records where its text comes from: its path is the file's,
    its context is the line of the file that its line number counts, its
    columns lie within that line, and its text is the cleaning of the
    characters of the context between the two columns. *)
Theorem extract_from_file_provenance self fs path content c :
  fs_open fs path = Some content -> fits_string content ->
  c ∈ fst (extract_from_file self fs path) ->
  file_path c = path
  /\ getlines content !! Z.to_nat (line_number c - 1) = Some (context c)
  /\ column_start c <= column_end c <= str_length (context c)
  /\ text c = clean_text (substr (context c) (column_start c)
                            (column_end c - column_start c)).
Proof.
  intros Hopen Hfit Hc. unfold extract_from_file in Hc. rewrite Hopen in Hc.
  cbn [fst] in Hc.
  destruct (read_lines_elem _ _ _ _ _ Hc) as (k & line & Hk & Hin).
  destruct (getlines_bounds content) as (Hn & Hl). rewrite Forall_forall in Hl.
  assert (Hline : (length line <= length content)%nat).
  { apply Hl. apply list_elem_of_lookup. eauto. }
  pose proof (lookup_lt_Some _ _ _ Hk) as Hlt.
  unfold fits_string, str_length in Hfit.
  assert (Hfl : fits_string line) by (unfold fits_string, str_length; lia).
  destruct (chunks_of_line_inv self path _ line c Hfl Hin) as (Hno & Hcol & _ & _).
  unfold chunks_of_line, chunks_of_pattern in Hin.
  apply list_elem_of_In, in_flat_map in Hin as (r & _ & Hin).
  apply in_flat_map in Hin as (m & Hm & Hin).
  destruct (chunk_of_match_provenance self path
              (wrap (0 + Z.of_nat k + 1)) line m c Hfl
              (regex_iterator_ok r line m Hm))
    as (Hp & Hctx & Hce & Htext); [apply list_elem_of_In; exact Hin|].
  rewrite Hctx. split; [exact Hp|]. split; [|split; [lia | exact Htext]].
  rewrite Hno, wrap_small by (size_consts; lia).
  replace (Z.to_nat (0 + Z.of_nat k + 1 - 1)) with k by lia. exact Hk.
Qed.

Lemma extract_from_file_provenance_witness :
  fs_open sample_fs (lit "a.txt") = Some sample_content
  /\ fits_string sample_content
  /\ Forall (fun c => file_path c = lit "a.txt" /\ context c = hello_line
                      /\ substr (context c) (column_start c)
                           (column_end c - column_start c) = lit "Hello World")
       (fst (extract_from_file default_extractor sample_fs (lit "a.txt"))).
Proof.
  assert (Ho : fs_open sample_fs (lit "a.txt") = Some sample_content)
    by (vm_compute; reflexivity).
  assert (Hf : fits_string sample_content) by (vm_compute; reflexivity).
  split; [exact Ho|]. split; [exact Hf|].
  apply Forall_forall. intros c Hc.
  destruct (extract_from_file_provenance default_extractor sample_fs (lit "a.txt")
              sample_content c Ho Hf Hc) as (Hp & _ & _ & _).
  split; [exact Hp|].
  vm_compute in Hc.
  repeat (apply elem_of_cons in Hc as [->|Hc]; [split; vm_compute; reflexivity|]).
  inversion Hc.
Defined.






(** ** The worksheet parser *)

Lemma starts_with_split p line :
  starts_with p line = true -> line = p ++ drop (length p) line.
Proof.
  revert line. induction p as [|a p IH]; intros line H; [reflexivity|].
  destruct line as [|b line]; [discriminate|]. cbn [starts_with] in H.
  apply andb_true_iff in H as [Hab H]. apply Ascii.eqb_eq in Hab as ->.
  cbn [length drop app]. f_equal. apply IH. exact H.
Qed.

Lemma parse_line_keeps_invariant lines st line :
  line ∈ lines -> parse_invariant lines st ->
  parse_invariant lines (parse_line st line).
Proof.
  intros Hin (Ho & Hm). unfold parse_line.
  destruct (starts_with (lit "ID: ") line); [split; assumption|].
  destruct (starts_with (lit "Original: ") line) eqn:Eo.
  - split; [|exact Hm]. cbn [current_original]. right.
    apply starts_with_split in Eo. unfold substr_from.
    change (Z.to_nat 10) with (length (lit "Original: ")). rewrite <- Eo. exact Hin.
  - destruct (starts_with (lit "Translation: ") line) eqn:Et; [|split; assumption].
    apply starts_with_split in Et.
    assert (Hline : lit "Translation: " ++ substr_from line 13 ∈ lines).
    { unfold substr_from. change (Z.to_nat 13) with (length (lit "Translation: ")).
      rewrite <- Et. exact Hin. }
    destruct (bool_decide (substr_from line 13 = [])) eqn:E1;
      [split; assumption|].
    destruct (bool_decide (substr_from line 13 = lit " ")) eqn:E2;
      [split; assumption|].
    cbn [negb andb]. split; [exact Ho|].
    cbn [translations current_original]. intros k v Hkv.
    destruct (decide (current_original st = k)) as [<-|Hne].
    + rewrite lookup_insert_eq in Hkv. injection Hkv as <-.
      split; [exact Ho|]. split; [|exact Hline].
      unfold is_placeholder. rewrite E1, E2. reflexivity.
    + rewrite lookup_insert_ne in Hkv by exact Hne. exact (Hm k v Hkv).
Qed.

Lemma parse_lines_keeps_invariant lines ls :
  forall st, (forall l, l ∈ ls -> l ∈ lines) -> parse_invariant lines st ->
             parse_invariant lines (parse_lines st ls).
Proof.
  unfold parse_lines. induction ls as [|l ls IH]; intros st Hsub Hst; [exact Hst|].
  cbn [fold_left]. apply IH.
  - intros l' Hl'. apply Hsub, list_elem_of_further, Hl'.
  - apply parse_line_keeps_invariant; [apply Hsub, list_elem_of_here | exact Hst].
Qed.

(** X13. Whatever the worksheet holds, the mapping invents nothing: every
    value is the value of a [Translation: ] line of the file and is neither
    empty nor a single blank, and every key is the value of an [Original: ]
    line of the file, or the empty string. *)
Theorem apply_translations_entries fs translation_file content m k v :
  fs_open fs translation_file = Some content ->
  fst (apply_translations fs translation_file) = Some m ->
  m !! k = Some v ->
  v <> [] /\ v <> lit " "
  /\ lit "Translation: " ++ v ∈ getlines content
  /\ (k = [] \/ lit "Original: " ++ k ∈ getlines content).
Proof.
  intros Hopen Hm Hkv. unfold apply_translations in Hm. rewrite Hopen in Hm.
  cbn [fst] in Hm. injection Hm as <-.
  destruct (parse_lines_keeps_invariant (getlines content) (getlines content)
              initial_parse_state (fun l H => H)) as (_ & Hinv).
  - split; [left; reflexivity|]. intros k0 v0 H0.
    cbn [translations initial_parse_state] in H0. rewrite lookup_empty in H0.
    discriminate.
  - destruct (Hinv k v Hkv) as (Hk & Hv & Hline).
    unfold is_placeholder in Hv. apply orb_false_iff in Hv as [Hv1 Hv2].
    apply bool_decide_eq_false in Hv1, Hv2. auto.
Qed.

Lemma apply_translations_entries_witness :
  fs_open (worksheet_fs (worksheet sample_records)) [] = Some (worksheet sample_records)
  /\ (exists m, fst (apply_translations (worksheet_fs (worksheet sample_records)) [])
               = Some m
               /\ m !! lit "Hello World" = Some (lit "Hallo Welt"))
  /\ lit "Original: Hello World" ∈ getlines (worksheet sample_records).
Proof.
  split; [reflexivity|].
  assert (Hm : fst (apply_translations (worksheet_fs (worksheet sample_records)) [])
               = Some (store_records sample_records)) by (vm_compute; reflexivity).
  assert (Hk : store_records sample_records !! lit "Hello World"
               = Some (lit "Hallo Welt")) by (vm_compute; reflexivity).
  split; [exists (store_records sample_records); split; assumption|].
  destruct (apply_translations_entries (worksheet_fs (worksheet sample_records)) []
              (worksheet sample_records) _ _ _ eq_refl Hm Hk) as (_ & _ & _ & [H|H]).
  - discriminate H.
  - exact H.
Defined.

Lemma starts_with_first a p line :
  starts_with (a :: p) line = true -> exists rest, line = a :: rest.
Proof.
  destruct line as [|b line]; [discriminate|]. cbn [starts_with].
  intros H. apply andb_true_iff in H as [H _]. apply Ascii.eqb_eq in H as ->.
  eauto.
Qed.

(** A line that opens with [ID: ] opens with neither of the other two
    prefixes. *)
Lemma id_line_not_relevant line :
  starts_with (lit "ID: ") line = true -> relevant_line line = false.
Proof.
  intros H. apply starts_with_first in H as (rest & ->). reflexivity.
Qed.

Lemma parse_line_same_but_id st1 st2 line :
  same_but_id st1 st2 ->
  same_but_id (parse_line st1 line)
    (if relevant_line line then parse_line st2 line else st2).
Proof.
  intros (Ho & Ht & Hm). unfold parse_line, relevant_line, is_original_line,
    is_translation_line.
  destruct (starts_with (lit "ID: ") line) eqn:Ei.
  - pose proof (id_line_not_relevant line Ei) as Hr.
    unfold relevant_line, is_original_line, is_translation_line in Hr.
    rewrite Hr. split; [|split]; assumption.
  - destruct (starts_with (lit "Original: ") line); cbn [orb].
    + split; [|split]; cbn; first [reflexivity | assumption].
    + destruct (starts_with (lit "Translation: ") line).
      * rewrite Ho, Hm.
        destruct (negb _ && negb _); split; try split; cbn; congruence.
      * split; [|split]; assumption.
Qed.

(** X14. The mapping depends on the [Original: ] and [Translation: ] lines
    alone: dropping every other line of the worksheet, the [ID: ] lines
    among them, leaves it unchanged. *)
Theorem parse_lines_relevant_lines lines :
  translations (parse_lines initial_parse_state lines)
  = translations (parse_lines initial_parse_state (List.filter relevant_line lines)).
Proof.
  assert (H : forall st1 st2,
             same_but_id st1 st2 ->
             same_but_id (parse_lines st1 lines)
                         (parse_lines st2 (List.filter relevant_line lines))).
  { unfold parse_lines. induction lines as [|l lines IH]; intros st1 st2 Hst;
      [exact Hst|].
    cbn [fold_left List.filter].
    pose proof (parse_line_same_but_id st1 st2 l Hst) as Hstep.
    destruct (relevant_line l); cbn [fold_left]; apply IH; exact Hstep. }
  apply (H initial_parse_state initial_parse_state). repeat split.
Qed.

(** ** Saving, then reading back *)

Lemma parse_worksheet rs :
  Forall well_formed rs ->
  translations (parse_lines initial_parse_state (getlines (worksheet rs)))
  = store_records rs.
Proof.
  intros Hwf.
  rewrite <- (app_nil_r (worksheet rs)), getlines_worksheet by exact Hwf.
  cbn [getlines]. rewrite app_nil_r.
  change ([lit "=== MASTER TRANSLATION FILE ==="; []] ++ flat_map record_lines rs)
    with (lit "=== MASTER TRANSLATION FILE ===" :: [] :: flat_map record_lines rs).
  unfold parse_lines at 1. cbn [fold_left].
  change (parse_line (parse_line initial_parse_state
            (lit "=== MASTER TRANSLATION FILE ===")) [])
    with initial_parse_state.
  rewrite <- (app_nil_r (flat_map record_lines rs)).
  destruct (parse_records rs initial_parse_state []) as (id & tr & Hp).
  unfold parse_lines in Hp. rewrite Hp. reflexivity.
Qed.

Lemma records_of_chunks_well_formed cs :
  Forall (fun c => single_line (file_path c) /\ single_line (text c)) cs ->
  forall i, Forall well_formed (records_of_chunks i cs).
Proof.
  induction 1 as [|c cs (Hp & Ht) _ IH]; intros i; cbn [records_of_chunks];
    constructor; [|apply IH].
  unfold well_formed. cbn. split; [exact Hp|]. split; [exact Ht|].
  apply not_elem_of_nil.
Qed.

Lemma store_untranslated rs :
  Forall (fun r => translated r = false) rs ->
  forall m, fold_left store_record rs m = m.
Proof.
  induction 1 as [|r rs Hr _ IH]; intros m; [reflexivity|].
  cbn [fold_left]. unfold store_record at 2. rewrite Hr. apply IH.
Qed.

Lemma records_of_chunks_untranslated cs :
  forall i, Forall (fun r => translated r = false) (records_of_chunks i cs).
Proof.
  induction cs as [|c cs IH]; intros i; cbn [records_of_chunks]; constructor;
    [reflexivity | apply IH].
Qed.

(** X15. A worksheet just saved reads back as the empty mapping, provided
    no text and no path of its chunks holds a line break: every record then
    stands on its own lines and carries the empty placeholder. *)
Theorem apply_translations_fresh_master fs translation_file cs :
  Forall (fun c => single_line (file_path c) /\ single_line (text c)) cs ->
  fs_open fs translation_file = Some (master_translation cs) ->
  apply_translations fs translation_file = (Some ∅, []).
Proof.
  intros Hcs Hopen. unfold apply_translations. rewrite Hopen. f_equal. f_equal.
  rewrite master_translation_worksheet.
  rewrite parse_worksheet by (apply records_of_chunks_well_formed; exact Hcs).
  unfold store_records. apply store_untranslated, records_of_chunks_untranslated.
Qed.

Lemma apply_translations_fresh_master_witness :
  Forall (fun c => single_line (file_path c) /\ single_line (text c)) sample_chunks
  /\ apply_translations (worksheet_fs (master_translation sample_chunks)) []
     = (Some ∅, []).
Proof.
  assert (H : Forall (fun c => single_line (file_path c) /\ single_line (text c))
                     sample_chunks)
    by (repeat constructor; solve_not_elem).
  split; [exact H|].
  exact (apply_translations_fresh_master
           (worksheet_fs (master_translation sample_chunks)) [] sample_chunks H eq_refl).
Defined.

(** X16. A text with a line break is written to the worksheet over several
    lines, and a line of it that opens with [Translation: ] is read back as
    a translation: the worksheet saved for one chunk whose text is [o], a
    line break, [Translation: ] and [t] reads back as the mapping of [o] to
    [t], though nobody filled it in. *)
Theorem apply_translations_embedded_line_break fs translation_file c o t :
  single_line (file_path c) -> single_line o -> single_line t ->
  is_placeholder t = false ->
  text c = o ++ [LF] ++ lit "Translation: " ++ t ->
  fs_open fs translation_file = Some (master_translation [c]) ->
  fst (apply_translations fs translation_file) = Some {[ o := t ]}.
Proof.
  intros Hp Ho Ht Hnp Htext Hopen. unfold apply_translations. rewrite Hopen.
  cbn [fst]. f_equal.
  assert (Hlines : getlines (master_translation [c])
                   = [ lit "=== MASTER TRANSLATION FILE ==="; [];
                       lit "ID: " ++ to_string (wrap (0 + 1));
                       lit "File: " ++ file_path c;
                       lit "Line: " ++ to_string (line_number c);
                       lit "Original: " ++ o;
                       lit "Translation: " ++ t;
                       lit "Translation: "; lit "---"; [] ]).
  { unfold master_translation, master_header. cbn [master_records].
    rewrite app_nil_r. unfold record_text. rewrite Htext.
    change [LF; LF] with ([LF] ++ [LF]). repeat rewrite <- app_assoc.
    rewrite getlines_line_app by solve_not_elem.
    change ([LF] ++ lit "ID: " ++ ?x) with ([] ++ [LF] ++ lit "ID: " ++ x).
    rewrite getlines_line_app by apply not_elem_of_nil.
    rewrite (app_assoc (lit "ID: ")), getlines_line_app
      by (apply single_line_app; [apply single_line_lit_ID | apply to_string_single_line]).
    rewrite (app_assoc (lit "File: ")), getlines_line_app
      by (apply single_line_app; [apply single_line_lit_File | exact Hp]).
    rewrite (app_assoc (lit "Line: ")), getlines_line_app
      by (apply single_line_app; [apply single_line_lit_Line | apply to_string_single_line]).
    rewrite (app_assoc (lit "Original: ")), getlines_line_app
      by (apply single_line_app; [apply single_line_lit_Original | exact Ho]).
    rewrite (app_assoc (lit "Translation: ") t), getlines_line_app
      by (apply single_line_app; [apply single_line_lit_Translation | exact Ht]).
    reflexivity. }
  rewrite Hlines. unfold parse_lines. cbn [fold_left].
  change (parse_line (parse_line initial_parse_state
            (lit "=== MASTER TRANSLATION FILE ===")) [])
    with initial_parse_state.
  rewrite parse_line_id, parse_line_file, parse_line_line, parse_line_original,
    parse_line_translation.
  cbn [current_id current_original current_translation translations
       initial_parse_state].
  rewrite Hnp.
  change (lit "Translation: ") with (lit "Translation: " ++ []) at 1.
  rewrite parse_line_translation, parse_line_rule, parse_line_blank.
  reflexivity.
Qed.

Lemma apply_translations_embedded_line_break_witness :
  fst (apply_translations
         (worksheet_fs
            (master_translation
               [mkTextChunk (clean_text (lit "Yes\nTranslation: No"))
                  (lit "a.txt") 1 0 0 [] []])) [])
  = Some {[ lit "Yes" := lit "No" ]}.
Proof.
  apply (apply_translations_embedded_line_break _ []
           (mkTextChunk (clean_text (lit "Yes\nTranslation: No"))
              (lit "a.txt") 1 0 0 [] []) (lit "Yes") (lit "No"));
    try solve_not_elem; reflexivity.
Defined.

(** ** The groups of [save_extracted_texts] *)

Lemma group_chunks_fold cs path :
  forall grouped : gmap cstring (list TextChunk),
    fold_left (fun grouped chunk =>
                 <[file_path chunk :=
                     default [] (grouped !! file_path chunk) ++ [chunk]]> grouped)
              cs grouped !! path
    = match List.filter (fun c => bool_decide (file_path c = path)) cs with
      | [] => grouped !! path
      | sel => Some (default [] (grouped !! path) ++ sel)
      end.
Proof.
  induction cs as [|c cs IH]; intros grouped; [reflexivity|].
  cbn [fold_left List.filter]. rewrite IH.
  destruct (decide (file_path c = path)) as [Hc|Hc].
  - rewrite (bool_decide_eq_true_2 _ Hc). rewrite Hc, lookup_insert_eq.
    destruct (List.filter _ cs) as [|c' sel]; cbn [default].
    + reflexivity.
    + unfold id. rewrite <- app_assoc. reflexivity.
  - rewrite (bool_decide_eq_false_2 _ Hc). rewrite lookup_insert_ne by exact Hc.
    reflexivity.
Qed.

(** X17. [save_extracted_texts] groups the chunks by their exact path: the
    group of a path holds precisely the chunks with that path, in the order
    of the input, and a path without a chunk has no group. *)
Theorem group_chunks_lookup cs path :
  group_chunks cs !! path
  = match List.filter (fun c => bool_decide (file_path c = path)) cs with
    | [] => None
    | sel => Some sel
    end.
Proof.
  unfold group_chunks. rewrite group_chunks_fold, lookup_empty.
  destruct (List.filter _ cs); reflexivity.
Qed.

Lemma to_string_inj a b : 0 <= a -> 0 <= b -> to_string a = to_string b -> a = b.
Proof.
  intros Ha Hb H. unfold to_string, lit in H.
  apply (f_equal string_of_list_ascii) in H.
  rewrite !string_of_list_ascii_of_string in H.
  assert (Hnn : forall n, N.to_uint n <> Decimal.Nil).
  { intros [|p]; [discriminate|]. apply DecimalPos.Unsigned.to_uint_nonnil. }
  apply (f_equal NilZero.uint_of_string) in H.
  rewrite !NilZero.usu in H by apply Hnn.
  injection H as H. apply DecimalN.Unsigned.to_uint_inj in H. lia.
Qed.

(** X18. With a bound of at least one character, the fragments of a chunk
    have paths that differ from one another. *)
Theorem split_loop_fragment_paths_distinct max_chunk_size chunk fuel frags :
  fits_string (text chunk) ->
  1 <= max_chunk_size < str_length (text chunk) ->
  Splitter.split_loop max_chunk_size fuel chunk 0 0 = Some frags ->
  NoDup (map file_path frags).
Proof.
  intros Hfit Hmax H.
  pose proof (split_loop_cuts max_chunk_size fuel chunk 0 0) as Hc. rewrite H in Hc.
  destruct (Splitter.split_cuts max_chunk_size fuel (text chunk) 0) as [cuts|] eqn:E;
    [|discriminate].
  injection Hc as ->.
  pose proof (split_cuts_count max_chunk_size (text chunk) Hfit Hmax fuel 0 cuts
                ltac:(lia) E) as Hcount.
  assert (Hpath : forall (k : nat) p,
             map file_path (Splitter.fragments_of_cuts chunk 0 cuts) !! k = Some p ->
             p = file_path chunk ++ lit "_chunk_" ++ to_string (Z.of_nat k)).
  { intros k p Hk. change (map file_path ?l) with (file_path <$> l) in Hk.
    rewrite list_lookup_fmap in Hk.
    destruct (Splitter.fragments_of_cuts chunk 0 cuts !! k) as [f|] eqn:Ef;
      [|discriminate].
    injection Hk as <-.
    pose proof (lookup_lt_Some _ _ _ Ef) as Hlt.
    rewrite fragments_of_cuts_length in Hlt.
    destruct (fragments_of_cuts_lookup chunk cuts 0 k f Ef) as (s & e & ->).
    cbn [file_path Splitter.fragment]. do 3 f_equal.
    destruct k as [|k]; [reflexivity|]. unfold fits_string in Hfit.
    rewrite wrap_small by (size_consts; lia). lia. }
  apply NoDup_alt. intros i j p Hi Hj.
  apply Hpath in Hi, Hj. rewrite Hi in Hj.
  apply app_inv_head, app_inv_head, to_string_inj in Hj; lia.
Qed.

Lemma split_loop_fragment_paths_distinct_witness :
  fits_string (text (sample_chunk "hello brave new world"))
  /\ 1 <= 10 < str_length (text (sample_chunk "hello brave new world"))
  /\ NoDup (map file_path
              (default [] (Splitter.split_loop 10 22
                             (sample_chunk "hello brave new world") 0 0))).
Proof.
  assert (Hf : fits_string (text (sample_chunk "hello brave new world")))
    by (vm_compute; reflexivity).
  assert (Hm : 1 <= 10 < str_length (text (sample_chunk "hello brave new world")))
    by (vm_compute; split; [discriminate | reflexivity]).
  split; [exact Hf|]. split; [exact Hm|].
  destruct (Splitter.split_loop 10 22 (sample_chunk "hello brave new world") 0 0)
    as [frags|] eqn:E; [|constructor].
  exact (split_loop_fragment_paths_distinct 10 _ 22 frags Hf Hm E).
Defined.

(** ** What a match reads *)

Lemma consumes_refl st : consumes st st.
Proof. exists []. split; [reflexivity | cbn [length]; lia]. Qed.

Lemma consumes_trans st1 st2 st3 :
  consumes st1 st2 -> consumes st2 st3 -> consumes st1 st3.
Proof.
  intros (c1 & H1 & L1) (c2 & H2 & L2). exists (c1 ++ c2).
  split; [rewrite H1, H2, app_assoc; reflexivity | rewrite length_app; lia].
Qed.

Lemma step_char_consumes p st st' : In st' (step_char p st) -> consumes st st'.
Proof.
  unfold step_char. destruct (m_rest st) as [|c rest'] eqn:E; [intros []|].
  destruct (p c); [|intros []]. intros [<-|[]]. exists [c].
  cbn [m_rest m_pos length app]. split; [exact E | lia].
Qed.

Lemma star_iter_consumes step :
  (forall st st', In st' (step st) -> consumes st st') ->
  forall fuel st st', In st' (star_iter step fuel st) -> consumes st st'.
Proof.
  intros Hstep. induction fuel as [|fuel IH]; intros st st' Hin.
  - destruct Hin as [<-|[]]. apply consumes_refl.
  - cbn [star_iter] in Hin. apply in_app_or in Hin as [Hin|[<-|[]]];
      [|apply consumes_refl].
    apply in_flat_map in Hin as (st1 & H1 & Hin).
    destruct (m_pos st <? m_pos st1); [|inversion Hin].
    apply (consumes_trans st st1 st'); [apply Hstep, H1 | apply IH, Hin].
Qed.

Lemma rmatch_consumes r : forall st st', In st' (rmatch r st) -> consumes st st'.
Proof.
  induction r as [|c| | |cs|cs|r1 IH1 r2 IH2|r IH|r IH|n r IH]; intros st st' Hin;
    cbn [rmatch] in Hin; try (apply step_char_consumes in Hin; exact Hin).
  - destruct Hin as [<-|[]]. apply consumes_refl.
  - apply in_flat_map in Hin as (st1 & H1 & Hin).
    apply (consumes_trans st st1 st'); [apply IH1, H1 | apply IH2, Hin].
  - apply (star_iter_consumes (rmatch r) IH _ st st' Hin).
  - apply in_flat_map in Hin as (st1 & H1 & Hin).
    apply (consumes_trans st st1 st'); [apply IH, H1|].
    apply (star_iter_consumes (rmatch r) IH _ st1 st' Hin).
  - apply in_map_iff in Hin as (st1 & <- & H1).
    destruct (IH st st1 H1) as (consumed & Hc & Hl). exists consumed.
    cbn [close_group m_rest m_pos]. auto.
Qed.

Lemma match_at_reads r not_null prefix pos rest m :
  match_at r not_null prefix pos rest = Some m ->
  rest = mr_str m ++ mr_suffix m /\ mr_prefix m = prefix.
Proof.
  unfold match_at. destruct (List.find _ _) as [st|] eqn:E; [|discriminate].
  intros [= <-]. apply find_some in E as [Hin _].
  destruct (rmatch_consumes r _ st Hin) as (consumed & Hc & Hl).
  cbn [m_rest m_pos mr_str mr_suffix mr_prefix] in *. split; [|reflexivity].
  rewrite <- Hl, Nat2Z.id, Hc, take_app_length. reflexivity.
Qed.

Lemma search_from_reads r rest :
  forall prefix pos m,
    search_from r prefix pos rest = Some m ->
    exists skipped,
      rest = skipped ++ mr_str m ++ mr_suffix m
      /\ mr_prefix m = prefix ++ skipped.
Proof.
  induction rest as [|c rest IH]; intros prefix pos m H; cbn [search_from] in H;
    destruct (match_at r false prefix pos _) as [m0|] eqn:E.
  - injection H as <-. exists []. apply match_at_reads in E as [E1 E2].
    rewrite app_nil_r. auto.
  - discriminate.
  - injection H as <-. exists []. apply match_at_reads in E as [E1 E2].
    rewrite app_nil_r. auto.
  - destruct (IH _ _ _ H) as (skipped & Hs & Hp). exists (c :: skipped).
    cbn [app]. rewrite Hs, Hp, <- app_assoc. auto.
Qed.

Lemma iter_next_infix line r fuel :
  forall m m', infix_match line m -> In m' (iter_next fuel r m) ->
               infix_match line m'.
Proof.
  induction fuel as [|fuel IH]; intros m m' (pre & Hm) Hin; [inversion Hin|].
  cbn [iter_next] in Hin.
  assert (Hcont : forall o before,
             mr_suffix m = before ++ match o with
                                     | Some m1 => mr_str m1 ++ mr_suffix m1
                                     | None => []
                                     end \/ o = None ->
             In m' (match o with
                    | Some m1 => m1 :: iter_next fuel r m1
                    | None => []
                    end) -> infix_match line m').
  { intros [m1|] before Ho Hin'; [|inversion Hin'].
    destruct Ho as [Ho|Ho]; [|discriminate].
    assert (H1 : infix_match line m1).
    { exists (pre ++ mr_str m ++ before). rewrite Hm, Ho, <- !app_assoc.
      reflexivity. }
    destruct Hin' as [<-|Hin']; [exact H1 | exact (IH m1 m' H1 Hin')]. }
  destruct (mr_first m =? mr_second m).
  - destruct (mr_suffix m) as [|c rest'] eqn:Esuf; [inversion Hin|].
    destruct (match_at r true [] (mr_second m) (c :: rest')) as [m1|] eqn:E.
    + apply (Hcont (Some m1) []); [|exact Hin]. left.
      apply match_at_reads in E as [E _]. exact E.
    + destruct (search_from r [c] (mr_second m + 1) rest') as [m1|] eqn:Es.
      * destruct (search_from_reads _ _ _ _ _ Es) as (skipped & Hs & _).
        apply (Hcont (Some m1) (c :: skipped)); [|exact Hin]. left.
        cbn [app]. rewrite Hs. reflexivity.
      * inversion Hin.
  - destruct (search_from r [] (mr_second m) (mr_suffix m)) as [m1|] eqn:Es;
      [|inversion Hin].
    destruct (search_from_reads _ _ _ _ _ Es) as (skipped & Hs & _).
    apply (Hcont (Some m1) skipped); [|exact Hin]. left. exact Hs.
Qed.

Lemma regex_iterator_infix r line m :
  In m (regex_iterator r line) -> infix_match line m.
Proof.
  unfold regex_iterator.
  destruct (search_from r [] 0 line) as [m0|] eqn:E; [|intros []].
  destruct (search_from_reads _ _ _ _ _ E) as (skipped & Hs & _).
  assert (H0 : infix_match line m0) by (exists skipped; exact Hs).
  intros [<-|Hin]; [exact H0 | exact (iter_next_infix line r _ m0 m H0 Hin)].
Qed.

(** X19. The original text of a chunk is a piece of its context: the
    context is some characters, the original text, and some characters. *)
Theorem extract_from_file_original_in_context self fs path c :
  c ∈ fst (extract_from_file self fs path) ->
  exists before after, context c = before ++ original_text c ++ after.
Proof.
  intros Hc. unfold extract_from_file in Hc.
  destruct (fs_open fs path) as [content|]; [|inversion Hc]. cbn [fst] in Hc.
  destruct (read_lines_elem _ _ _ _ _ Hc) as (k & line & _ & Hin).
  unfold chunks_of_line, chunks_of_pattern in Hin.
  apply list_elem_of_In, in_flat_map in Hin as (r & _ & Hin).
  apply in_flat_map in Hin as (m & Hm & Hin). unfold chunk_of_match in Hin.
  destruct (min_text_length self <=? _); [|inversion Hin].
  destruct Hin as [<-|[]]. cbn [context original_text].
  destruct (regex_iterator_infix r line m Hm) as (pre & Hline).
  exists pre, (mr_suffix m). exact Hline.
Qed.

Lemma extract_from_file_original_in_context_witness :
  Forall (fun c => exists before after,
                     context c = before ++ original_text c ++ after)
    (fst (extract_from_file default_extractor sample_fs (lit "a.txt"))).
Proof.
  apply Forall_forall. intros c Hc.
  exact (extract_from_file_original_in_context default_extractor sample_fs
           (lit "a.txt") c Hc).
Defined.

(** X20. The raw capture bounds the cleaned text: the text of a chunk is
    never longer than the span between its columns, and it neither begins
    nor ends with whitespace. *)
Theorem extract_from_file_text_within_columns self fs path content c :
  fs_open fs path = Some content -> fits_string content ->
  c ∈ fst (extract_from_file self fs path) ->
  str_length (text c) <= column_end c - column_start c
  /\ no_leading_space (text c) /\ no_leading_space (rev (text c)).
Proof.
  intros Hopen Hfit Hc. unfold extract_from_file in Hc. rewrite Hopen in Hc.
  cbn [fst] in Hc.
  destruct (read_lines_elem _ _ _ _ _ Hc) as (k & line & Hk & Hin).
  destruct (getlines_bounds content) as (_ & Hl). rewrite Forall_forall in Hl.
  assert (Hline : (length line <= length content)%nat).
  { apply Hl. apply list_elem_of_lookup. eauto. }
  unfold fits_string, str_length in Hfit.
  assert (Hfl : fits_string line) by (unfold fits_string, str_length; lia).
  destruct (chunks_of_line_inv self path _ line c Hfl Hin) as (_ & Hcol & _ & _).
  unfold chunks_of_line, chunks_of_pattern in Hin.
  apply list_elem_of_In, in_flat_map in Hin as (r & _ & Hin).
  apply in_flat_map in Hin as (m & Hm & Hin).
  destruct (chunk_of_match_provenance self path
              (wrap (0 + Z.of_nat k + 1)) line m c Hfl
              (regex_iterator_ok r line m Hm))
    as (_ & _ & _ & Htext); [apply list_elem_of_In; exact Hin|].
  rewrite Htext. split; [|split].
  - etransitivity; [apply clean_text_length|].
    unfold substr, str_length. rewrite length_take. lia.
  - apply trim_no_leading.
  - unfold clean_text, trim. rewrite rev_involutive. apply drop_while_no_leading.
Qed.

Lemma extract_from_file_text_within_columns_witness :
  fs_open sample_fs (lit "a.txt") = Some sample_content
  /\ fits_string sample_content
  /\ Forall (fun c => str_length (text c) <= column_end c - column_start c)
       (fst (extract_from_file default_extractor sample_fs (lit "a.txt"))).
Proof.
  assert (Ho : fs_open sample_fs (lit "a.txt") = Some sample_content)
    by (vm_compute; reflexivity).
  assert (Hf : fits_string sample_content) by (vm_compute; reflexivity).
  split; [exact Ho|]. split; [exact Hf|].
  apply Forall_forall. intros c Hc.
  exact (proj1 (extract_from_file_text_within_columns default_extractor sample_fs
                  (lit "a.txt") sample_content c Ho Hf Hc)).
Defined.

(** ** The layout of the master file *)

Lemma records_of_chunks_lookup cs :
  forall i (k : nat) c,
    cs !! k = Some c ->
    records_of_chunks i cs !! k
    = Some (mkTranslationRecord
              (wrap (match k with
                     | O => i + 1
                     | S _ => i + Z.of_nat k + 1
                     end))
              (file_path c) (line_number c) (text c) []).
Proof.
  induction cs as [|c0 cs IH]; intros i k c Hk; [discriminate|].
  destruct k as [|k]; cbn [records_of_chunks].
  - injection Hk as ->. reflexivity.
  - cbn [lookup list_lookup] in *. rewrite (IH _ _ _ Hk). do 2 f_equal.
    destruct k as [|k]; unfold wrap; rewrite <- ?Z.add_assoc, Zplus_mod_idemp_l;
      f_equal; lia.
Qed.

(** X21. The master file is the worksheet of one record per chunk, in the
    order of the chunks: the record of the chunk at index [k] has the
    identifier [k + 1], the path, line number and text of the chunk, and an
    empty translation. *)
Theorem master_translation_records cs :
  Z.of_nat (length cs) < size_modulus ->
  master_translation cs = worksheet (records_of_chunks 0 cs)
  /\ length (records_of_chunks 0 cs) = length cs
  /\ forall (k : nat) c,
       cs !! k = Some c ->
       records_of_chunks 0 cs !! k
       = Some (mkTranslationRecord (Z.of_nat k + 1) (file_path c) (line_number c)
                 (text c) []).
Proof.
  intros Hlen. split; [apply master_translation_worksheet|]. split.
  - generalize 0. induction cs as [|c cs IH]; intros i; [reflexivity|].
    cbn [records_of_chunks length]. rewrite IH; [reflexivity|].
    cbn [length] in Hlen. lia.
  - intros k c Hk. rewrite (records_of_chunks_lookup cs 0 k c Hk).
    pose proof (lookup_lt_Some _ _ _ Hk) as Hlt. do 2 f_equal.
    destruct k as [|k]; rewrite wrap_small by lia; lia.
Qed.

Lemma master_translation_records_witness :
  Z.of_nat (length sample_chunks) < size_modulus
  /\ records_of_chunks 0 sample_chunks !! 1%nat
     = Some (mkTranslationRecord 2 (lit "a.txt") 1 (lit "short") []).
Proof.
  assert (H : Z.of_nat (length sample_chunks) < size_modulus)
    by (vm_compute; reflexivity).
  split; [exact H|].
  exact (proj2 (proj2 (master_translation_records sample_chunks H)) 1%nat
           (sample_chunk "short") eq_refl).
Defined.

Lemma clean_text_trimmed_witness :
  clean_text (lit "  hi there  ") = "h"%char :: lit "i there"
  /\ isspace "h"%char = false
  /\ isspace "e"%char = false.
Proof.
  assert (H1 : clean_text (lit "  hi there  ") = "h"%char :: lit "i there")
    by (vm_compute; reflexivity).
  assert (H2 : clean_text (lit "  hi there  ") = lit "hi ther" ++ ["e"%char])
    by (vm_compute; reflexivity).
  split; [exact H1|]. split.
  - exact (proj1 (clean_text_trimmed (lit "  hi there  ")) _ _ H1).
  - exact (proj2 (clean_text_trimmed (lit "  hi there  ")) _ _ H2).
Defined.
